(** * GameScope API: the generated-query validation pipeline of [src/api/app.py]

    A shallow embedding of [extract_first_select], [sanitize_sql],
    [ensure_limit], [run_sql] and the reshaping step of [ask_visual],
    together with the fragment of Python's [re] and [str] they rely on.

    Python strings are modelled as lists of characters whose code points lie
    in 0..255 (the Latin-1 block of Unicode, carried by [ascii]); the
    character classes below are the ones Python's Unicode-aware [str] and
    [re] use on that range.  Characters beyond U+00FF are outside the
    model, among them the few that [re.I] equates with the ASCII letters i,
    k and s.  Python's [int] is [Z]; the interpreter's limit on the number
    of digits it converts between [int] and [str] is modelled at its
    default. *)

From Stdlib Require Import Ascii String.
From Stdlib Require Import List NArith ZArith Lia Bool Arith.
From Stdlib Require Import DecimalString DecimalN DecimalZ DecimalFacts.
From Stdlib Require Import Sorting.Sorted Sorting.Permutation.
Import ListNotations.

Local Open Scope list_scope.

(** ** Python [str] *)

Definition str := list ascii.

Definition chars (s : string) : str := list_ascii_of_string s.

Definition code (c : ascii) : N := N_of_ascii c.

Definition in_range (lo hi : N) (c : ascii) : bool :=
  (N.leb lo (code c) && N.leb (code c) hi)%bool.

(** [str.isspace] and the regex class [\s]: both are [Py_UNICODE_ISSPACE]. *)
Definition is_space (c : ascii) : bool :=
  (in_range 9 13 c || in_range 28 32 c
   || N.eqb (code c) 133 || N.eqb (code c) 160)%bool.

(** The regex class [\d] (Unicode decimal digits; only 0-9 below 256). *)
Definition is_digit (c : ascii) : bool := in_range 48 57 c.

(** The regex class [\w]: alphanumeric per [str.isalnum], or underscore. *)
Definition is_word (c : ascii) : bool :=
  (is_digit c || in_range 65 90 c || in_range 97 122 c || N.eqb (code c) 95
   || N.eqb (code c) 170 || in_range 178 179 c || N.eqb (code c) 181
   || in_range 185 186 c || in_range 188 190 c
   || in_range 192 214 c || in_range 216 246 c || in_range 248 255 c)%bool.

(** Simple lower-casing, as [re.IGNORECASE] applies it to both sides. *)
Definition to_lower (c : ascii) : ascii :=
  if (in_range 65 90 c || in_range 192 214 c || in_range 216 222 c)%bool
  then ascii_of_N (code c + 32) else c.

Definition ci_eq (a c : ascii) : bool :=
  Ascii.eqb (to_lower a) (to_lower c).

(** Whether the first character of a text satisfies [p]. *)
Definition head_sat (p : ascii -> bool) (s : str) : bool :=
  match s with c :: _ => p c | [] => false end.

Fixpoint lstrip_by (p : ascii -> bool) (s : str) : str :=
  match s with
  | c :: t => if p c then lstrip_by p t else s
  | [] => []
  end.

Definition rstrip_by (p : ascii -> bool) (s : str) : str :=
  rev (lstrip_by p (rev s)).

(** [s.strip()] *)
Definition strip (s : str) : str := rstrip_by is_space (lstrip_by is_space s).

(** [s.rstrip(";")]: every trailing character that belongs to the argument
    is removed, not only the last one. *)
Definition rstrip_semi (s : str) : str := rstrip_by (Ascii.eqb ";"%char) s.

Fixpoint starts_with (w s : str) : bool :=
  match w, s with
  | [], _ => true
  | a :: w', c :: s' => (Ascii.eqb a c && starts_with w' s')%bool
  | _ :: _, [] => false
  end.

(** [w in s] *)
Fixpoint contains (w s : str) : bool :=
  (starts_with w s || match s with
                      | _ :: t => contains w t
                      | [] => false
                      end)%bool.

(** [str(n)] for a Python [int]. *)
Definition str_of_int (n : Z) : str :=
  chars (NilEmpty.string_of_int (Z.to_int n)).

Definition digit_value (c : ascii) : Z := Z.of_N (code c) - 48.

(** The number a run of decimal digits denotes, read left to right. *)
Definition int_of_digits (ds : str) : Z :=
  fold_left (fun acc c => acc * 10 + digit_value c)%Z ds 0%Z.

(** ** The fragment of [re] used by the application

    Every pattern of the application is compiled with [re.I]; literals are
    therefore compared case-insensitively.  Repetition occurs only over
    single-character classes ([\s*], [\s+], [\d+], [.*], [.*?]). *)

Inductive regex : Type :=
| Eps : regex
| Lit : ascii -> regex
| Cls : (ascii -> bool) -> regex
| WordB : regex
| Bol : regex
| Seq : regex -> regex -> regex
| Alt : regex -> regex -> regex
| Opt : regex -> regex
| Star : (ascii -> bool) -> regex
| LazyStar : (ascii -> bool) -> regex
| Group : nat -> regex -> regex.

Definition Plus (p : ascii -> bool) : regex := Seq (Cls p) (Star p).

Fixpoint lits (w : str) : regex :=
  match w with
  | [] => Eps
  | a :: w' => Seq (Lit a) (lits w')
  end.

Definition word (w : string) : regex := lits (chars w).

Fixpoint alts (ws : list string) : regex :=
  match ws with
  | [] => Cls (fun _ => false)
  | [w] => word w
  | w :: ws' => Alt (word w) (alts ws')
  end.

(** A position of the matcher: the character just before it (none at the
    start of the subject), the text still to read, and the groups captured
    so far. *)
Record mstate : Type := MState {
  prev : option ascii;
  rest : str;
  caps : list (nat * str)
}.

Definition word_before (o : option ascii) : bool :=
  match o with Some c => is_word c | None => false end.

Definition word_after (s : str) : bool := head_sat is_word s.

(** [\b]: exactly one side of the position is a word character. *)
Definition at_boundary (pv : option ascii) (s : str) : bool :=
  xorb (word_before pv) (word_after s).

Definition consumed (s s' : str) : str := firstn (length s - length s') s.

(** Greedy repetition: the longest run first, then shorter ones. *)
Fixpoint star_greedy (p : ascii -> bool) (pv : option ascii) (s : str)
    (cs : list (nat * str)) : list mstate :=
  match s with
  | c :: t =>
      if p c then star_greedy p (Some c) t cs ++ [MState pv s cs]
      else [MState pv s cs]
  | [] => [MState pv s cs]
  end.

(** Lazy repetition: the empty run first, then longer ones. *)
Fixpoint star_lazy (p : ascii -> bool) (pv : option ascii) (s : str)
    (cs : list (nat * str)) : list mstate :=
  MState pv s cs ::
  match s with
  | c :: t => if p c then star_lazy p (Some c) t cs else []
  | [] => []
  end.

(** All the ways [r] matches at a position, in the order a backtracking
    matcher tries them: the head is the match Python reports. *)
Fixpoint exec (r : regex) (st : mstate) : list mstate :=
  match r with
  | Eps => [st]
  | Lit a =>
      match rest st with
      | c :: t => if ci_eq a c then [MState (Some c) t (caps st)] else []
      | [] => []
      end
  | Cls p =>
      match rest st with
      | c :: t => if p c then [MState (Some c) t (caps st)] else []
      | [] => []
      end
  | WordB => if at_boundary (prev st) (rest st) then [st] else []
  | Bol => match prev st with None => [st] | Some _ => [] end
  | Seq a b => flat_map (exec b) (exec a st)
  | Alt a b => exec a st ++ exec b st
  | Opt a => exec a st ++ [st]
  | Star p => star_greedy p (prev st) (rest st) (caps st)
  | LazyStar p => star_lazy p (prev st) (rest st) (caps st)
  | Group i a =>
      map (fun st' =>
             MState (prev st') (rest st')
                    ((i, consumed (rest st) (rest st')) :: caps st'))
          (exec a st)
  end.

(** A successful match: the matched text ([group(0)]) and the final state. *)
Record rmatch : Type := RMatch {
  m_text : str;
  m_end : mstate
}.

Definition match_at (r : regex) (pv : option ascii) (s : str) : option rmatch :=
  match exec r (MState pv s []) with
  | st' :: _ => Some (RMatch (consumed s (rest st')) st')
  | [] => None
  end.

Fixpoint group (i : nat) (cs : list (nat * str)) : option str :=
  match cs with
  | (j, t) :: cs' => if Nat.eqb i j then Some t else group i cs'
  | [] => None
  end.

Definition m_group (i : nat) (m : rmatch) : str :=
  match group i (caps (m_end m)) with Some t => t | None => [] end.

(** [re.match]: only at the start of the subject. *)
Definition re_match (r : regex) (s : str) : option rmatch := match_at r None s.

(** [re.search]: the first position, left to right, where the pattern
    matches (the end of the subject included). *)
Fixpoint search_from (r : regex) (pv : option ascii) (s : str) : option rmatch :=
  match match_at r pv s with
  | Some m => Some m
  | None =>
      match s with
      | c :: t => search_from r (Some c) t
      | [] => None
      end
  end.

Definition re_search (r : regex) (s : str) : option rmatch := search_from r None s.

Definition found {A : Type} (o : option A) : bool :=
  match o with Some _ => true | None => false end.

(** [re.sub] with a replacement free of escapes: matches are replaced left
    to right and the scan resumes after each match; [skip] counts the
    characters of the current match still to pass over.  A match of the
    empty string is replaced and the scan moves one character on; the one
    pattern the application substitutes never matches the empty string. *)
Fixpoint sub_go (r : regex) (repl : str) (pv : option ascii) (s : str)
    (skip : nat) {struct s} : str :=
  match skip with
  | S k =>
      match s with
      | c :: t => sub_go r repl (Some c) t k
      | [] => []
      end
  | O =>
      match match_at r pv s with
      | Some m =>
          repl ++
          match s with
          | c :: t =>
              match length (m_text m) with
              | O => c :: sub_go r repl (Some c) t 0
              | S k => sub_go r repl (Some c) t k
              end
          | [] => []
          end
      | None =>
          match s with
          | c :: t => c :: sub_go r repl (Some c) t 0
          | [] => []
          end
      end
  end.

Definition re_sub (r : regex) (repl : str) (s : str) : str :=
  sub_go r repl None s 0.

(** [re.finditer]: the successive non-overlapping matches [re.sub] replaces. *)
Fixpoint finditer_go (r : regex) (pv : option ascii) (s : str)
    (skip : nat) {struct s} : list rmatch :=
  match skip with
  | S k =>
      match s with
      | c :: t => finditer_go r (Some c) t k
      | [] => []
      end
  | O =>
      match match_at r pv s with
      | Some m =>
          m ::
          match s with
          | c :: t => finditer_go r (Some c) t (pred (length (m_text m)))
          | [] => []
          end
      | None =>
          match s with
          | c :: t => finditer_go r (Some c) t 0
          | [] => []
          end
      end
  end.

Definition re_finditer (r : regex) (s : str) : list rmatch :=
  finditer_go r None s 0.

(** ** Notions used to state the properties *)

(** The character before a position reached by reading [u]. *)
Definition prev_after (pv : option ascii) (u : str) : option ascii :=
  fold_left (fun _ c => Some c) u pv.

Definition last_char (u : str) : option ascii := prev_after None u.

(** [u] is the word [w] up to the case of letters. *)
Definition ci_match (w u : str) : Prop :=
  Forall2 (fun a c => ci_eq a c = true) w u.

(** Reading the word [w] at the head of [s]: the text read and what is left. *)
Fixpoint strip_prefix_ci (w s : str) : option (str * str) :=
  match w with
  | [] => Some ([], s)
  | a :: w' =>
      match s with
      | c :: t =>
          if ci_eq a c then
            match strip_prefix_ci w' t with
            | Some (u, t') => Some (c :: u, t')
            | None => None
            end
          else None
      | [] => None
      end
  end.

(** The longest prefix whose characters satisfy [p], and what is left. *)
Fixpoint span (p : ascii -> bool) (s : str) : str * str :=
  match s with
  | c :: t => if p c then (c :: fst (span p t), snd (span p t)) else ([], s)
  | [] => ([], [])
  end.

(** One of the words [ws] stands as a whole word at the junction of
    [before] and [after]: it opens [after], no word character precedes it
    and none follows it. *)
Definition token_at (ws : list string) (before after : str) : Prop :=
  exists w u post,
    In w ws /\ after = u ++ post /\ ci_match (chars w) u /\
    word_before (last_char before) = false /\ word_after post = false.

(** One of the words [ws] occurs in [s] as a whole word. *)
Definition standalone (ws : list string) (s : str) : Prop :=
  exists pre post, s = pre ++ post /\ token_at ws pre post.

(** A non-empty word made of word characters only. *)
Definition wordy (w : string) : bool :=
  match chars w with
  | [] => false
  | l => forallb is_word l
  end.

(** [\b(w1|w2|...)\b] *)
Definition token_re (ws : list string) : regex :=
  Seq WordB (Seq (Group 1 (alts ws)) WordB).

(** The characters [sanitize_sql] trims from the ends of a candidate. *)
Definition trim_char (c : ascii) : bool :=
  (is_space c || Ascii.eqb ";"%char c)%bool.

(** ** Exceptions and results

    The [ValueError]s raised by the pipeline are told apart by their
    message; the constructors carry the names the specification gives them:
    [NoStatementFound] is "No SQL returned", [MultipleStatements] is
    "Multiple statements", [CommentsPresent] is "Comments not allowed",
    [ForbiddenKeyword] is "Forbidden SQL", [ForbiddenSchema] is "System
    schemas not allowed", [NotReadStatement] is "Only SELECT/WITH allowed",
    [WrongTable] is "Must query public.rawg_games", [SyntaxInvalid] is the
    parser's own error, [ExecutionFailed] any error of the database layer,
    [EmptyResult] the 404 of [ask_visual], [ShapeError] the length
    mismatch pandas raises when two names are assigned to one column, and
    [DigitLimit] is "Exceeds the limit (4300 digits) for integer string
    conversion", raised by [int] and [str]. *)

Inductive exn : Type :=
| NoStatementFound
| MultipleStatements
| CommentsPresent
| ForbiddenKeyword
| ForbiddenSchema
| NotReadStatement
| WrongTable
| SyntaxInvalid
| ExecutionFailed
| EmptyResult
| ShapeError
| DigitLimit.

Inductive result (A : Type) : Type :=
| Ok : A -> result A
| Raise : exn -> result A.

Arguments Ok {A} _.
Arguments Raise {A} _.

(** ** Conversions between [int] and [str]

    The interpreter converts a decimal text to an [int], or an [int] to
    its decimal text, only when it has at most [sys.int_max_str_digits]
    digits, and raises [ValueError] otherwise.  The application leaves that
    setting at its default. *)

Definition INT_MAX_STR_DIGITS : Z := 4300.

Definition within_digit_limit (ds : str) : bool :=
  (Z.of_nat (length ds) <=? INT_MAX_STR_DIGITS)%Z.

(** [int(ds)] for a run of decimal digits; leading zeros count. *)
Definition parse_int (ds : str) : result Z :=
  if within_digit_limit ds then Ok (int_of_digits ds) else Raise DigitLimit.

(** [str(n)], also inside an f-string: the digits of the absolute value
    are the ones counted. *)
Definition format_int (n : Z) : result str :=
  if within_digit_limit (str_of_int (Z.abs n)) then Ok (str_of_int n)
  else Raise DigitLimit.

(** ** Patterns of [app.py] *)

Definition any_char (c : ascii) : bool := true.

Definition FORBIDDEN_WORDS : list string :=
  ["INSERT"; "UPDATE"; "DELETE"; "DROP"; "ALTER"; "TRUNCATE"; "CREATE";
   "GRANT"; "REVOKE"; "COPY"]%string.

(** [\b(INSERT|UPDATE|DELETE|DROP|ALTER|TRUNCATE|CREATE|GRANT|REVOKE|COPY)\b] *)
Definition FORBIDDEN : regex :=
  Seq WordB (Seq (Group 1 (alts FORBIDDEN_WORDS)) WordB).

Definition CATALOG_WORDS : list string :=
  ["pg_catalog"; "information_schema"]%string.

(** [\b(pg_catalog|information_schema)\b] *)
Definition CATALOG_FORBIDDEN : regex :=
  Seq WordB (Seq (Group 1 (alts CATALOG_WORDS)) WordB).

Definition FENCE : str := chars "```".

(** [```(?:sql)?\s*(.*?)\s*```] with [re.I | re.S] *)
Definition FENCE_RE : regex :=
  Seq (lits FENCE)
    (Seq (Opt (word "sql"))
       (Seq (Star is_space)
          (Seq (Group 1 (LazyStar any_char))
             (Seq (Star is_space) (lits FENCE))))).

(** What [FENCE_RE] reads after the opening fence and its tag. *)
Definition FENCE_TAIL : regex :=
  Seq (Star is_space)
    (Seq (Group 1 (LazyStar any_char))
       (Seq (Star is_space) (lits FENCE))).

Definition READ_WORDS : list string := ["SELECT"; "WITH"]%string.

(** [(?is)\b(SELECT|WITH)\b.*] *)
Definition SELECT_RE : regex :=
  Seq WordB (Seq (Group 1 (alts READ_WORDS)) (Seq WordB (Star any_char))).

(** [^(SELECT|WITH)\b] *)
Definition READ_RE : regex :=
  Seq Bol (Seq (Group 1 (alts READ_WORDS)) WordB).

Definition TABLE_WORDS : list string := ["FROM"; "JOIN"]%string.

Definition ALLOWED_TABLE : string := "public.rawg_games"%string.

(** [\b(FROM|JOIN)\s+public\.rawg_games\b] *)
Definition TABLE_RE : regex :=
  Seq WordB
    (Seq (Group 1 (alts TABLE_WORDS))
       (Seq (Plus is_space) (Seq (word ALLOWED_TABLE) WordB))).

(** [(?is)\bLIMIT\s+(\d+)\b] *)
Definition LIMIT_RE : regex :=
  Seq WordB
    (Seq (word "LIMIT")
       (Seq (Plus is_space) (Seq (Group 1 (Plus is_digit)) WordB))).

(** [(?is)\bLIMIT\s+\d+\b] *)
Definition LIMIT_SUB_RE : regex :=
  Seq WordB
    (Seq (word "LIMIT") (Seq (Plus is_space) (Seq (Plus is_digit) WordB))).

(** The text holds [FROM] or [JOIN] as a whole word, whitespace, then the
    allowed table's name followed by no word character: what [TABLE_RE]
    looks for. *)
Definition allowed_ref (s : str) : Prop :=
  exists pre kw ws u post,
    s = pre ++ kw ++ ws ++ u ++ post /\
    (exists w, In w TABLE_WORDS /\ ci_match (chars w) kw) /\
    word_before (last_char pre) = false /\
    ws <> [] /\ Forall (fun c => is_space c = true) ws /\
    ci_match (chars ALLOWED_TABLE) u /\
    word_after post = false.

(** A character of a possibly qualified table name. *)
Definition name_char (c : ascii) : bool :=
  (is_word c || Ascii.eqb "."%char c)%bool.

(** The text names the table [name] after [FROM] or [JOIN]: the name is
    the whole run of name characters that follows the whitespace. *)
Definition table_ref (s name : str) : Prop :=
  exists pre kw ws post,
    s = pre ++ kw ++ ws ++ name ++ post /\
    (exists w, In w TABLE_WORDS /\ ci_match (chars w) kw) /\
    word_before (last_char pre) = false /\
    ws <> [] /\ Forall (fun c => is_space c = true) ws /\
    name <> [] /\ forallb name_char name = true /\
    head_sat name_char post = false.

(** The text names, after [FROM] or [JOIN], a table that is not the
    allowed one. *)
Definition references_other_table (s : str) : Prop :=
  exists name, table_ref s name /\ ~ ci_match (chars ALLOWED_TABLE) name.

(** ** [extract_first_select] *)

Definition extract_first_select (txt : str) : result str :=
  let t := strip txt in
  let t := match re_search FENCE_RE t with
           | Some m => strip (m_group 1 m)
           | None => t
           end in
  match re_search SELECT_RE t with
  | None => Raise NoStatementFound
  | Some m2 => Ok (rstrip_semi (strip (m_text m2)))
  end.

(** The text in which [extract_first_select] looks for the statement: the
    interior of the first fenced block when there is one, the whole
    completion otherwise, trimmed. *)
Definition statement_text (txt : str) : str :=
  let t := strip txt in
  match re_search FENCE_RE t with
  | Some m => strip (m_group 1 m)
  | None => t
  end.

(** A statement wrapped in a fenced block, the opening fence followed by
    [tag] (empty, or the dialect's name). *)
Definition fenced (tag s : str) : str :=
  FENCE ++ tag ++ ["010"%char] ++ s ++ ["010"%char] ++ FENCE.

(** ** [sanitize_sql]

    [sqlglot.parse_one] is a library outside the repository: the validator
    is parameterised by the function telling whether a text parses. *)

Section Validator.

Variable parse_one : str -> bool.

Definition sanitize_sql (sql : str) : result str :=
  let s := rstrip_semi (strip sql) in
  if contains (chars ";") s then Raise MultipleStatements
  else if (contains (chars "--") s || contains (chars "/*") s
           || contains (chars "*/") s)%bool then Raise CommentsPresent
  else if found (re_search FORBIDDEN s) then Raise ForbiddenKeyword
  else if found (re_search CATALOG_FORBIDDEN s) then Raise ForbiddenSchema
  else if negb (found (re_match READ_RE s)) then Raise NotReadStatement
  else if negb (found (re_search TABLE_RE s)) then Raise WrongTable
  else if parse_one s then Ok s
  else Raise SyntaxInvalid.

End Validator.

(** ** [ensure_limit] *)

Definition newline : ascii := "010"%char.

Definition limit_clause (limit : Z) : str := chars "LIMIT " ++ str_of_int limit.

Definition ensure_limit (sql : str) (limit : Z) : result str :=
  match re_search LIMIT_RE sql with
  | Some m =>
      match parse_int (m_group 1 m) with
      | Raise e => Raise e
      | Ok n =>
          if (n >? limit)%Z then
            match format_int limit with
            | Raise e => Raise e
            | Ok t => Ok (re_sub LIMIT_SUB_RE (chars "LIMIT " ++ t) sql)
            end
          else Ok sql
      end
  | None =>
      match format_int limit with
      | Raise e => Raise e
      | Ok t => Ok (sql ++ newline :: chars "LIMIT " ++ t)
      end
  end.

(** The digits of the first text [LIMIT_RE] matches, if any: what
    [ensure_limit] converts. *)
Definition limit_digits (sql : str) : option str :=
  match re_search LIMIT_RE sql with
  | Some m => Some (m_group 1 m)
  | None => None
  end.

(** The limit a statement carries in the eyes of [ensure_limit]: the value
    of the first text [LIMIT_RE] matches, if any. *)
Definition limit_of (sql : str) : option Z :=
  match re_search LIMIT_RE sql with
  | Some m => Some (int_of_digits (m_group 1 m))
  | None => None
  end.

(** The values of all the limit clauses of a statement, in order. *)
Definition limit_values (sql : str) : list Z :=
  map (fun m => int_of_digits (m_group 1 m)) (re_finditer LIMIT_RE sql).

(** The texts [LIMIT_RE] matches in a statement, in order. *)
Definition limit_texts (sql : str) : list str :=
  map m_text (re_finditer LIMIT_RE sql).

(** A text cut into pieces, each a gap followed by a clause, and a tail;
    [with_clauses f] puts the pieces together again, every clause turned
    into [f] of it. *)
Definition with_clauses (f : str -> str) (pieces : list (str * str))
    (tail : str) : str :=
  flat_map (fun p => fst p ++ f (snd p)) pieces ++ tail.



(** What [LIMIT_RE] reads at a position, computed directly: the keyword,
    the whole run of whitespace, the whole run of digits, and the text
    left, which must not open with a word character. *)
Definition lim_match (pv : option ascii) (s : str) :
    option (str * str * str * str) :=
  if word_before pv then None
  else
    match strip_prefix_ci (chars "LIMIT") s with
    | None => None
    | Some (kw, r1) =>
        match span is_space r1 with
        | ([], _) => None
        | (ws, r2) =>
            match span is_digit r2 with
            | ([], _) => None
            | (ds, r3) =>
                if word_after r3 then None else Some (kw, ws, ds, r3)
            end
        end
    end.

(** ** [run_sql] and the reshaping of [ask_visual]

    Column values are whatever the driver returns; pandas' conversions of
    them are taken as parameters: [astype_str] is [str] of a value,
    [to_numeric] is [pd.to_numeric(errors="coerce")] on one value, [None]
    standing for NaN, and [number] is the type of the numbers that are not
    NaN, ordered by [num_leb]. *)

Fixpoint str_eqb (a b : str) : bool :=
  match a, b with
  | [], [] => true
  | x :: a', y :: b' => (Ascii.eqb x y && str_eqb a' b')%bool
  | _, _ => false
  end.

Section Rows.

Variable scalar : Type.
Variable null : scalar.

(** A row as a Python [dict]: keys in insertion order. *)
Definition row : Type := list (str * scalar).

Fixpoint dict_set (k : str) (v : scalar) (d : row) : row :=
  match d with
  | [] => [(k, v)]
  | (k', v') :: d' =>
      if str_eqb k k' then (k', v) :: d' else (k', v') :: dict_set k v d'
  end.

(** [dict(r._mapping)] *)
Definition dict (mapping : list (str * scalar)) : row :=
  fold_left (fun d kv => dict_set (fst kv) (snd kv) d) mapping [].

Fixpoint dict_get (k : str) (d : row) : option scalar :=
  match d with
  | [] => None
  | (k', v) :: d' => if str_eqb k k' then Some v else dict_get k d'
  end.

Definition enumerate {A : Type} (l : list A) : list (nat * A) :=
  combine (seq 0 (length l)) l.

(** The database: obtaining the engine, opening the transaction, setting
    the statement timeout and running the statement either raises or
    yields the cursor's rows, each a list of column names and values. *)
Variable db_execute : str -> result (list (list (str * scalar))).

Definition run_sql (sql : str) (max_rows : Z) : result (list row) :=
  match db_execute sql with
  | Raise e => Raise e
  | Ok res =>
      Ok (map (fun ir => dict (snd ir))
            (filter (fun ir => (Z.of_nat (fst ir) <? max_rows)%Z)
               (enumerate res)))
  end.

(** [pd.DataFrame(rows)] for a list of dicts: the columns are the keys in
    order of first appearance, a missing key gives a null cell. *)
Record DataFrame : Type := mkDataFrame {
  columns : list str;
  records : list (list scalar)
}.

Definition add_key (ks : list str) (k : str) : list str :=
  if existsb (str_eqb k) ks then ks else ks ++ [k].

Definition all_keys (rows : list row) : list str :=
  fold_left (fun ks r => fold_left add_key (map fst r) ks) rows [].

Definition cell (r : row) (k : str) : scalar :=
  match dict_get k r with Some v => v | None => null end.

Definition DataFrame_of (rows : list row) : DataFrame :=
  let ks := all_keys rows in
  mkDataFrame ks (map (fun r => map (cell r) ks) rows).

(** [df.empty]: some axis has length zero. *)
Definition df_empty (df : DataFrame) : bool :=
  match columns df, records df with
  | [], _ => true
  | _, [] => true
  | _, _ => false
  end.

Fixpoint index_of (k : str) (ks : list str) : option nat :=
  match ks with
  | [] => None
  | k' :: ks' =>
      if str_eqb k k' then Some 0
      else match index_of k ks' with Some i => Some (S i) | None => None end
  end.

(** [df[k]] for a column that exists. *)
Definition column (df : DataFrame) (i : nat) : list scalar :=
  map (fun rec => nth i rec null) (records df).

Variable astype_str : scalar -> str.
Variable number : Type.
Variable zero : number.
Variable to_numeric : scalar -> option number.
Variable num_leb : number -> number -> bool.

(** [.fillna(0)] after the coercion. *)
Definition fillna0 (o : option number) : number :=
  match o with Some x => x | None => zero end.

(** [sort_values("value", ascending=False)]: insertion into descending
    order.  pandas does not fix the order of rows with equal values; the
    model keeps them in their original order. *)
Fixpoint insert_desc (x : str * number) (l : list (str * number)) :
    list (str * number) :=
  match l with
  | [] => [x]
  | y :: l' =>
      if num_leb (snd y) (snd x) then x :: l else y :: insert_desc x l'
  end.

Fixpoint sort_values_desc (l : list (str * number)) : list (str * number) :=
  match l with
  | [] => []
  | x :: l' => insert_desc x (sort_values_desc l')
  end.

(** Descending order of the values of two entries. *)
Definition desc (a b : str * number) : Prop := num_leb (snd b) (snd a) = true.

Definition label_name : str := chars "label".
Definition value_name : str := chars "value".

(** Which columns serve as label and value: the ones so named when both
    exist, otherwise the first two, renamed ([df.iloc[:, :2]] followed by
    [df.columns = ["label", "value"]], which raises unless two columns are
    there). *)
Definition pick_columns (cols : list str) : result (nat * nat) :=
  match index_of label_name cols, index_of value_name cols with
  | Some i, Some j => Ok (i, j)
  | _, _ =>
      if Nat.eqb (length (firstn 2 cols)) 2 then Ok (0, 1)
      else Raise ShapeError
  end.

(** One entry of the series: the label cut to 40 characters, the value
    coerced to a number. *)
Definition entry (i j : nat) (rec : list scalar) : str * number :=
  (firstn 40 (astype_str (nth i rec null)),
   fillna0 (to_numeric (nth j rec null))).

(** Lines 322-334 of [ask_visual]: from the rows to the series that is
    plotted. *)
Definition chart_series (rows : list row) : result (list (str * number)) :=
  let df := DataFrame_of rows in
  if df_empty df then Raise EmptyResult
  else
    match pick_columns (columns df) with
    | Raise e => Raise e
    | Ok (i, j) =>
        let labels := map (fun v => firstn 40 (astype_str v)) (column df i) in
        let values := map (fun v => fillna0 (to_numeric v)) (column df j) in
        Ok (firstn 30 (sort_values_desc (combine labels values)))
    end.

End Rows.

(** ** [safe_header_value] *)

(** [s.replace(a, b)] for one-character strings. *)
Definition replace_char (a b : ascii) (s : str) : str :=
  map (fun c => if Ascii.eqb c a then b else c) s.

(** [\s+] *)
Definition SPACES_RE : regex := Plus is_space.

(** [s[:n]]: a negative bound counts from the end. *)
Definition slice_to (s : str) (n : Z) : str :=
  if (n <? 0)%Z then firstn (Z.to_nat (Z.of_nat (length s) + n)) s
  else firstn (Z.to_nat n) s.

Definition safe_header_value (s : str) (max_len : Z) : str :=
  let s := replace_char "010"%char " "%char
             (replace_char "013"%char " "%char s) in
  let s := strip (re_sub SPACES_RE [" "%char] s) in
  if (Z.of_nat (length s) >? max_len)%Z then slice_to s max_len ++ chars "..."
  else s.

(** No two whitespace characters stand next to each other. *)
Fixpoint single_spaced (s : str) : bool :=
  match s with
  | a :: t =>
      (negb (is_space a && head_sat is_space t) && single_spaced t)%bool
  | [] => true
  end.

(** ** [get_engine]

    The module-level [_engine] is the state; [create_engine] belongs to
    SQLAlchemy and is a parameter: it returns an engine or raises (on a
    URL it cannot parse, for one).  The [RuntimeError] raised when a
    setting is missing is [ExecutionFailed]. *)

Record db_env : Type := mkEnv {
  DB_HOST : option str;
  DB_NAME : option str;
  DB_USER : option str;
  DB_PASSWORD : option str;
  DB_PORT : str
}.

(** Truth value of an optional string: [None] and the empty string are
    false. *)
Definition truthy (o : option str) : bool :=
  match o with
  | Some (_ :: _) => true
  | _ => false
  end.

Definition text_of (o : option str) : str :=
  match o with Some t => t | None => chars "None" end.

Definition engine_url (env : db_env) : str :=
  chars "postgresql+psycopg2://" ++ text_of (DB_USER env) ++ chars ":"
  ++ text_of (DB_PASSWORD env) ++ chars "@" ++ text_of (DB_HOST env)
  ++ chars ":" ++ DB_PORT env ++ chars "/" ++ text_of (DB_NAME env).

Section Engine.

Variable engine : Type.
Variable create_engine : str -> result engine.
Variable env : db_env.

(** The result of the call and the new value of [_engine]. *)
Definition get_engine (_engine : option engine) :
    result engine * option engine :=
  match _engine with
  | Some e => (Ok e, _engine)
  | None =>
      if (truthy (DB_HOST env) && truthy (DB_NAME env)
          && truthy (DB_USER env) && truthy (DB_PASSWORD env))%bool
      then
        match create_engine (engine_url env) with
        | Ok e => (Ok e, Some e)
        | Raise x => (Raise x, None)
        end
      else (Raise ExecutionFailed, None)
  end.

End Engine.

(** ** [generate_sql], [ask_text] and [ask_visual] *)

(** The pieces of a text, each followed by a line break. *)
Definition lines (l : list string) : str :=
  flat_map (fun x => chars x ++ [newline]) l.

Definition schema_hint : str :=
  lines ["Database: PostgreSQL"; "Schema:"; "- public.rawg_games(";
         "  id, name, slug, released, updated,";
         "  rating, ratings_count, metacritic, rating_top, added,";
         "  reviews_text_count, suggestions_count,";
         "  reddit_count, twitch_count, youtube_count"; ")"; "Rules:";
         "- Output ONLY ONE SQL query"; "- READ ONLY: SELECT or WITH";
         "- Always include FROM public.rawg_games";
         "- If user says reviews use reviews_text_count"]%string.

Definition instruction (mode : str) : str :=
  lines ["Return ONLY ONE PostgreSQL SQL query.";
         "READ ONLY: SELECT or WITH.";
         "Always include FROM public.rawg_games."; "No explanations."]%string
  ++ (if str_eqb mode (chars "visual")
      then lines ["Return EXACTLY two columns: label and value."]%string
      else []).

Definition prompt_of (question mode : str) : str :=
  schema_hint ++ [newline] ++ instruction mode ++ [newline]
  ++ chars "Question: " ++ question ++ [newline] ++ chars "SQL:".

(** What a request handler's body does: return, raise an [HTTPException]
    with a status, or raise another exception. *)
Inductive outcome (A : Type) : Type :=
| Return : A -> outcome A
| RaiseHTTP : Z -> outcome A
| RaiseOther : exn -> outcome A.

Arguments Return {A} _.
Arguments RaiseHTTP {A} _.
Arguments RaiseOther {A} _.

(** What the client receives: the payload, or an error status. *)
Inductive response (A : Type) : Type :=
| Served : A -> response A
| Failed : Z -> response A.

Arguments Served {A} _.
Arguments Failed {A} _.

(** [except HTTPException: raise] then [except Exception: raise
    HTTPException(status_code=400, ...)]. *)
Definition handle {A : Type} (o : outcome A) : response A :=
  match o with
  | Return a => Served a
  | RaiseHTTP st => Failed st
  | RaiseOther _ => Failed 400
  end.

Definition of_result {A : Type} (r : result A) : outcome A :=
  match r with
  | Ok a => Return a
  | Raise e => RaiseOther e
  end.

Section Service.

Variable parse_one : str -> bool.

(** The completion service: the content of the first choice, or nothing
    when the request, its status or the shape of the answer fails. *)
Variable completion : str -> option str.

Variable scalar : Type.
Variable null : scalar.
Variable db_execute : str -> result (list (list (str * scalar))).
Variable astype_str : scalar -> str.
Variable number : Type.
Variable zero : number.
Variable to_numeric : scalar -> option number.
Variable num_leb : number -> number -> bool.

(** The rendering of the chart by matplotlib, taken as a function of the
    series and the title. *)
Variable image : Type.
Variable render : list (str * number) -> str -> image.

Variable MAX_ROWS_TEXT : Z.
Variable MAX_ROWS_VISUAL : Z.

(** [hf_generate_text]: any failure becomes [HTTPException(502)]. *)
Definition hf_generate_text (prompt : str) : outcome str :=
  match completion prompt with
  | Some content => Return (strip content)
  | None => RaiseHTTP 502
  end.

Definition generate_sql (question mode : str) : outcome str :=
  match hf_generate_text (prompt_of question mode) with
  | Return raw =>
      match extract_first_select raw with
      | Ok sql => of_result (sanitize_sql parse_one sql)
      | Raise e => RaiseOther e
      end
  | RaiseHTTP st => RaiseHTTP st
  | RaiseOther e => RaiseOther e
  end.

Definition ask_text (question : str) : response (str * list (row scalar)) :=
  handle
    match generate_sql question (chars "text") with
    | Return s =>
        match ensure_limit s MAX_ROWS_TEXT with
        | Ok sql =>
            match run_sql scalar db_execute sql MAX_ROWS_TEXT with
            | Ok rows => Return (sql, rows)
            | Raise e => RaiseOther e
            end
        | Raise e => RaiseOther e
        end
    | RaiseHTTP st => RaiseHTTP st
    | RaiseOther e => RaiseOther e
    end.

(** The image and the value of the [X-SQL] header. *)
Definition ask_visual (question : str) : response (image * str) :=
  handle
    match generate_sql question (chars "visual") with
    | Return s =>
        match ensure_limit s MAX_ROWS_VISUAL with
        | Ok sql =>
            match run_sql scalar db_execute sql MAX_ROWS_VISUAL with
            | Ok rows =>
                match chart_series scalar null astype_str number zero
                        to_numeric num_leb rows with
                | Ok series => Return (render series question,
                                       safe_header_value sql 800)
                | Raise EmptyResult => RaiseHTTP 404
                | Raise e => RaiseOther e
                end
            | Raise e => RaiseOther e
            end
        | Raise e => RaiseOther e
        end
    | RaiseHTTP st => RaiseHTTP st
    | RaiseOther e => RaiseOther e
    end.

End Service.

(** * Properties *)

(** ** Characters *)

Ltac by_chars c :=
  destruct c as [[] [] [] [] [] [] [] []]; vm_compute; try reflexivity;
  try discriminate; intuition (try discriminate; try congruence).

Lemma digit_is_word c : is_digit c = true -> is_word c = true.
Proof. by_chars c. Qed.

Lemma space_not_word c : is_space c = true -> is_word c = false.
Proof. by_chars c. Qed.

Lemma digit_not_space c : is_digit c = true -> is_space c = false.
Proof. by_chars c. Qed.

Lemma ci_eq_refl c : ci_eq c c = true.
Proof. unfold ci_eq. apply Ascii.eqb_refl. Qed.

Lemma ci_eq_sym a c : ci_eq a c = ci_eq c a.
Proof. unfold ci_eq. apply Ascii.eqb_sym. Qed.

Lemma ci_eq_trans a b c : ci_eq a b = true -> ci_eq b c = true -> ci_eq a c = true.
Proof.
  unfold ci_eq. intros H1 H2.
  apply Ascii.eqb_eq in H1. apply Ascii.eqb_eq in H2.
  apply Ascii.eqb_eq. congruence.
Qed.

Lemma to_lower_word c : is_word (to_lower c) = is_word c.
Proof. by_chars c. Qed.

Lemma ci_eq_lower a c : ci_eq a c = true -> to_lower a = to_lower c.
Proof. unfold ci_eq. apply Ascii.eqb_eq. Qed.

Lemma ci_eq_word a c : ci_eq a c = true -> is_word c = is_word a.
Proof.
  intros H. apply ci_eq_lower in H.
  rewrite <- (to_lower_word c), <- (to_lower_word a). now rewrite H.
Qed.

Lemma to_lower_space c : is_space (to_lower c) = is_space c.
Proof. by_chars c. Qed.

Lemma to_lower_digit c : is_digit (to_lower c) = is_digit c.
Proof. by_chars c. Qed.

Lemma ci_eq_space a c : ci_eq a c = true -> is_space c = is_space a.
Proof.
  intros H. apply ci_eq_lower in H.
  rewrite <- (to_lower_space c), <- (to_lower_space a). now rewrite H.
Qed.

Lemma ci_eq_digit a c : ci_eq a c = true -> is_digit c = is_digit a.
Proof.
  intros H. apply ci_eq_lower in H.
  rewrite <- (to_lower_digit c), <- (to_lower_digit a). now rewrite H.
Qed.

(** ** Trimming *)

Lemma lstrip_by_split p s :
  exists ws, s = ws ++ lstrip_by p s /\ Forall (fun c => p c = true) ws.
Proof.
  induction s as [|c t IH]; simpl.
  - exists []. split; [reflexivity | constructor].
  - destruct (p c) eqn:E.
    + destruct IH as [ws [H1 H2]]. exists (c :: ws). split.
      * simpl. now rewrite <- H1.
      * now constructor.
    + exists []. split; [reflexivity | constructor].
Qed.

Lemma lstrip_by_head p s c t : lstrip_by p s = c :: t -> p c = false.
Proof.
  induction s as [|a s IH]; simpl; [discriminate|].
  destruct (p a) eqn:E; [exact IH|].
  intros H. injection H as -> _. exact E.
Qed.

Lemma lstrip_by_all p ws s :
  Forall (fun c => p c = true) ws -> lstrip_by p (ws ++ s) = lstrip_by p s.
Proof.
  induction 1 as [|c ws Hc _ IH]; simpl; [reflexivity|]. now rewrite Hc.
Qed.

Lemma lstrip_by_nil p s :
  lstrip_by p s = [] <-> Forall (fun c => p c = true) s.
Proof.
  split.
  - induction s as [|c t IH]; simpl; [constructor|].
    destruct (p c) eqn:E; [|discriminate]. intros H. constructor; auto.
  - intros H. rewrite <- (List.app_nil_r s). now rewrite lstrip_by_all.
Qed.

Lemma lstrip_by_app p s b :
  lstrip_by p s <> [] -> lstrip_by p (s ++ b) = lstrip_by p s ++ b.
Proof.
  induction s as [|c t IH]; simpl; [congruence|].
  destruct (p c); [exact IH | reflexivity].
Qed.

Lemma lstrip_by_id p s : head_sat p s = false -> lstrip_by p s = s.
Proof. destruct s as [|c t]; simpl; [reflexivity|]. now intros ->. Qed.

Lemma lstrip_by_head_sat p s : head_sat p (lstrip_by p s) = false.
Proof.
  destruct (lstrip_by p s) as [|c t] eqn:E; [reflexivity|].
  simpl. eapply lstrip_by_head; eauto.
Qed.

Lemma lstrip_by_idem p s : lstrip_by p (lstrip_by p s) = lstrip_by p s.
Proof. apply lstrip_by_id, lstrip_by_head_sat. Qed.

Lemma Forall_rev_iff {A} (P : A -> Prop) l : Forall P (rev l) <-> Forall P l.
Proof.
  rewrite !Forall_forall. split; intros H x Hx; apply H.
  - now apply in_rev in Hx.
  - now apply in_rev.
Qed.

Lemma rstrip_by_split p s :
  exists ws, s = rstrip_by p s ++ ws /\ Forall (fun c => p c = true) ws.
Proof.
  unfold rstrip_by. destruct (lstrip_by_split p (rev s)) as [ws [H1 H2]].
  exists (rev ws). split.
  - rewrite <- List.rev_app_distr, <- H1. now rewrite rev_involutive.
  - now apply Forall_rev_iff.
Qed.

Lemma rstrip_by_last p s : head_sat p (rev (rstrip_by p s)) = false.
Proof. unfold rstrip_by. rewrite rev_involutive. apply lstrip_by_head_sat. Qed.

Lemma rstrip_by_all p s ws :
  Forall (fun c => p c = true) ws -> rstrip_by p (s ++ ws) = rstrip_by p s.
Proof.
  intros H. unfold rstrip_by. rewrite List.rev_app_distr.
  rewrite lstrip_by_all; [reflexivity|]. now apply Forall_rev_iff.
Qed.

Lemma rstrip_by_id p s : head_sat p (rev s) = false -> rstrip_by p s = s.
Proof.
  intros H. unfold rstrip_by. rewrite lstrip_by_id by exact H.
  apply rev_involutive.
Qed.

Lemma rstrip_by_idem p s : rstrip_by p (rstrip_by p s) = rstrip_by p s.
Proof. apply rstrip_by_id, rstrip_by_last. Qed.

Lemma rstrip_by_nil p s :
  rstrip_by p s = [] <-> Forall (fun c => p c = true) s.
Proof.
  unfold rstrip_by. rewrite <- Forall_rev_iff, <- lstrip_by_nil.
  split; intros H.
  - apply (f_equal (@rev ascii)) in H. now rewrite rev_involutive in H.
  - now rewrite H.
Qed.

Lemma rstrip_by_head p q s :
  head_sat q s = false -> head_sat q (rstrip_by p s) = false.
Proof.
  destruct (rstrip_by_split p s) as [ws [H _]].
  destruct (rstrip_by p s) as [|c t]; [reflexivity|].
  rewrite H. simpl. auto.
Qed.

Lemma strip_flanked a g b :
  Forall (fun c => is_space c = true) a ->
  Forall (fun c => is_space c = true) b ->
  strip (a ++ g ++ b) = strip g.
Proof.
  intros Ha Hb. unfold strip. rewrite lstrip_by_all by exact Ha.
  destruct (lstrip_by is_space g) as [|c t] eqn:E.
  - apply lstrip_by_nil in E.
    assert (H : lstrip_by is_space (g ++ b) = []).
    { apply lstrip_by_nil. apply Forall_app. now split. }
    now rewrite H.
  - rewrite lstrip_by_app by (rewrite E; discriminate).
    rewrite E. now apply rstrip_by_all.
Qed.

Lemma strip_idem s : strip (strip s) = strip s.
Proof.
  assert (H : lstrip_by is_space (strip s) = strip s).
  { apply lstrip_by_id. unfold strip. apply rstrip_by_head, lstrip_by_head_sat. }
  change (strip (strip s)) with (rstrip_by is_space (lstrip_by is_space (strip s))).
  rewrite H. unfold strip. apply rstrip_by_idem.
Qed.

Lemma strip_id s :
  head_sat is_space s = false -> head_sat is_space (rev s) = false ->
  strip s = s.
Proof.
  intros H1 H2. unfold strip. rewrite lstrip_by_id by exact H1.
  now apply rstrip_by_id.
Qed.

Lemma Ok_inj {A : Type} (a b : A) : Ok a = Ok b -> a = b.
Proof. congruence. Qed.

(** ** The fetch-side bound of [run_sql] *)

Lemma filter_enumerate_length {A : Type} (m : Z) (l : list A) : forall a,
  length (filter (fun ir : nat * A => (Z.of_nat (fst ir) <? m)%Z)
            (combine (seq a (length l)) l))
  = Nat.min (length l) (Z.to_nat m - a).
Proof.
  induction l as [|x t IH]; intros a; simpl; [reflexivity|].
  destruct (Z.ltb_spec (Z.of_nat a) m) as [Hlt|Hge]; simpl; rewrite IH.
  - replace (Z.to_nat m - a) with (S (Z.to_nat m - S a)) by lia. reflexivity.
  - replace (Z.to_nat m - a) with 0 by lia.
    replace (Z.to_nat m - S a) with 0 by lia. lia.
Qed.

(** C6. Whatever number of rows the statement yields, [run_sql] returns the
    first [max_rows] of them at most: the length of its result is the
    smaller of the two, hence at most the ceiling. *)
Theorem run_sql_row_bound :
  forall (scalar : Type)
         (db_execute : str -> result (list (list (str * scalar))))
         (sql : str) (max_rows : Z) (res : list (list (str * scalar))),
    (0 <= max_rows)%Z ->
    db_execute sql = Ok res ->
    exists rows,
      run_sql scalar db_execute sql max_rows = Ok rows /\
      length rows = Nat.min (length res) (Z.to_nat max_rows) /\
      (Z.of_nat (length rows) <= max_rows)%Z.
Proof.
  intros scalar db sql max_rows res Hpos Hdb.
  unfold run_sql. rewrite Hdb. eexists. split; [reflexivity|].
  rewrite length_map. unfold enumerate. rewrite filter_enumerate_length.
  rewrite Nat.sub_0_r. split; [reflexivity | lia].
Qed.

Lemma run_sql_row_bound_witness :
  exists rows,
    run_sql Z (fun _ => Ok [[(chars "n", 1%Z)]; [(chars "n", 2%Z)];
                            [(chars "n", 3%Z)]])
      (chars "SELECT n FROM public.rawg_games") 2 = Ok rows /\
    length rows = Nat.min 3 (Z.to_nat 2) /\
    (Z.of_nat (length rows) <= 2)%Z.
Proof.
  apply (run_sql_row_bound Z
           (fun _ => Ok [[(chars "n", 1%Z)]; [(chars "n", 2%Z)];
                         [(chars "n", 3%Z)]])
           (chars "SELECT n FROM public.rawg_games") 2
           [[(chars "n", 1%Z)]; [(chars "n", 2%Z)]; [(chars "n", 3%Z)]]).
  - lia.
  - reflexivity.
Defined.

(** ** The series of [ask_visual] *)

Section Series.

Variable scalar : Type.
Variable null : scalar.
Variable astype_str : scalar -> str.
Variable number : Type.
Variable zero : number.
Variable to_numeric : scalar -> option number.
Variable num_leb : number -> number -> bool.

Hypothesis num_leb_total : forall x y, num_leb x y = true \/ num_leb y x = true.
Hypothesis num_leb_trans :
  forall x y z, num_leb x y = true -> num_leb y z = true -> num_leb x z = true.

Local Abbreviation desc := (desc number num_leb).

Lemma in_firstn {A : Type} n (l : list A) x : In x (firstn n l) -> In x l.
Proof.
  intros H. rewrite <- (firstn_skipn n l). apply in_or_app. now left.
Qed.

Lemma insert_desc_perm x l :
  Permutation (insert_desc number num_leb x l) (x :: l).
Proof.
  induction l as [|y l IH]; simpl; [reflexivity|].
  destruct (num_leb (snd y) (snd x)); [reflexivity|].
  rewrite IH. apply perm_swap.
Qed.

Lemma sort_values_desc_perm l :
  Permutation (sort_values_desc number num_leb l) l.
Proof.
  induction l as [|x l IH]; simpl; [reflexivity|].
  rewrite insert_desc_perm. now constructor.
Qed.

Lemma insert_desc_sorted x l :
  StronglySorted desc l -> StronglySorted desc (insert_desc number num_leb x l).
Proof.
  induction 1 as [|y l Hs IH Hy]; simpl.
  - constructor; constructor.
  - destruct (num_leb (snd y) (snd x)) eqn:E.
    + constructor; [now constructor|]. constructor; [exact E|].
      eapply Forall_impl; [|exact Hy]. intros z Hz. unfold desc in *. eauto.
    + constructor; [exact IH|].
      eapply Permutation_Forall; [symmetry; apply insert_desc_perm|].
      constructor; [|exact Hy]. unfold desc.
      destruct (num_leb_total (snd x) (snd y)) as [H|H]; congruence.
Qed.

Lemma sort_values_desc_sorted l :
  StronglySorted desc (sort_values_desc number num_leb l).
Proof.
  induction l as [|x l IH]; simpl; [constructor|].
  now apply insert_desc_sorted.
Qed.

Lemma firstn_sorted {A : Type} (R : A -> A -> Prop) n : forall l,
  StronglySorted R l -> StronglySorted R (firstn n l).
Proof.
  induction n as [|n IH]; intros l H; simpl; [constructor|].
  destruct H as [|x l Hs Hx]; [constructor|].
  constructor; [now apply IH|].
  apply Forall_forall. intros y Hy.
  rewrite Forall_forall in Hx. apply Hx. eapply in_firstn; eauto.
Qed.

Lemma Forall_firstn_of {A : Type} (P : A -> Prop) n (l : list A) :
  Forall P l -> Forall P (firstn n l).
Proof.
  rewrite !Forall_forall. intros H x Hx. apply H. eapply in_firstn; eauto.
Qed.

Lemma combine_map_map {A B C : Type} (f : A -> B) (g : A -> C) l :
  combine (map f l) (map g l) = map (fun x => (f x, g x)) l.
Proof. induction l as [|x l IH]; simpl; [reflexivity|]. now rewrite IH. Qed.

Lemma series_entries i j rows :
  combine
    (map (fun v => firstn 40 (astype_str v))
       (column scalar null (DataFrame_of scalar null rows) i))
    (map (fun v => fillna0 number zero (to_numeric v))
       (column scalar null (DataFrame_of scalar null rows) j))
  = map (entry scalar null astype_str number zero to_numeric i j)
      (records scalar (DataFrame_of scalar null rows)).
Proof.
  unfold column. rewrite !map_map. apply combine_map_map.
Qed.

Lemma pick_columns_total cols :
  2 <= length cols -> exists i j, pick_columns cols = Ok (i, j).
Proof.
  intros H. unfold pick_columns.
  assert (E : Nat.eqb (length (firstn 2 cols)) 2 = true).
  { apply Nat.eqb_eq. rewrite length_firstn. lia. }
  destruct (index_of label_name cols); destruct (index_of value_name cols);
    rewrite ?E; eauto.
Qed.

End Series.

(** ** The matcher *)

Lemma prev_after_app pv u v :
  prev_after pv (u ++ v) = prev_after (prev_after pv u) v.
Proof. unfold prev_after. apply fold_left_app. Qed.

Lemma prev_after_cons pv c u : prev_after pv (c :: u) = prev_after (Some c) u.
Proof. reflexivity. Qed.

Lemma prev_after_last pv u c : prev_after pv (u ++ [c]) = Some c.
Proof. now rewrite prev_after_app. Qed.

Lemma prev_after_nonempty pv pv' u : u <> [] -> prev_after pv u = prev_after pv' u.
Proof.
  destruct u as [|c u]; [congruence|]. intros _. reflexivity.
Qed.

Lemma star_greedy_in p cs st' : forall s pv,
  In st' (star_greedy p pv s cs) <->
  exists u t, s = u ++ t /\ Forall (fun c => p c = true) u /\
              st' = MState (prev_after pv u) t cs.
Proof.
  induction s as [|c s IH]; intros pv; simpl.
  - split.
    + intros [<-|[]]. exists [], []. repeat split. constructor.
    + intros [u [t [H1 [_ H3]]]]. symmetry in H1.
      apply app_eq_nil in H1. destruct H1 as [-> ->]. now left.
  - destruct (p c) eqn:E.
    + rewrite in_app_iff, IH. simpl. split.
      * intros [[u [t [H1 [H2 H3]]]]|[<-|[]]].
        -- exists (c :: u), t. subst. repeat split. now constructor.
        -- exists [], (c :: s). repeat split. constructor.
      * intros [u [t [H1 [H2 H3]]]]. destruct u as [|a u].
        -- right. left. simpl in H1. now subst.
        -- left. simpl in H1. injection H1 as -> ->.
           exists u, t. repeat split; [now inversion H2 | exact H3].
    + simpl. split.
      * intros [<-|[]]. exists [], (c :: s). repeat split. constructor.
      * intros [u [t [H1 [H2 H3]]]]. destruct u as [|a u].
        -- left. simpl in H1. now subst.
        -- simpl in H1. injection H1 as -> ->. inversion H2. congruence.
Qed.

Lemma star_lazy_in p cs st' : forall s pv,
  In st' (star_lazy p pv s cs) <->
  exists u t, s = u ++ t /\ Forall (fun c => p c = true) u /\
              st' = MState (prev_after pv u) t cs.
Proof.
  induction s as [|c s IH]; intros pv; simpl.
  - split.
    + intros [<-|[]]. exists [], []. repeat split. constructor.
    + intros [u [t [H1 [_ H3]]]]. symmetry in H1.
      apply app_eq_nil in H1. destruct H1 as [-> ->]. now left.
  - destruct (p c) eqn:E.
    + rewrite IH. split.
      * intros [<-|[u [t [H1 [H2 H3]]]]].
        -- exists [], (c :: s). repeat split. constructor.
        -- exists (c :: u), t. subst. repeat split. now constructor.
      * intros [u [t [H1 [H2 H3]]]]. destruct u as [|a u].
        -- left. simpl in H1. now subst.
        -- right. simpl in H1. injection H1 as -> ->.
           exists u, t. repeat split; [now inversion H2 | exact H3].
    + split.
      * intros [<-|[]]. exists [], (c :: s). repeat split. constructor.
      * intros [u [t [H1 [H2 H3]]]]. destruct u as [|a u].
        -- left. simpl in H1. now subst.
        -- simpl in H1. injection H1 as -> ->. inversion H2. congruence.
Qed.

(** Whatever a pattern matches is a prefix of the text it was given. *)
Lemma exec_suffix r : forall st st',
  In st' (exec r st) ->
  exists u, rest st = u ++ rest st' /\ prev st' = prev_after (prev st) u.
Proof.
  induction r as [|a|p| | |a IHa b IHb|a IHa b IHb|a IHa|p|p|i a IHa];
    intros st st' H; simpl in H.
  - destruct H as [<-|[]]. now exists [].
  - destruct (rest st) as [|c t] eqn:E; [contradiction|].
    destruct (ci_eq a c); [|contradiction].
    destruct H as [<-|[]]. now exists [c].
  - destruct (rest st) as [|c t] eqn:E; [contradiction|].
    destruct (p c); [|contradiction].
    destruct H as [<-|[]]. now exists [c].
  - destruct (at_boundary (prev st) (rest st)) eqn:E; [|contradiction].
    destruct H as [<-|[]]. exists []. split; reflexivity.
  - destruct (prev st) eqn:E; [contradiction|].
    destruct H as [<-|[]]. exists []. split; [reflexivity | now rewrite E].
  - apply in_flat_map in H. destruct H as [mid [H1 H2]].
    destruct (IHa _ _ H1) as [u [Hu1 Hu2]].
    destruct (IHb _ _ H2) as [v [Hv1 Hv2]].
    exists (u ++ v). rewrite Hu1, Hv1, Hv2, Hu2.
    now rewrite <- app_assoc, prev_after_app.
  - apply in_app_iff in H. destruct H as [H|H]; eauto.
  - apply in_app_iff in H. destruct H as [H|[<-|[]]]; eauto. now exists [].
  - apply star_greedy_in in H. destruct H as [u [t [H1 [_ ->]]]]. now exists u.
  - apply star_lazy_in in H. destruct H as [u [t [H1 [_ ->]]]]. now exists u.
  - apply in_map_iff in H. destruct H as [x [<- Hx]]. simpl. eauto.
Qed.

Lemma consumed_app u t : consumed (u ++ t) t = u.
Proof.
  unfold consumed. rewrite length_app.
  replace (length u + length t - length t) with (length u) by lia.
  rewrite firstn_app, firstn_all, Nat.sub_diag. simpl. apply List.app_nil_r.
Qed.

Lemma strip_prefix_ci_some w : forall s u t,
  strip_prefix_ci w s = Some (u, t) -> s = u ++ t /\ ci_match w u.
Proof.
  induction w as [|a w IH]; intros s u t; simpl.
  - intros H. injection H as <- <-. split; [reflexivity | constructor].
  - destruct s as [|c s]; [discriminate|].
    destruct (ci_eq a c) eqn:E; [|discriminate].
    destruct (strip_prefix_ci w s) as [[u' t']|] eqn:E2; [|discriminate].
    intros H. injection H as <- <-.
    apply IH in E2. destruct E2 as [-> Hm].
    split; [reflexivity | now constructor].
Qed.

Lemma strip_prefix_ci_app w u t :
  ci_match w u -> strip_prefix_ci w (u ++ t) = Some (u, t).
Proof.
  induction 1 as [|a c w u Hc _ IH]; simpl; [reflexivity|].
  now rewrite Hc, IH.
Qed.

Lemma mstate_eta st : MState (prev st) (rest st) (caps st) = st.
Proof. now destruct st. Qed.

Lemma exec_lits w : forall st,
  exec (lits w) st =
  match strip_prefix_ci w (rest st) with
  | Some (u, t) => [MState (prev_after (prev st) u) t (caps st)]
  | None => []
  end.
Proof.
  induction w as [|a w IH]; intros st; simpl.
  - now rewrite mstate_eta.
  - destruct (rest st) as [|c t]; [reflexivity|].
    destruct (ci_eq a c); [|reflexivity].
    simpl. rewrite IH, List.app_nil_r. simpl.
    destruct (strip_prefix_ci w t) as [[u t']|]; reflexivity.
Qed.

Lemma exec_alts ws st :
  exec (alts ws) st = flat_map (fun w => exec (word w) st) ws.
Proof.
  induction ws as [|w ws IH]; simpl.
  - destruct (rest st); reflexivity.
  - destruct ws as [|w' ws'].
    + simpl. now rewrite List.app_nil_r.
    + change (exec (Alt (word w) (alts (w' :: ws'))) st)
        with (exec (word w) st ++ exec (alts (w' :: ws')) st).
      now rewrite IH.
Qed.

(** [re.search] succeeds exactly when the pattern matches at some position. *)
Lemma search_from_found r : forall s pv,
  found (search_from r pv s) = true <->
  exists u t, s = u ++ t /\ found (match_at r (prev_after pv u) t) = true.
Proof.
  induction s as [|c s IH]; intros pv; simpl.
  - destruct (match_at r pv []) eqn:E; simpl.
    + split; [|reflexivity]. intros _. exists [], []. simpl. now rewrite E.
    + split; [discriminate|]. intros [u [t [H1 H2]]]. symmetry in H1.
      apply app_eq_nil in H1. destruct H1 as [-> ->]. simpl in H2.
      now rewrite E in H2.
  - destruct (match_at r pv (c :: s)) eqn:E; simpl.
    + split; [|reflexivity]. intros _. exists [], (c :: s). simpl. now rewrite E.
    + rewrite IH. split.
      * intros [u [t [H1 H2]]]. exists (c :: u), t. subst. now split.
      * intros [u [t [H1 H2]]]. destruct u as [|a u].
        -- simpl in H1, H2. subst t. now rewrite E in H2.
        -- simpl in H1. injection H1 as -> ->. exists u, t. now split.
Qed.

(** What [re.search] returns is the match at the first position that has
    one. *)
Lemma search_from_first r m : forall s pv,
  search_from r pv s = Some m ->
  exists u t, s = u ++ t /\ match_at r (prev_after pv u) t = Some m /\
    forall u1 u2, u = u1 ++ u2 -> u2 <> [] ->
                  match_at r (prev_after pv u1) (u2 ++ t) = None.
Proof.
  induction s as [|c s IH]; intros pv; simpl.
  - destruct (match_at r pv []) eqn:E; [|discriminate].
    intros H. injection H as ->. exists [], []. repeat split; auto.
    intros u1 u2 H. symmetry in H. apply app_eq_nil in H.
    destruct H as [_ ->]. congruence.
  - destruct (match_at r pv (c :: s)) eqn:E.
    + intros H. injection H as ->. exists [], (c :: s). repeat split; auto.
      intros u1 u2 H. symmetry in H. apply app_eq_nil in H.
      destruct H as [_ ->]. congruence.
    + intros H. apply IH in H. destruct H as [u [t [-> [H2 H3]]]].
      exists (c :: u), t. repeat split; auto.
      intros u1 u2 H Hne. destruct u1 as [|a u1].
      * simpl in H. subst u2. simpl. exact E.
      * simpl in H. injection H as <- ->. simpl. now apply H3.
Qed.

Lemma search_from_none r : forall s pv,
  search_from r pv s = None ->
  forall u t, s = u ++ t -> match_at r (prev_after pv u) t = None.
Proof.
  intros s pv H u t Hs.
  destruct (match_at r (prev_after pv u) t) eqn:E; [|reflexivity].
  assert (F : found (search_from r pv s) = true).
  { apply search_from_found. exists u, t. split; [exact Hs|]. now rewrite E. }
  now rewrite H in F.
Qed.

Lemma match_at_found r pv s :
  found (match_at r pv s) = true <-> exec r (MState pv s []) <> [].
Proof.
  unfold match_at. destruct (exec r (MState pv s [])); simpl.
  - split; [discriminate | congruence].
  - split; [discriminate | reflexivity].
Qed.

(** ** Whole-word patterns *)

Lemma flat_map_flat_map {A B C : Type} (f : A -> list B) (g : B -> list C) l :
  flat_map g (flat_map f l) = flat_map (fun x => flat_map g (f x)) l.
Proof.
  induction l as [|x l IH]; simpl; [reflexivity|].
  now rewrite flat_map_app, IH.
Qed.

Lemma exec_seq_assoc a b c st :
  exec (Seq a (Seq b c)) st = exec (Seq (Seq a b) c) st.
Proof. simpl. now rewrite flat_map_flat_map. Qed.

Lemma ci_match_word w u :
  ci_match w u -> forallb is_word w = true -> forallb is_word u = true.
Proof.
  induction 1 as [|a c w u Hc _ IH]; simpl; [reflexivity|].
  intros H. apply andb_true_iff in H. destruct H as [H1 H2].
  rewrite (ci_eq_word _ _ Hc), H1. now apply IH.
Qed.

Lemma ci_match_nonempty w u : ci_match w u -> w <> [] -> u <> [].
Proof. destruct 1; congruence. Qed.

Lemma all_word_last u : forall pv,
  u <> [] -> forallb is_word u = true -> word_before (prev_after pv u) = true.
Proof.
  induction u as [|c u IH]; intros pv Hne H; [congruence|].
  simpl in H. apply andb_true_iff in H. destruct H as [H1 H2].
  destruct u as [|d u]; [exact H1|].
  rewrite prev_after_cons. apply IH; [discriminate | exact H2].
Qed.

Lemma all_word_head u t :
  u <> [] -> forallb is_word u = true -> word_after (u ++ t) = true.
Proof.
  destruct u as [|c u]; [congruence|]. simpl. intros _ H.
  apply andb_true_iff in H. tauto.
Qed.

Lemma wordy_chars w :
  wordy w = true -> chars w <> [] /\ forallb is_word (chars w) = true.
Proof.
  unfold wordy. destruct (chars w) as [|c l]; [discriminate|].
  intros H. split; [discriminate | exact H].
Qed.

Lemma exec_group_alts ws st st' :
  In st' (exec (Group 1 (alts ws)) st) <->
  exists w u t, In w ws /\ rest st = u ++ t /\ ci_match (chars w) u /\
    st' = MState (prev_after (prev st) u) t ((1, u) :: caps st).
Proof.
  simpl. rewrite in_map_iff. split.
  - intros [x [<- Hx]]. rewrite exec_alts in Hx.
    apply in_flat_map in Hx. destruct Hx as [w [Hw Hx]].
    unfold word in Hx. rewrite exec_lits in Hx.
    destruct (strip_prefix_ci (chars w) (rest st)) as [[u t]|] eqn:E;
      [|contradiction].
    destruct Hx as [<-|[]]. apply strip_prefix_ci_some in E.
    destruct E as [E Hm]. exists w, u, t. simpl. rewrite E.
    repeat split; auto. now rewrite consumed_app.
  - intros [w [u [t [Hw [Hr [Hm ->]]]]]].
    exists (MState (prev_after (prev st) u) t (caps st)). simpl.
    rewrite Hr, consumed_app. split; [reflexivity|].
    rewrite exec_alts. apply in_flat_map. exists w. split; [exact Hw|].
    unfold word. rewrite exec_lits, Hr, (strip_prefix_ci_app _ _ _ Hm).
    now left.
Qed.

Lemma token_in ws st st' :
  forallb wordy ws = true ->
  (In st' (exec (token_re ws) st) <->
   word_before (prev st) = false /\
   exists w u post, In w ws /\ rest st = u ++ post /\
     ci_match (chars w) u /\ word_after post = false /\
     st' = MState (prev_after (prev st) u) post ((1, u) :: caps st)).
Proof.
  intros Hws. unfold token_re.
  change (exec (Seq WordB (Seq (Group 1 (alts ws)) WordB)) st)
    with (flat_map (fun x => flat_map (exec WordB) (exec (Group 1 (alts ws)) x))
            (exec WordB st)).
  rewrite in_flat_map. split.
  - intros [x [Hx H]]. simpl in Hx.
    destruct (at_boundary (prev st) (rest st)) eqn:Eb; [|contradiction].
    destruct Hx as [<-|[]].
    apply in_flat_map in H. destruct H as [y [Hy H]].
    apply exec_group_alts in Hy.
    destruct Hy as [w [u [post [Hw [Hr [Hm ->]]]]]].
    simpl in H.
    destruct (at_boundary (prev_after (prev st) u) post) eqn:Eb2;
      [|contradiction].
    destruct H as [<-|[]].
    rewrite forallb_forall in Hws.
    pose proof (Hws _ Hw) as Hwc. apply wordy_chars in Hwc.
    destruct Hwc as [Hne Hall].
    pose proof (ci_match_nonempty _ _ Hm Hne) as Hune.
    pose proof (ci_match_word _ _ Hm Hall) as Huw.
    unfold at_boundary in Eb, Eb2.
    rewrite Hr, (all_word_head u post Hune Huw) in Eb.
    rewrite (all_word_last u (prev st) Hune Huw) in Eb2.
    split.
    + destruct (word_before (prev st)); [discriminate | reflexivity].
    + exists w, u, post. repeat split; auto.
      destruct (word_after post); [discriminate | reflexivity].
  - intros [Hb [w [u [post [Hw [Hr [Hm [Ha ->]]]]]]]].
    rewrite forallb_forall in Hws.
    pose proof (Hws _ Hw) as Hwc. apply wordy_chars in Hwc.
    destruct Hwc as [Hne Hall].
    pose proof (ci_match_nonempty _ _ Hm Hne) as Hune.
    pose proof (ci_match_word _ _ Hm Hall) as Huw.
    exists st. split.
    + simpl. unfold at_boundary.
      rewrite Hr, (all_word_head u post Hune Huw), Hb. now left.
    + apply in_flat_map.
      exists (MState (prev_after (prev st) u) post ((1, u) :: caps st)).
      split.
      * apply exec_group_alts. exists w, u, post. auto.
      * simpl. unfold at_boundary.
        rewrite (all_word_last u (prev st) Hune Huw), Ha. now left.
Qed.

Lemma nonempty_in {A : Type} (l : list A) : l <> [] <-> exists x, In x l.
Proof.
  destruct l as [|x l]; split.
  - congruence.
  - intros [x []].
  - intros _. exists x. now left.
  - discriminate.
Qed.

(** A whole-word pattern is found by [re.search] exactly when one of its
    words stands alone somewhere in the text. *)
Lemma search_token ws s :
  forallb wordy ws = true ->
  (found (re_search (token_re ws) s) = true <-> standalone ws s).
Proof.
  intros Hws. unfold re_search. rewrite search_from_found. split.
  - intros [pre [post [Hs H]]]. apply match_at_found, nonempty_in in H.
    destruct H as [st' H]. apply (token_in _ _ _ Hws) in H. simpl in H.
    destruct H as [Hb [w [u [t [Hw [Hr [Hm [Ha _]]]]]]]].
    exists pre, post. split; [exact Hs|]. exists w, u, t. auto.
  - intros [pre [post [Hs [w [u [t [Hw [Hr [Hm [Hb Ha]]]]]]]]]].
    exists pre, post. split; [exact Hs|].
    apply match_at_found, nonempty_in. eexists.
    apply (token_in _ _ _ Hws). simpl. split; [exact Hb|].
    exists w, u, t. repeat split; eauto.
Qed.

(** ** Substrings *)

Lemma starts_with_spec w : forall s,
  starts_with w s = true <-> exists post, s = w ++ post.
Proof.
  induction w as [|a w IH]; intros s; simpl.
  - split; [intros _; now exists s | reflexivity].
  - destruct s as [|c s].
    + split; [discriminate | intros [post H]; discriminate].
    + rewrite andb_true_iff, Ascii.eqb_eq, IH. split.
      * intros [-> [post ->]]. now exists post.
      * intros [post H]. injection H as -> ->. split; [reflexivity|].
        now exists post.
Qed.

Lemma contains_spec w : forall s,
  contains w s = true <-> exists pre post, s = pre ++ w ++ post.
Proof.
  induction s as [|c s IH]; simpl; rewrite orb_true_iff, starts_with_spec.
  - split.
    + intros [[post H]|H]; [|discriminate]. now exists [], post.
    + intros [pre [post H]]. left. destruct pre as [|a pre]; [|discriminate].
      now exists post.
  - rewrite IH. split.
    + intros [[post H]|[pre [post H]]].
      * now exists [], post.
      * exists (c :: pre), post. simpl. now rewrite H.
    + intros [pre [post H]]. destruct pre as [|a pre].
      * left. now exists post.
      * right. injection H as -> ->. now exists pre, post.
Qed.

Lemma contains_false_app w a s b :
  contains w (a ++ s ++ b) = false -> contains w s = false.
Proof.
  intros H. destruct (contains w s) eqn:E; [|reflexivity].
  apply contains_spec in E. destruct E as [pre [post ->]].
  assert (F : contains w (a ++ (pre ++ w ++ post) ++ b) = true).
  { apply contains_spec. exists (a ++ pre), (post ++ b).
    now rewrite <- !app_assoc. }
  congruence.
Qed.

(** ** [sanitize_sql]: the first check *)

Lemma sanitize_multiple parse_one sql :
  sanitize_sql parse_one sql = Raise MultipleStatements <->
  contains (chars ";") (rstrip_semi (strip sql)) = true.
Proof.
  unfold sanitize_sql.
  destruct (contains (chars ";") (rstrip_semi (strip sql))).
  - split; reflexivity.
  - repeat match goal with
           | |- context [if ?b then _ else _] => destruct b
           end; split; discriminate.
Qed.

Lemma rstrip_semi_split t :
  exists n, t = rstrip_semi t ++ repeat ";"%char n.
Proof.
  destruct (rstrip_by_split (Ascii.eqb ";"%char) t) as [ws [H1 H2]].
  exists (length ws). rewrite H1 at 1. f_equal.
  clear H1. induction H2 as [|c ws Hc _ IH]; simpl; [reflexivity|].
  apply Ascii.eqb_eq in Hc. now rewrite <- Hc, <- IH.
Qed.

Lemma rstrip_semi_last t : last_char (rstrip_semi t) <> Some ";"%char.
Proof.
  pose proof (rstrip_by_last (Ascii.eqb ";"%char) t) as H.
  fold (rstrip_semi t) in H. intros E.
  destruct (rstrip_semi t) as [|c u] using rev_ind; [discriminate|].
  unfold last_char in E. rewrite prev_after_last in E. injection E as ->.
  rewrite rev_unit in H. simpl in H. discriminate.
Qed.

(** A terminator survives the trimming of trailing terminators exactly
    when some other character follows it. *)
Lemma contains_semi_rstrip t :
  contains (chars ";") (rstrip_semi t) = true <->
  exists pre post c, t = pre ++ ";"%char :: post /\ In c post /\ c <> ";"%char.
Proof.
  rewrite contains_spec. split.
  - intros [pre [post H]]. simpl in H.
    destruct (rstrip_semi_split t) as [n Hn].
    pose proof (rstrip_semi_last t) as Hl. rewrite H in Hl, Hn.
    destruct post as [|c post] using rev_ind.
    + exfalso. apply Hl. unfold last_char. now rewrite prev_after_last.
    + clear IHpost. exists pre, ((post ++ [c]) ++ repeat ";"%char n), c.
      repeat split.
      * rewrite Hn. now rewrite <- app_assoc.
      * apply in_or_app. left. apply in_or_app. right. now left.
      * intros ->. apply Hl. unfold last_char.
        change (pre ++ ";"%char :: post ++ [";"%char])
          with (pre ++ (";"%char :: post) ++ [";"%char]).
        now rewrite app_assoc, prev_after_last.
  - intros [pre [post [c [Ht [Hc Hne]]]]].
    destruct (rstrip_semi_split t) as [n Hn].
    apply in_split in Hc. destruct Hc as [p1 [p2 ->]].
    assert (E : (pre ++ ";"%char :: p1) ++ c :: p2
                = rstrip_semi t ++ repeat ";"%char n).
    { rewrite <- Hn, Ht. now rewrite <- app_assoc. }
    apply app_eq_app in E. destruct E as [l [[E1 E2]|[E1 E2]]].
    + exfalso. assert (Hin : In c (repeat ";"%char n)).
      { rewrite E2. apply in_or_app. right. now left. }
      apply repeat_spec in Hin. congruence.
    + exists pre, (p1 ++ l). simpl. rewrite E1. now rewrite <- app_assoc.
Qed.

(** C1 (as the code has it). [sanitize_sql] raises "Multiple statements"
    exactly when, once the surrounding whitespace is trimmed, some
    terminator is followed by a character that is not a terminator: the
    whole run of terminators at the end is dropped before the check. *)
Theorem sanitize_multiple_statements :
  forall (parse_one : str -> bool) (sql : str),
    sanitize_sql parse_one sql = Raise MultipleStatements <->
    exists pre post c,
      strip sql = pre ++ ";"%char :: post /\ In c post /\ c <> ";"%char.
Proof.
  intros parse_one sql. rewrite sanitize_multiple. apply contains_semi_rstrip.
Qed.

(** C1, refuted as stated: a candidate with two terminators, both at the
    end, passes every textual check. *)
Lemma two_trailing_terminators_accepted :
  count_occ ascii_dec (chars "SELECT 1 FROM public.rawg_games;;") ";"%char = 2
  /\ sanitize_sql (fun _ => true) (chars "SELECT 1 FROM public.rawg_games;;")
     = Ok (chars "SELECT 1 FROM public.rawg_games").
Proof. split; vm_compute; reflexivity. Qed.

(** ** Trimming does not touch what lies inside *)

Lemma word_not_trim c : is_word c = true -> trim_char c = false.
Proof. by_chars c. Qed.

Lemma trim_decompose sql :
  exists a b, sql = a ++ rstrip_semi (strip sql) ++ b /\
    Forall (fun c => trim_char c = true) a /\
    Forall (fun c => trim_char c = true) b.
Proof.
  destruct (lstrip_by_split is_space sql) as [a [Ha1 Ha2]].
  destruct (rstrip_by_split is_space (lstrip_by is_space sql)) as [b1 [Hb1 Hb2]].
  fold (strip sql) in Hb1.
  destruct (rstrip_by_split (Ascii.eqb ";"%char) (strip sql)) as [b2 [Hc1 Hc2]].
  fold (rstrip_semi (strip sql)) in Hc1.
  exists a, (b2 ++ b1). split; [|split].
  - rewrite Ha1 at 1. rewrite Hb1 at 1. rewrite Hc1 at 1.
    now rewrite <- !app_assoc.
  - eapply Forall_impl; [|exact Ha2]. intros c Hc. unfold trim_char.
    now rewrite Hc.
  - apply Forall_app. split.
    + eapply Forall_impl; [|exact Hc2]. intros c Hc. unfold trim_char.
      rewrite Hc. apply orb_true_r.
    + eapply Forall_impl; [|exact Hb2]. intros c Hc. unfold trim_char.
      now rewrite Hc.
Qed.

Lemma core_inside a s b pre m post :
  Forall (fun c => trim_char c = true) a ->
  Forall (fun c => trim_char c = true) b ->
  m <> [] ->
  head_sat trim_char m = false ->
  head_sat trim_char (rev m) = false ->
  pre ++ m ++ post = a ++ s ++ b ->
  exists pre' post', pre = a ++ pre' /\ post = post' ++ b /\
                     s = pre' ++ m ++ post'.
Proof.
  intros Ha Hb Hne Hh Hl E.
  assert (E1 : exists pre', pre = a ++ pre' /\ pre' ++ m ++ post = s ++ b).
  { apply app_eq_app in E. destruct E as [l [[E1 E2]|[E1 E2]]].
    - exists l. split; [exact E1 | now symmetry].
    - destruct l as [|c l].
      + exists []. rewrite List.app_nil_r in E1. simpl in *. split.
        * now rewrite List.app_nil_r.
        * exact E2.
      + exfalso. destruct m as [|c' m]; [congruence|].
        simpl in E2. injection E2 as -> _. simpl in Hh.
        rewrite Forall_forall in Ha.
        assert (Hin : In c a) by (rewrite E1; apply in_or_app; right; now left).
        apply Ha in Hin. congruence. }
  destruct E1 as [pre' [-> E1]].
  exists pre'. rewrite app_assoc in E1.
  apply app_eq_app in E1. destruct E1 as [l [[E1 E2]|[E1 E2]]].
  - destruct l as [|c l] using rev_ind.
    + exists []. rewrite List.app_nil_r in E1. simpl in E2.
      repeat split; auto. rewrite List.app_nil_r. now symmetry.
    + exfalso. clear IHl.
      assert (Hin : In c b).
      { rewrite E2. apply in_or_app. left. apply in_or_app. right. now left. }
      rewrite Forall_forall in Hb. apply Hb in Hin.
      apply (f_equal (@rev ascii)) in E1.
      rewrite app_assoc, !List.rev_app_distr in E1. simpl in E1.
      destruct (rev m) as [|c' rm] eqn:Em.
      * apply (f_equal (@rev ascii)) in Em. rewrite rev_involutive in Em.
        simpl in Em. congruence.
      * simpl in E1. injection E1 as -> _. simpl in Hl. congruence.
  - exists l. repeat split; auto. rewrite E1. now rewrite <- app_assoc.
Qed.

Lemma before_trimmed a pre :
  Forall (fun c => trim_char c = true) a ->
  word_before (last_char (a ++ pre)) = word_before (last_char pre).
Proof.
  intros Ha. destruct pre as [|c pre].
  - rewrite List.app_nil_r. simpl. unfold last_char.
    destruct a as [|c a] using rev_ind; [reflexivity|].
    rewrite prev_after_last. simpl.
    apply Forall_app in Ha. destruct Ha as [_ Ha]. inversion Ha; subst.
    destruct (is_word c) eqn:E; [|reflexivity].
    apply word_not_trim in E. congruence.
  - unfold last_char. rewrite prev_after_app. reflexivity.
Qed.

Lemma after_trimmed post b :
  Forall (fun c => trim_char c = true) b ->
  word_after (post ++ b) = word_after post.
Proof.
  intros Hb. destruct post as [|c post]; [|reflexivity]. simpl.
  destruct b as [|c b]; [reflexivity|]. simpl.
  inversion Hb; subst. destruct (is_word c) eqn:E; [|reflexivity].
  apply word_not_trim in E. congruence.
Qed.

Lemma all_word_not_trim u :
  u <> [] -> forallb is_word u = true ->
  head_sat trim_char u = false /\ head_sat trim_char (rev u) = false.
Proof.
  intros Hne H. rewrite forallb_forall in H. split.
  - destruct u as [|c u]; [congruence|]. simpl.
    apply word_not_trim, H. now left.
  - destruct u as [|c u] using rev_ind; [congruence|].
    rewrite rev_unit. simpl. apply word_not_trim, H, in_or_app. right. now left.
Qed.

Lemma standalone_trimmed ws sql :
  forallb wordy ws = true ->
  (standalone ws sql <-> standalone ws (rstrip_semi (strip sql))).
Proof.
  intros Hws. destruct (trim_decompose sql) as [a [b [Hsql [Ha Hb]]]].
  set (s := rstrip_semi (strip sql)) in *. rewrite forallb_forall in Hws.
  split.
  - intros [pre [post [Hs [w [u [post1 [Hw [Hp [Hm [Hbef Haft]]]]]]]]]].
    pose proof (Hws _ Hw) as Hwc. apply wordy_chars in Hwc.
    destruct Hwc as [Hne Hall].
    pose proof (ci_match_nonempty _ _ Hm Hne) as Hune.
    pose proof (ci_match_word _ _ Hm Hall) as Huw.
    destruct (all_word_not_trim u Hune Huw) as [Hh Hl].
    assert (E : pre ++ u ++ post1 = a ++ s ++ b) by (rewrite <- Hp; congruence).
    destruct (core_inside _ _ _ _ _ _ Ha Hb Hune Hh Hl E)
      as [pre' [post' [-> [-> Hs']]]].
    exists pre', (u ++ post'). split; [exact Hs'|].
    exists w, u, post'. repeat split; auto.
    + now rewrite before_trimmed in Hbef.
    + now rewrite after_trimmed in Haft.
  - intros [pre [post [Hs [w [u [post1 [Hw [Hp [Hm [Hbef Haft]]]]]]]]]].
    exists (a ++ pre), (post ++ b). split.
    + rewrite Hsql, Hs. now rewrite <- !app_assoc.
    + exists w, u, (post1 ++ b). repeat split; auto.
      * rewrite Hp. now rewrite <- app_assoc.
      * now rewrite before_trimmed.
      * now rewrite after_trimmed.
Qed.

(** ** [sanitize_sql]: forbidden keywords *)

(** ** [sanitize_sql]: forbidden keywords *)

Lemma sanitize_forbidden parse_one sql :
  sanitize_sql parse_one sql = Raise ForbiddenKeyword <->
  contains (chars ";") (rstrip_semi (strip sql)) = false /\
  (contains (chars "--") (rstrip_semi (strip sql))
   || contains (chars "/*") (rstrip_semi (strip sql))
   || contains (chars "*/") (rstrip_semi (strip sql)))%bool = false /\
  found (re_search FORBIDDEN (rstrip_semi (strip sql))) = true.
Proof.
  unfold sanitize_sql.
  destruct (contains (chars ";") (rstrip_semi (strip sql)));
    [split; [discriminate | intros [H _]; discriminate]|].
  destruct (contains (chars "--") (rstrip_semi (strip sql))
            || contains (chars "/*") (rstrip_semi (strip sql))
            || contains (chars "*/") (rstrip_semi (strip sql)))%bool;
    [split; [discriminate | intros [_ [H _]]; discriminate]|].
  destruct (found (re_search FORBIDDEN (rstrip_semi (strip sql)))).
  - split; auto.
  - repeat match goal with
           | |- context [if ?b then _ else _] => destruct b
           end; (split; [discriminate | intros [_ [_ H]]; discriminate]).
Qed.

Lemma forbidden_search sql :
  found (re_search FORBIDDEN (rstrip_semi (strip sql))) = true <->
  standalone FORBIDDEN_WORDS sql.
Proof.
  change FORBIDDEN with (token_re FORBIDDEN_WORDS).
  rewrite search_token by reflexivity.
  symmetry. now apply standalone_trimmed.
Qed.

(** C2 (as the code has it). [sanitize_sql] raises "Forbidden SQL" exactly
    when a forbidden keyword stands in the candidate as a whole word, in any
    case of letters, and the two earlier checks let the candidate through
    (no terminator left after trimming, no comment marker).  Hence a
    keyword that occurs only inside longer words never causes this
    rejection, and a candidate with a whole-word keyword is always rejected,
    by this check or by one of the two that run before it. *)
Theorem forbidden_keyword_whole_word :
  forall (parse_one : str -> bool) (sql : str),
    (sanitize_sql parse_one sql = Raise ForbiddenKeyword <->
     standalone FORBIDDEN_WORDS sql /\
     contains (chars ";") (rstrip_semi (strip sql)) = false /\
     contains (chars "--") (rstrip_semi (strip sql)) = false /\
     contains (chars "/*") (rstrip_semi (strip sql)) = false /\
     contains (chars "*/") (rstrip_semi (strip sql)) = false) /\
    (~ standalone FORBIDDEN_WORDS sql ->
     sanitize_sql parse_one sql <> Raise ForbiddenKeyword) /\
    (standalone FORBIDDEN_WORDS sql ->
     sanitize_sql parse_one sql = Raise MultipleStatements \/
     sanitize_sql parse_one sql = Raise CommentsPresent \/
     sanitize_sql parse_one sql = Raise ForbiddenKeyword).
Proof.
  intros parse_one sql.
  assert (Hiff : sanitize_sql parse_one sql = Raise ForbiddenKeyword <->
     standalone FORBIDDEN_WORDS sql /\
     contains (chars ";") (rstrip_semi (strip sql)) = false /\
     contains (chars "--") (rstrip_semi (strip sql)) = false /\
     contains (chars "/*") (rstrip_semi (strip sql)) = false /\
     contains (chars "*/") (rstrip_semi (strip sql)) = false).
  { rewrite sanitize_forbidden, forbidden_search, !orb_false_iff. tauto. }
  split; [exact Hiff|]. split.
  - intros Hn E. apply Hiff in E. tauto.
  - intros H. apply forbidden_search in H.
    unfold sanitize_sql.
    destruct (contains (chars ";") (rstrip_semi (strip sql))); [now left|].
    destruct (contains (chars "--") (rstrip_semi (strip sql))
              || contains (chars "/*") (rstrip_semi (strip sql))
              || contains (chars "*/") (rstrip_semi (strip sql)))%bool;
      [right; now left|].
    rewrite H. right. now right.
Qed.

(** C2, refuted as stated: a whole-word keyword in a candidate that also
    holds an inner terminator is reported as "Multiple statements". *)
Lemma forbidden_keyword_masked_by_terminator :
  standalone FORBIDDEN_WORDS (chars "DROP TABLE x; SELECT 1") /\
  sanitize_sql (fun _ => true) (chars "DROP TABLE x; SELECT 1")
  = Raise MultipleStatements.
Proof.
  split; [|vm_compute; reflexivity].
  exists [], (chars "DROP TABLE x; SELECT 1"). split; [reflexivity|].
  exists "DROP"%string, (chars "DROP"), (chars " TABLE x; SELECT 1").
  repeat split.
  - simpl. tauto.
  - repeat constructor.
Qed.

(** ** [sanitize_sql]: the table check *)

Lemma exec_wordb_in st st' :
  In st' (exec WordB st) <-> at_boundary (prev st) (rest st) = true /\ st' = st.
Proof.
  simpl. destruct (at_boundary (prev st) (rest st)); simpl.
  - split; [intros [<-|[]]; auto | intros [_ ->]; now left].
  - split; [contradiction | intros [H _]; discriminate].
Qed.

Lemma exec_lits_in w st st' :
  In st' (exec (lits w) st) <->
  exists u t, rest st = u ++ t /\ ci_match w u /\
              st' = MState (prev_after (prev st) u) t (caps st).
Proof.
  rewrite exec_lits. split.
  - destruct (strip_prefix_ci w (rest st)) as [[u t]|] eqn:E; [|contradiction].
    intros [<-|[]]. apply strip_prefix_ci_some in E. destruct E as [E Hm].
    exists u, t. auto.
  - intros [u [t [Hr [Hm ->]]]].
    rewrite Hr, (strip_prefix_ci_app _ _ _ Hm). now left.
Qed.

Lemma exec_plus_in p st st' :
  In st' (exec (Plus p) st) <->
  exists u t, rest st = u ++ t /\ u <> [] /\ Forall (fun c => p c = true) u /\
              st' = MState (prev_after (prev st) u) t (caps st).
Proof.
  unfold Plus.
  change (exec (Seq (Cls p) (Star p)) st)
    with (flat_map (exec (Star p)) (exec (Cls p) st)).
  rewrite in_flat_map. split.
  - intros [mid [H1 H2]]. simpl in H1.
    destruct (rest st) as [|c t] eqn:E; [contradiction|].
    destruct (p c) eqn:Ep; [|contradiction].
    destruct H1 as [<-|[]]. simpl in H2.
    apply star_greedy_in in H2. destruct H2 as [u [t' [-> [Hu ->]]]].
    exists (c :: u), t'. repeat split; [discriminate | now constructor].
  - intros [u [t [Hr [Hne [Hu ->]]]]]. destruct u as [|c u]; [congruence|].
    inversion Hu; subst.
    exists (MState (Some c) (u ++ t) (caps st)). split.
    + simpl. rewrite Hr. simpl. rewrite H1. now left.
    + simpl. apply star_greedy_in. exists u, t. auto.
Qed.

Lemma ci_match_last w u : forall pv pv',
  ci_match w u -> word_before pv = word_before pv' ->
  word_before (prev_after pv u) = word_before (prev_after pv' w).
Proof.
  intros pv pv' H. revert pv pv'.
  induction H as [|a c w u Hc _ IH]; intros pv pv' Hp; [exact Hp|].
  rewrite !prev_after_cons. apply IH. simpl. now apply ci_eq_word.
Qed.

Lemma ci_match_head w u t t' :
  ci_match w u -> w <> [] -> word_after (u ++ t) = word_after (w ++ t').
Proof.
  destruct 1 as [|a c w u Hc _]; [congruence|]. intros _. simpl.
  now apply ci_eq_word.
Qed.

Lemma table_word_head w kw t :
  In w TABLE_WORDS -> ci_match (chars w) kw -> word_after (kw ++ t) = true.
Proof.
  intros Hw Hm.
  assert (Hwc : wordy w = true).
  { assert (H : forallb wordy TABLE_WORDS = true) by reflexivity.
    rewrite forallb_forall in H. now apply H. }
  apply wordy_chars in Hwc. destruct Hwc as [Hne Hall].
  apply all_word_head.
  - eapply ci_match_nonempty; eauto.
  - eapply ci_match_word; eauto.
Qed.

Lemma allowed_last u pv :
  ci_match (chars ALLOWED_TABLE) u -> word_before (prev_after pv u) = true.
Proof.
  intros Hm.
  assert (Hne : u <> []).
  { eapply ci_match_nonempty; [exact Hm | discriminate]. }
  rewrite (prev_after_nonempty pv None u Hne).
  now rewrite (ci_match_last _ _ None None Hm eq_refl).
Qed.

Lemma exec_seq_in a b st st' :
  In st' (exec (Seq a b) st) <->
  exists mid, In mid (exec a st) /\ In st' (exec b mid).
Proof. simpl. apply in_flat_map. Qed.

Lemma table_re_found pv s :
  exec TABLE_RE (MState pv s []) <> [] <->
  word_before pv = false /\
  exists kw ws u post,
    s = kw ++ ws ++ u ++ post /\
    (exists w, In w TABLE_WORDS /\ ci_match (chars w) kw) /\
    ws <> [] /\ Forall (fun c => is_space c = true) ws /\
    ci_match (chars ALLOWED_TABLE) u /\
    word_after post = false.
Proof.
  rewrite nonempty_in. unfold TABLE_RE. split.
  - intros [st' H].
    apply exec_seq_in in H. destruct H as [m1 [H1 H]].
    apply exec_wordb_in in H1. destruct H1 as [Hb ->].
    apply exec_seq_in in H. destruct H as [m2 [H2 H]].
    apply exec_group_alts in H2.
    destruct H2 as [w [kw [t [Hw [Hr [Hm ->]]]]]].
    apply exec_seq_in in H. destruct H as [m3 [H3 H]].
    apply exec_plus_in in H3. destruct H3 as [ws [t2 [Hr2 [Hne [Hws ->]]]]].
    apply exec_seq_in in H. destruct H as [m4 [H4 H]].
    apply exec_lits_in in H4. destruct H4 as [u [post [Hr3 [Hmu ->]]]].
    apply exec_wordb_in in H. destruct H as [Hb2 _].
    simpl in *. subst s t t2. unfold at_boundary in Hb, Hb2.
    rewrite (table_word_head _ _ _ Hw Hm) in Hb.
    rewrite (allowed_last _ _ Hmu) in Hb2.
    split; [destruct (word_before pv); [discriminate | reflexivity]|].
    exists kw, ws, u, post. repeat split; eauto.
    destruct (word_after post); [discriminate | reflexivity].
  - intros [Hb [kw [ws [u [post [-> [[w [Hw Hm]] [Hne [Hws [Hmu Ha]]]]]]]]]].
    eexists.
    apply exec_seq_in. eexists. split.
    { apply exec_wordb_in. split; [|reflexivity]. simpl. unfold at_boundary.
      now rewrite (table_word_head _ _ _ Hw Hm), Hb. }
    apply exec_seq_in. eexists. split.
    { apply exec_group_alts. exists w, kw, (ws ++ u ++ post). eauto. }
    apply exec_seq_in. eexists. split.
    { apply exec_plus_in. exists ws, (u ++ post). simpl. eauto. }
    apply exec_seq_in. eexists. split.
    { apply exec_lits_in. exists u, post. simpl. eauto. }
    apply exec_wordb_in. split; [|reflexivity]. simpl. unfold at_boundary.
    now rewrite (allowed_last _ _ Hmu), Ha.
Qed.

Lemma table_search s :
  found (re_search TABLE_RE s) = true <-> allowed_ref s.
Proof.
  unfold re_search. rewrite search_from_found. split.
  - intros [pre [t [Hs H]]]. apply match_at_found, table_re_found in H.
    destruct H as [Hb [kw [ws [u [post [Ht H]]]]]].
    exists pre, kw, ws, u, post. subst. tauto.
  - intros [pre [kw [ws [u [post [Hs [Hk [Hb [Hne [Hws [Hm Ha]]]]]]]]]]].
    exists pre, (kw ++ ws ++ u ++ post). split; [exact Hs|].
    apply match_at_found, table_re_found. split; [exact Hb|].
    exists kw, ws, u, post. tauto.
Qed.

Lemma allowed_ref_trimmed sql :
  allowed_ref sql <-> allowed_ref (rstrip_semi (strip sql)).
Proof.
  destruct (trim_decompose sql) as [a [b [Hsql [Ha Hb]]]].
  set (s := rstrip_semi (strip sql)) in *.
  split.
  - intros [pre [kw [ws [u [post [Hs [[w [Hw Hk]] [Hbef [Hne [Hws [Hm Haft]]]]]]]]]]].
    assert (Hh : head_sat trim_char (kw ++ ws ++ u) = false).
    { pose proof (table_word_head _ _ (ws ++ u) Hw Hk) as H.
      destruct (kw ++ ws ++ u) as [|c l]; [reflexivity|]. simpl in *.
      now apply word_not_trim. }
    assert (Hl : head_sat trim_char (rev (kw ++ ws ++ u)) = false).
    { pose proof (allowed_last u None Hm) as H.
      assert (Hune : u <> []).
      { eapply ci_match_nonempty; [exact Hm | discriminate]. }
      destruct u as [|c u] using rev_ind; [congruence|].
      rewrite prev_after_last in H. simpl in H.
      rewrite !app_assoc, rev_unit. simpl. now apply word_not_trim. }
    assert (Hmne : kw ++ ws ++ u <> []).
    { intros E. apply app_eq_nil in E. destruct E as [_ E].
      apply app_eq_nil in E. destruct E as [E _]. congruence. }
    assert (E : pre ++ (kw ++ ws ++ u) ++ post = a ++ s ++ b).
    { rewrite <- Hsql, Hs. now rewrite <- !app_assoc. }
    destruct (core_inside _ _ _ _ _ _ Ha Hb Hmne Hh Hl E)
      as [pre' [post' [-> [-> Hs']]]].
    exists pre', kw, ws, u, post'. repeat split; eauto.
    + rewrite Hs'. now rewrite <- !app_assoc.
    + now rewrite before_trimmed in Hbef.
    + now rewrite after_trimmed in Haft.
  - intros [pre [kw [ws [u [post [Hs [Hk [Hbef [Hne [Hws [Hm Haft]]]]]]]]]]].
    exists (a ++ pre), kw, ws, u, (post ++ b). repeat split; auto.
    + rewrite Hsql, Hs. now rewrite <- !app_assoc.
    + now rewrite before_trimmed.
    + now rewrite after_trimmed.
Qed.

Lemma read_match s :
  found (re_match READ_RE s) = true <-> token_at READ_WORDS [] s.
Proof.
  unfold re_match. rewrite match_at_found, nonempty_in. unfold READ_RE. split.
  - intros [st' H].
    apply exec_seq_in in H. destruct H as [m1 [H1 H]].
    simpl in H1. destruct H1 as [<-|[]].
    apply exec_seq_in in H. destruct H as [m2 [H2 H]].
    apply exec_group_alts in H2.
    destruct H2 as [w [u [post [Hw [Hr [Hm ->]]]]]].
    apply exec_wordb_in in H. destruct H as [Hb _]. simpl in *.
    assert (Hwc : wordy w = true).
    { assert (F : forallb wordy READ_WORDS = true) by reflexivity.
      rewrite forallb_forall in F. now apply F. }
    apply wordy_chars in Hwc. destruct Hwc as [Hne Hall].
    unfold at_boundary in Hb.
    rewrite (all_word_last u None (ci_match_nonempty _ _ Hm Hne)
               (ci_match_word _ _ Hm Hall)) in Hb.
    exists w, u, post. repeat split; auto.
    destruct (word_after post); [discriminate | reflexivity].
  - intros [w [u [post [Hw [Hr [Hm [_ Ha]]]]]]].
    assert (Hwc : wordy w = true).
    { assert (F : forallb wordy READ_WORDS = true) by reflexivity.
      rewrite forallb_forall in F. now apply F. }
    apply wordy_chars in Hwc. destruct Hwc as [Hne Hall].
    eexists. apply exec_seq_in. eexists. split; [simpl; now left|].
    apply exec_seq_in. eexists. split.
    { apply exec_group_alts. exists w, u, post. simpl. eauto. }
    apply exec_wordb_in. split; [|reflexivity]. simpl. unfold at_boundary.
    now rewrite (all_word_last u None (ci_match_nonempty _ _ Hm Hne)
                   (ci_match_word _ _ Hm Hall)), Ha.
Qed.

Lemma catalog_search sql :
  found (re_search CATALOG_FORBIDDEN (rstrip_semi (strip sql))) = true <->
  standalone CATALOG_WORDS sql.
Proof.
  change CATALOG_FORBIDDEN with (token_re CATALOG_WORDS).
  rewrite search_token by reflexivity.
  symmetry. now apply standalone_trimmed.
Qed.

Lemma iff_false (b : bool) (P : Prop) : (b = true <-> P) -> (b = false <-> ~ P).
Proof. destruct b; intuition congruence. Qed.

Lemma sanitize_wrong_table parse_one sql :
  sanitize_sql parse_one sql = Raise WrongTable <->
  contains (chars ";") (rstrip_semi (strip sql)) = false /\
  (contains (chars "--") (rstrip_semi (strip sql))
   || contains (chars "/*") (rstrip_semi (strip sql))
   || contains (chars "*/") (rstrip_semi (strip sql)))%bool = false /\
  found (re_search FORBIDDEN (rstrip_semi (strip sql))) = false /\
  found (re_search CATALOG_FORBIDDEN (rstrip_semi (strip sql))) = false /\
  found (re_match READ_RE (rstrip_semi (strip sql))) = true /\
  found (re_search TABLE_RE (rstrip_semi (strip sql))) = false.
Proof.
  unfold sanitize_sql.
  destruct (contains (chars ";") (rstrip_semi (strip sql)));
    [intuition discriminate|].
  destruct (contains (chars "--") (rstrip_semi (strip sql))
            || contains (chars "/*") (rstrip_semi (strip sql))
            || contains (chars "*/") (rstrip_semi (strip sql)))%bool;
    [intuition discriminate|].
  destruct (found (re_search FORBIDDEN (rstrip_semi (strip sql))));
    [intuition discriminate|].
  destruct (found (re_search CATALOG_FORBIDDEN (rstrip_semi (strip sql))));
    [intuition discriminate|].
  destruct (found (re_match READ_RE (rstrip_semi (strip sql))));
    [|simpl; intuition discriminate].
  destruct (found (re_search TABLE_RE (rstrip_semi (strip sql))));
    simpl; [|intuition discriminate].
  destruct (parse_one (rstrip_semi (strip sql))); intuition discriminate.
Qed.

Lemma sanitize_without_table parse_one sql :
  found (re_search TABLE_RE (rstrip_semi (strip sql))) = false ->
  exists e, sanitize_sql parse_one sql = Raise e /\ e <> SyntaxInvalid.
Proof.
  intros H. unfold sanitize_sql. rewrite H. cbn [negb].
  repeat match goal with
         | |- context [if ?b then _ else _] => destruct b
         end; simpl; eexists; (split; [reflexivity | discriminate]).
Qed.

(** C3 (as the code has it). [sanitize_sql] raises "Must query
    public.rawg_games" exactly when the candidate passes the five checks
    that run before and nowhere holds [FROM] or [JOIN], whitespace and the
    allowed table's qualified name as a whole word.  A candidate without
    such a reference is always rejected, by this check or an earlier one; a
    candidate with one is never rejected by this check, whichever other
    tables it names. *)
Theorem wrong_table_check :
  forall (parse_one : str -> bool) (sql : str),
    (sanitize_sql parse_one sql = Raise WrongTable <->
     contains (chars ";") (rstrip_semi (strip sql)) = false /\
     contains (chars "--") (rstrip_semi (strip sql)) = false /\
     contains (chars "/*") (rstrip_semi (strip sql)) = false /\
     contains (chars "*/") (rstrip_semi (strip sql)) = false /\
     ~ standalone FORBIDDEN_WORDS sql /\
     ~ standalone CATALOG_WORDS sql /\
     token_at READ_WORDS [] (rstrip_semi (strip sql)) /\
     ~ allowed_ref sql) /\
    (~ allowed_ref sql ->
     exists e, sanitize_sql parse_one sql = Raise e /\ e <> SyntaxInvalid) /\
    (allowed_ref sql -> sanitize_sql parse_one sql <> Raise WrongTable).
Proof.
  intros parse_one sql.
  assert (Ht : found (re_search TABLE_RE (rstrip_semi (strip sql))) = false
               <-> ~ allowed_ref sql).
  { apply iff_false. rewrite table_search. symmetry. apply allowed_ref_trimmed. }
  assert (Hmain :
    sanitize_sql parse_one sql = Raise WrongTable <->
     contains (chars ";") (rstrip_semi (strip sql)) = false /\
     contains (chars "--") (rstrip_semi (strip sql)) = false /\
     contains (chars "/*") (rstrip_semi (strip sql)) = false /\
     contains (chars "*/") (rstrip_semi (strip sql)) = false /\
     ~ standalone FORBIDDEN_WORDS sql /\
     ~ standalone CATALOG_WORDS sql /\
     token_at READ_WORDS [] (rstrip_semi (strip sql)) /\
     ~ allowed_ref sql).
  { rewrite sanitize_wrong_table, !orb_false_iff.
    rewrite (iff_false _ _ (forbidden_search sql)).
    rewrite (iff_false _ _ (catalog_search sql)).
    rewrite read_match, Ht. tauto. }
  split; [exact Hmain|]. split.
  - intros H. apply Ht in H. now apply sanitize_without_table.
  - intros H E. apply Hmain in E. tauto.
Qed.

(** C3, refuted as stated: a candidate that joins another table to the
    allowed one passes every textual check. *)
Lemma joined_table_accepted :
  references_other_table
    (chars "SELECT g.name FROM public.rawg_games g JOIN public.users u ON g.id = u.id")
  /\ sanitize_sql (fun _ => true)
       (chars "SELECT g.name FROM public.rawg_games g JOIN public.users u ON g.id = u.id")
     = Ok (chars "SELECT g.name FROM public.rawg_games g JOIN public.users u ON g.id = u.id").
Proof.
  split; [|vm_compute; reflexivity].
  exists (chars "public.users"). split.
  - exists (chars "SELECT g.name FROM public.rawg_games g "), (chars "JOIN"),
      (chars " "), (chars " u ON g.id = u.id").
    repeat split; try discriminate.
    + exists "JOIN"%string. split; [simpl; tauto | repeat constructor].
    + repeat constructor.
  - intros H. apply Forall2_length in H. discriminate H.
Qed.

(** ** [extract_first_select]: the statement and its terminators *)

Lemma extract_unfold txt :
  extract_first_select txt =
  match re_search SELECT_RE (statement_text txt) with
  | None => Raise NoStatementFound
  | Some m2 => Ok (rstrip_semi (strip (m_text m2)))
  end.
Proof. reflexivity. Qed.

Lemma select_re_exec st :
  exec SELECT_RE st =
  flat_map (exec (Star any_char)) (exec (token_re READ_WORDS) st).
Proof.
  unfold SELECT_RE, token_re.
  change (exec (Seq WordB (Seq (Group 1 (alts READ_WORDS))
                             (Seq WordB (Star any_char)))) st)
    with (flat_map
            (fun x => flat_map
                        (fun y => flat_map (exec (Star any_char)) (exec WordB y))
                        (exec (Group 1 (alts READ_WORDS)) x))
            (exec WordB st)).
  change (exec (Seq WordB (Seq (Group 1 (alts READ_WORDS)) WordB)) st)
    with (flat_map
            (fun x => flat_map (exec WordB) (exec (Group 1 (alts READ_WORDS)) x))
            (exec WordB st)).
  rewrite flat_map_flat_map. apply flat_map_ext. intros x.
  now rewrite flat_map_flat_map.
Qed.

Lemma star_greedy_any_head cs : forall s pv,
  exists tl, star_greedy any_char pv s cs = MState (prev_after pv s) [] cs :: tl.
Proof.
  induction s as [|c s IH]; intros pv; simpl.
  - now exists [].
  - destruct (IH (Some c)) as [tl ->]. eexists. reflexivity.
Qed.

Lemma consumed_all s : consumed s [] = s.
Proof.
  unfold consumed. simpl. rewrite Nat.sub_0_r. apply firstn_all.
Qed.

(** At a given position [SELECT_RE] matches when a read keyword stands
    there as a whole word, and then it matches up to the end of the text. *)
Lemma select_match pv s :
  match match_at SELECT_RE pv s with
  | Some m => m_text m = s /\ exec (token_re READ_WORDS) (MState pv s []) <> []
  | None => exec (token_re READ_WORDS) (MState pv s []) = []
  end.
Proof.
  unfold match_at. rewrite select_re_exec.
  destruct (exec (token_re READ_WORDS) (MState pv s [])) as [|x l];
    [reflexivity|].
  simpl. destruct (star_greedy_any_head (caps x) (rest x) (prev x)) as [tl ->].
  simpl. split; [apply consumed_all | discriminate].
Qed.

Lemma token_at_exec ws pre body :
  forallb wordy ws = true ->
  (token_at ws pre body <->
   exec (token_re ws) (MState (last_char pre) body []) <> []).
Proof.
  intros Hws. rewrite nonempty_in. split.
  - intros [w [u [post [Hw [Hb [Hm [Hbef Haft]]]]]]].
    eexists. apply (token_in _ _ _ Hws). simpl. split; [exact Hbef|].
    exists w, u, post. repeat split; eauto.
  - intros [st' H]. apply (token_in _ _ _ Hws) in H. simpl in H.
    destruct H as [Hbef [w [u [post [Hw [Hb [Hm [Haft _]]]]]]]].
    exists w, u, post. auto.
Qed.

Lemma select_search_found s :
  found (re_search SELECT_RE s) = true <-> standalone READ_WORDS s.
Proof.
  unfold re_search. rewrite search_from_found. split.
  - intros [pre [body [Hs H]]]. exists pre, body. split; [exact Hs|].
    apply token_at_exec; [reflexivity|].
    pose proof (select_match (prev_after None pre) body) as Hm.
    destruct (match_at SELECT_RE (prev_after None pre) body);
      [tauto | discriminate].
  - intros [pre [body [Hs H]]]. exists pre, body. split; [exact Hs|].
    apply token_at_exec in H; [|reflexivity].
    pose proof (select_match (prev_after None pre) body) as Hm.
    destruct (match_at SELECT_RE (prev_after None pre) body);
      [reflexivity | contradiction].
Qed.

(** C8 (as the code has it). When a [SELECT] or [WITH] token is found, the
    candidate is the text from the first such token to the end, with the
    surrounding whitespace trimmed and then every trailing terminator
    removed: the trimmed text is the candidate followed by terminators
    only, and the candidate does not end with a terminator. *)
Theorem extract_strips_all_terminators :
  forall txt : str,
    standalone READ_WORDS (statement_text txt) ->
    exists pre body c,
      statement_text txt = pre ++ body /\
      token_at READ_WORDS pre body /\
      (forall p1 p2, pre = p1 ++ p2 -> p2 <> [] ->
                     ~ token_at READ_WORDS p1 (p2 ++ body)) /\
      extract_first_select txt = Ok c /\
      c = rstrip_semi (strip body) /\
      (exists n, strip body = c ++ repeat ";"%char n) /\
      last_char c <> Some ";"%char.
Proof.
  intros txt H. apply select_search_found in H.
  rewrite extract_unfold.
  destruct (re_search SELECT_RE (statement_text txt)) as [m|] eqn:E;
    [|discriminate].
  unfold re_search in E. apply search_from_first in E.
  destruct E as [pre [body [Hs [Hm Hfirst]]]].
  pose proof (select_match (prev_after None pre) body) as Hsel.
  rewrite Hm in Hsel. destruct Hsel as [Htext Htok].
  exists pre, body, (rstrip_semi (strip body)). repeat split.
  - exact Hs.
  - apply token_at_exec; [reflexivity | exact Htok].
  - intros p1 p2 Hp Hne Ht. apply token_at_exec in Ht; [|reflexivity].
    pose proof (select_match (prev_after None p1) (p2 ++ body)) as Hsel.
    rewrite (Hfirst p1 p2 Hp Hne) in Hsel. contradiction.
  - now rewrite Htext.
  - apply rstrip_semi_split.
  - apply rstrip_semi_last.
Qed.

Lemma extract_strips_all_terminators_witness :
  exists pre body c,
    statement_text (chars "Here: select 1;; ") = pre ++ body /\
    token_at READ_WORDS pre body /\
    (forall p1 p2, pre = p1 ++ p2 -> p2 <> [] ->
                   ~ token_at READ_WORDS p1 (p2 ++ body)) /\
    extract_first_select (chars "Here: select 1;; ") = Ok c /\
    c = rstrip_semi (strip body) /\
    (exists n, strip body = c ++ repeat ";"%char n) /\
    last_char c <> Some ";"%char.
Proof.
  apply (extract_strips_all_terminators (chars "Here: select 1;; ")).
  exists (chars "Here: "), (chars "select 1;;"). split.
  - vm_compute. reflexivity.
  - exists "SELECT"%string, (chars "select"), (chars " 1;;").
    repeat split.
    + simpl. tauto.
    + repeat constructor.
Defined.

(** C8, refuted as stated: both trailing terminators are removed, and
    whitespace standing before a terminator is kept. *)
Lemma extract_drops_every_terminator :
  extract_first_select (chars "SELECT 1;;") = Ok (chars "SELECT 1") /\
  extract_first_select (chars "SELECT 1;;") <> Ok (chars "SELECT 1;") /\
  extract_first_select (chars "SELECT 1 ;") = Ok (chars "SELECT 1 ").
Proof.
  split; [vm_compute; reflexivity|].
  split; [vm_compute; discriminate | vm_compute; reflexivity].
Qed.

(** ** [extract_first_select]: fenced blocks *)

Lemma ci_match_fence f : ci_match FENCE f -> f = FENCE.
Proof.
  assert (Hb : forall c, ci_eq "`"%char c = true -> c = "`"%char).
  { intros c. by_chars c. }
  unfold FENCE, ci_match. simpl. intros H.
  repeat match goal with
         | H : Forall2 _ (_ :: _) _ |- _ => inversion H; subst; clear H
         | H : Forall2 _ [] _ |- _ => inversion H; subst; clear H
         | H : ci_eq "`"%char _ = true |- _ => apply Hb in H; subst
         end.
  reflexivity.
Qed.

(** A fenced block can only be found in a text that holds a fence. *)
Lemma fence_search_contains t :
  found (re_search FENCE_RE t) = true -> contains FENCE t = true.
Proof.
  unfold re_search. rewrite search_from_found.
  intros [pre [post [Hs H]]]. apply match_at_found, nonempty_in in H.
  destruct H as [st' H]. unfold FENCE_RE in H.
  apply exec_seq_in in H. destruct H as [m1 [H1 _]].
  apply exec_lits_in in H1. destruct H1 as [f [t1 [Hr [Hm _]]]].
  apply ci_match_fence in Hm. subst f. simpl in Hr.
  apply contains_spec. exists pre, t1. now rewrite Hs, Hr.
Qed.

Lemma contains_strip w s : contains w s = false -> contains w (strip s) = false.
Proof.
  intros H.
  destruct (lstrip_by_split is_space s) as [a [Ha _]].
  destruct (rstrip_by_split is_space (lstrip_by is_space s)) as [b [Hb _]].
  fold (strip s) in Hb. rewrite Ha, Hb in H.
  rewrite <- (List.app_nil_r (strip s)).
  change (strip s ++ []) with ([] ++ strip s ++ []).
  destruct (contains w ([] ++ strip s ++ [])) eqn:E; [|reflexivity].
  apply contains_spec in E. destruct E as [pre [post E]].
  simpl in E. rewrite List.app_nil_r in E.
  assert (F : contains w (a ++ strip s ++ b) = true).
  { apply contains_spec. exists (a ++ pre), (post ++ b). rewrite E.
    now rewrite <- !app_assoc. }
  congruence.
Qed.

Lemma statement_text_plain s :
  contains FENCE s = false -> statement_text s = strip s.
Proof.
  intros H. unfold statement_text.
  destruct (re_search FENCE_RE (strip s)) as [m|] eqn:E; [|reflexivity].
  assert (F : found (re_search FENCE_RE (strip s)) = true) by now rewrite E.
  apply fence_search_contains in F. apply contains_strip in H. congruence.
Qed.

Lemma fence_unique s p t4 :
  contains FENCE s = false ->
  "010"%char :: s ++ "010"%char :: FENCE = p ++ FENCE ++ t4 ->
  t4 = [] /\ p = "010"%char :: s ++ ["010"%char].
Proof.
  intros Hs E.
  change ("010"%char :: s ++ "010"%char :: FENCE)
    with (("010"%char :: s) ++ ("010"%char :: FENCE)) in E.
  symmetry in E. apply app_eq_app in E.
  destruct E as [l [[E1 E2]|[E1 E2]]].
  - unfold FENCE in E2. simpl in E2.
    destruct l as [|c [|d l]]; simpl in E2.
    + discriminate.
    + injection E2 as <- <-. split; [reflexivity|].
      rewrite E1. simpl. reflexivity.
    + exfalso. apply (f_equal (@length ascii)) in E2. simpl in E2.
      rewrite length_app in E2. simpl in E2. lia.
  - exfalso. unfold FENCE in E2. simpl in E2.
    destruct l as [|a [|b [|c l]]]; simpl in E2; try discriminate.
    injection E2 as <- <- <- E2.
    destruct p as [|x p]; simpl in E1; [discriminate|].
    injection E1 as _ E1.
    assert (F : contains FENCE s = true).
    { apply contains_spec. exists p, l. exact E1. }
    congruence.
Qed.

Lemma fence_tail_members pv s st' :
  contains FENCE s = false ->
  In st' (exec FENCE_TAIL
            (MState pv ("010"%char :: s ++ "010"%char :: FENCE) [])) ->
  exists g, caps st' = [(1, g)] /\ strip g = strip s.
Proof.
  intros Hs H. unfold FENCE_TAIL in H.
  apply exec_seq_in in H. destruct H as [m1 [H1 H]].
  cbn [exec prev rest caps] in H1. apply star_greedy_in in H1.
  destruct H1 as [a [t1 [E1 [Ha ->]]]].
  apply exec_seq_in in H. destruct H as [m2 [H2 H]].
  cbn [exec prev rest caps] in H2. apply in_map_iff in H2. destruct H2 as [x [<- Hx]].
  apply star_lazy_in in Hx. destruct Hx as [g [t2 [E2 [_ ->]]]].
  cbn [prev rest caps] in H. subst t1. rewrite consumed_app in H.
  apply exec_seq_in in H. destruct H as [m3 [H3 H]].
  cbn [exec prev rest caps] in H3. apply star_greedy_in in H3.
  destruct H3 as [b [t3 [E3 [Hb ->]]]].
  apply exec_lits_in in H. destruct H as [f [t4 [E4 [Hf ->]]]].
  simpl in E4. apply ci_match_fence in Hf. subst f t3 t2.
  exists g. split; [reflexivity|].
  assert (E : "010"%char :: s ++ "010"%char :: FENCE
              = (a ++ g ++ b) ++ FENCE ++ t4).
  { rewrite E1. now rewrite <- !app_assoc. }
  apply fence_unique in E; [|exact Hs]. destruct E as [_ E].
  rewrite <- (strip_flanked a g b Ha Hb), E.
  change ("010"%char :: s ++ ["010"%char])
    with (["010"%char] ++ s ++ ["010"%char]).
  apply strip_flanked; repeat constructor.
Qed.

Lemma fence_tail_nonempty pv s :
  exec FENCE_TAIL (MState pv ("010"%char :: s ++ "010"%char :: FENCE) [])
  <> [].
Proof.
  apply nonempty_in. eexists. unfold FENCE_TAIL.
  apply exec_seq_in. eexists. split.
  { cbn [exec prev rest caps]. apply star_greedy_in.
    exists ["010"%char], (s ++ "010"%char :: FENCE).
    split; [reflexivity|]. split; [repeat constructor | reflexivity]. }
  apply exec_seq_in. eexists. split.
  { cbn [exec prev rest caps]. apply in_map_iff. eexists. split; [reflexivity|].
    apply star_lazy_in. exists s, ("010"%char :: FENCE).
    split; [reflexivity|]. split; [|reflexivity].
    apply Forall_forall. reflexivity. }
  apply exec_seq_in. eexists. split.
  { cbn [exec prev rest caps]. apply star_greedy_in. exists ["010"%char], FENCE.
    split; [reflexivity|]. split; [repeat constructor | reflexivity]. }
  apply exec_lits_in. exists FENCE, []. simpl.
  split; [reflexivity|]. split; [repeat constructor | reflexivity].
Qed.

Lemma head_of_all {A : Type} (P : A -> Prop) (l : list A) :
  (forall x, In x l -> P x) -> l <> [] -> exists x tl, l = x :: tl /\ P x.
Proof.
  destruct l as [|x tl]; [congruence|]. intros H _.
  exists x, tl. split; [reflexivity | apply H; now left].
Qed.

Lemma fence_match tag s :
  tag = [] \/ ci_match (chars "sql") tag ->
  contains FENCE s = false ->
  exists m, match_at FENCE_RE None (fenced tag s) = Some m /\
            strip (m_group 1 m) = strip s.
Proof.
  intros Htag Hs. unfold match_at.
  set (body := "010"%char :: s ++ "010"%char :: FENCE).
  assert (Hex : exists pv l,
             exec FENCE_RE (MState None (fenced tag s) [])
             = exec FENCE_TAIL (MState pv body []) ++ l).
  { change FENCE_RE
      with (Seq (lits FENCE) (Seq (Opt (word "sql")) FENCE_TAIL)).
    change (exec (Seq (lits FENCE) (Seq (Opt (word "sql")) FENCE_TAIL))
              (MState None (fenced tag s) []))
      with (flat_map
              (fun x => flat_map (exec FENCE_TAIL)
                          (exec (word "sql") x ++ [x]))
              (exec (lits FENCE) (MState None (fenced tag s) []))).
    rewrite exec_lits. unfold fenced. cbn [rest prev caps].
    rewrite (strip_prefix_ci_app FENCE FENCE); [|repeat constructor].
    cbn [flat_map]. rewrite List.app_nil_r.
    unfold word. rewrite exec_lits. cbn [rest prev caps].
    destruct Htag as [->|Hm].
    - cbn [app].
      assert (En : strip_prefix_ci (chars "sql")
                     ("010"%char :: s ++ "010"%char :: FENCE) = None)
        by reflexivity.
      rewrite En. cbn [app flat_map]. eexists. eexists. reflexivity.
    - change (tag ++ ["010"%char] ++ s ++ ["010"%char] ++ FENCE)
        with (tag ++ body).
      rewrite (strip_prefix_ci_app _ _ _ Hm). cbn [flat_map app].
      rewrite List.app_nil_r. eexists. eexists. reflexivity. }
  destruct Hex as [pv [l ->]].
  destruct (head_of_all
              (fun st' => exists g, caps st' = [(1, g)] /\ strip g = strip s)
              (exec FENCE_TAIL (MState pv body []))
              (fun x Hx => fence_tail_members pv s x Hs Hx)
              (fence_tail_nonempty pv s))
    as [x [tl [-> [g [Hc Hg]]]]].
  simpl. eexists. split; [reflexivity|].
  unfold m_group. simpl. rewrite Hc. simpl. exact Hg.
Qed.

Lemma search_from_head r pv s m :
  match_at r pv s = Some m -> search_from r pv s = Some m.
Proof. destruct s; simpl; now intros ->. Qed.

Lemma strip_fenced tag s : strip (fenced tag s) = fenced tag s.
Proof.
  apply strip_id.
  - reflexivity.
  - unfold fenced. rewrite !app_assoc, List.rev_app_distr. reflexivity.
Qed.

Lemma statement_text_fenced tag s :
  tag = [] \/ ci_match (chars "sql") tag ->
  contains FENCE s = false ->
  statement_text (fenced tag s) = strip s.
Proof.
  intros Htag Hs. unfold statement_text. rewrite strip_fenced.
  destruct (fence_match tag s Htag Hs) as [m [Hm Hg]].
  unfold re_search.
  assert (E : search_from FENCE_RE None (fenced tag s) = Some m).
  { now apply search_from_head. }
  now rewrite E, Hg.
Qed.

(** C7 (as the code has it). A statement that holds no run of three
    backticks is extracted identically whether it comes bare or wrapped in
    a fenced block, the opening fence bare or tagged with the dialect's
    name; either both extractions fail or both give the same candidate. *)
Theorem extract_fenced_same :
  forall tag s : str,
    tag = [] \/ ci_match (chars "sql") tag ->
    contains FENCE s = false ->
    extract_first_select (fenced tag s) = extract_first_select s.
Proof.
  intros tag s Htag Hs. rewrite !extract_unfold.
  rewrite (statement_text_fenced tag s Htag Hs).
  now rewrite (statement_text_plain s Hs).
Qed.

Lemma extract_fenced_same_witness :
  extract_first_select
    (fenced (chars "sql")
       (chars "SELECT COUNT(*) FROM public.rawg_games WHERE released = 2020;"))
  = extract_first_select
      (chars "SELECT COUNT(*) FROM public.rawg_games WHERE released = 2020;").
Proof.
  apply (extract_fenced_same (chars "sql")
           (chars "SELECT COUNT(*) FROM public.rawg_games WHERE released = 2020;")).
  - right. repeat constructor.
  - vm_compute. reflexivity.
Defined.

(** C7, refuted as stated: a statement holding three backticks in a string
    literal is cut at them once it is wrapped. *)
Lemma extract_fenced_differs :
  extract_first_select
    (fenced (chars "sql") (chars "SELECT '```' FROM public.rawg_games"))
  = Ok (chars "SELECT '") /\
  extract_first_select (chars "SELECT '```' FROM public.rawg_games")
  = Ok (chars "SELECT '```' FROM public.rawg_games").
Proof. split; vm_compute; reflexivity. Qed.

(** ** Decimal numerals *)

Lemma uint_chars_digits d :
  Forall (fun c => is_digit c = true) (chars (NilEmpty.string_of_uint d)).
Proof. induction d; simpl; constructor; auto. Qed.

Lemma uint_chars_revapp d : forall d',
  chars (NilEmpty.string_of_uint (Decimal.revapp d d'))
  = rev (chars (NilEmpty.string_of_uint d))
    ++ chars (NilEmpty.string_of_uint d').
Proof.
  induction d; intros d'; simpl; [reflexivity| ..];
    rewrite IHd; simpl; now rewrite <- app_assoc.
Qed.

Lemma int_of_digits_snoc a c :
  int_of_digits (a ++ [c]) = (int_of_digits a * 10 + digit_value c)%Z.
Proof. unfold int_of_digits. now rewrite fold_left_app. Qed.

Lemma int_of_digits_le e :
  int_of_digits (rev (chars (NilEmpty.string_of_uint e)))
  = Z.of_N (DecimalPos.Unsigned.of_lu e).
Proof.
  induction e; [reflexivity| ..];
    cbn [NilEmpty.string_of_uint chars list_ascii_of_string rev
         DecimalPos.Unsigned.of_lu];
    fold (chars (NilEmpty.string_of_uint e));
    rewrite int_of_digits_snoc, IHe;
    match goal with
    | |- context [digit_value ?c] =>
        let v := eval vm_compute in (digit_value c) in
        change (digit_value c) with v
    end; lia.
Qed.

Lemma int_of_uint_chars d :
  int_of_digits (chars (NilEmpty.string_of_uint d)) = Z.of_uint d.
Proof.
  unfold Z.of_uint. rewrite DecimalPos.Unsigned.of_uint_alt.
  rewrite <- int_of_digits_le. f_equal.
  unfold Decimal.rev. rewrite uint_chars_revapp. simpl.
  now rewrite List.app_nil_r, rev_involutive.
Qed.

Lemma to_int_nonneg n :
  (0 <= n)%Z -> exists d, Z.to_int n = Decimal.Pos d /\ d <> Decimal.Nil.
Proof.
  destruct n as [|p|p]; intros H; simpl.
  - eexists. split; [reflexivity | discriminate].
  - eexists. split; [reflexivity | apply DecimalPos.Unsigned.to_uint_nonnil].
  - lia.
Qed.

(** [str] of a non-negative [int] is a non-empty run of digits that [int]
    reads back. *)
Lemma str_of_int_digits n :
  (0 <= n)%Z ->
  str_of_int n <> [] /\
  Forall (fun c => is_digit c = true) (str_of_int n) /\
  int_of_digits (str_of_int n) = n.
Proof.
  intros H. destruct (to_int_nonneg n H) as [d [Hd Hne]].
  unfold str_of_int. rewrite Hd. simpl. split; [|split].
  - destruct d; simpl; congruence.
  - apply uint_chars_digits.
  - rewrite int_of_uint_chars.
    change (Z.of_uint d) with (Z.of_int (Decimal.Pos d)).
    rewrite <- Hd. apply DecimalZ.of_to.
Qed.

(** ** Greedy runs *)

Lemma span_spec p s :
  s = fst (span p s) ++ snd (span p s) /\
  Forall (fun c => p c = true) (fst (span p s)) /\
  head_sat p (snd (span p s)) = false.
Proof.
  induction s as [|c s IH]; simpl.
  - repeat split. constructor.
  - destruct (p c) eqn:E; simpl.
    + destruct IH as [H1 [H2 H3]]. repeat split; auto.
      now rewrite <- H1.
    + repeat split; auto.
Qed.

Lemma span_intro p u r :
  Forall (fun c => p c = true) u -> head_sat p r = false ->
  span p (u ++ r) = (u, r).
Proof.
  intros Hu Hr. induction Hu as [|c u Hc _ IH]; simpl.
  - destruct r as [|c r]; [reflexivity|]. simpl in *. now rewrite Hr.
  - now rewrite Hc, IH.
Qed.

Lemma flat_map_map {A B C : Type} (g : A -> B) (f : B -> list C) l :
  flat_map f (map g l) = flat_map (fun x => f (g x)) l.
Proof. induction l as [|x l IH]; simpl; [reflexivity|]. now rewrite IH. Qed.

(** When what follows a greedy run fails wherever the run could go on,
    only the longest run counts. *)
Lemma star_greedy_longest {A : Type} p (k : mstate -> list A) cs : forall s pv,
  (forall st, In st (star_greedy p pv s cs) ->
              head_sat p (rest st) = true -> k st = []) ->
  flat_map k (star_greedy p pv s cs)
  = k (MState (prev_after pv (fst (span p s))) (snd (span p s)) cs).
Proof.
  induction s as [|c s IH]; intros pv Hk; simpl.
  - apply List.app_nil_r.
  - destruct (p c) eqn:E; simpl.
    + rewrite flat_map_app. simpl.
      rewrite (Hk (MState pv (c :: s) cs)).
      * rewrite !List.app_nil_r. apply IH.
        intros st Hst. apply Hk. simpl. rewrite E.
        apply in_or_app. now left.
      * simpl. rewrite E. apply in_or_app. right. now left.
      * simpl. exact E.
    + apply List.app_nil_r.
Qed.

Lemma plus_greedy_longest {A : Type} p (k : mstate -> list A) pv s cs :
  (forall st, In st (exec (Plus p) (MState pv s cs)) ->
              head_sat p (rest st) = true -> k st = []) ->
  flat_map k (exec (Plus p) (MState pv s cs))
  = match fst (span p s) with
    | [] => []
    | _ :: _ =>
        k (MState (prev_after pv (fst (span p s))) (snd (span p s)) cs)
    end.
Proof.
  intros Hk.
  assert (Hex : exec (Plus p) (MState pv s cs)
                = match s with
                  | c :: t => if p c then star_greedy p (Some c) t cs else []
                  | [] => []
                  end).
  { unfold Plus. simpl. destruct s as [|c t]; [reflexivity|].
    destruct (p c); simpl; [apply List.app_nil_r | reflexivity]. }
  rewrite Hex in *. destruct s as [|c t]; [reflexivity|]. simpl.
  destruct (p c) eqn:E; [|reflexivity]. simpl.
  now apply star_greedy_longest.
Qed.

(** ** The limit patterns at one position *)

Lemma digits_all_word u :
  Forall (fun c => is_digit c = true) u -> forallb is_word u = true.
Proof.
  induction 1 as [|c u Hc _ IH]; simpl; [reflexivity|].
  now rewrite (digit_is_word c Hc), IH.
Qed.

Lemma span_head_false p s : head_sat p s = false -> span p s = ([], s).
Proof. destruct s as [|c s]; simpl; [reflexivity|]. now intros ->. Qed.

(** The run of digits of a limit clause followed by [\b], captured or not. *)
Lemma digits_then_boundary (D : regex) (cap : str -> list (nat * str)) :
  (forall pv r, exec D (MState pv r [])
                = map (fun st' => MState (prev st') (rest st')
                                    (cap (consumed r (rest st'))))
                    (exec (Plus is_digit) (MState pv r []))) ->
  forall pv r,
    exec (Seq D WordB) (MState pv r [])
    = match span is_digit r with
      | ([], _) => []
      | (ds, r3) =>
          if word_after r3 then []
          else [MState (prev_after pv ds) r3 (cap ds)]
      end.
Proof.
  intros HD pv r.
  change (exec (Seq D WordB) (MState pv r []))
    with (flat_map (exec WordB) (exec D (MState pv r []))).
  rewrite HD, flat_map_map.
  rewrite plus_greedy_longest.
  - destruct (span_spec is_digit r) as [H1 [H2 H3]].
    destruct (span is_digit r) as [ds r3]. cbn [fst snd] in *.
    destruct ds as [|d ds]; [reflexivity|].
    cbn [exec prev rest caps]. unfold at_boundary.
    rewrite (all_word_last (d :: ds) pv); [|discriminate|now apply digits_all_word].
    assert (Hc : consumed r r3 = d :: ds)
      by (rewrite H1 at 1; apply consumed_app).
    rewrite Hc. destruct (word_after r3); reflexivity.
  - intros st Hst Hh. apply exec_plus_in in Hst.
    destruct Hst as [u [t [_ [Hne [Hu ->]]]]].
    cbn [exec prev rest caps] in *. unfold at_boundary.
    rewrite (all_word_last u pv Hne (digits_all_word u Hu)).
    destruct t as [|c t]; [discriminate|]. simpl in Hh. simpl.
    now rewrite (digit_is_word c Hh).
Qed.

Lemma limit_prefix_word s kw r1 :
  strip_prefix_ci (chars "LIMIT") s = Some (kw, r1) ->
  word_after s = true /\ kw <> [] /\ forallb is_word kw = true.
Proof.
  intros H. apply strip_prefix_ci_some in H. destruct H as [-> Hm].
  assert (Hne : kw <> []) by (eapply ci_match_nonempty; [exact Hm | discriminate]).
  assert (Hw : forallb is_word kw = true)
    by (eapply ci_match_word; [exact Hm | reflexivity]).
  split; [now apply all_word_head | now split].
Qed.

Lemma limit_shape_exec (D : regex) (cap : str -> list (nat * str)) pv s :
  (forall pv r, exec D (MState pv r [])
                = map (fun st' => MState (prev st') (rest st')
                                    (cap (consumed r (rest st'))))
                    (exec (Plus is_digit) (MState pv r []))) ->
  exec (Seq WordB (Seq (word "LIMIT") (Seq (Plus is_space) (Seq D WordB))))
       (MState pv s [])
  = match lim_match pv s with
    | Some (kw, ws, ds, r3) =>
        [MState (prev_after pv (kw ++ ws ++ ds)) r3 (cap ds)]
    | None => []
    end.
Proof.
  intros HD.
  change (exec (Seq WordB (Seq (word "LIMIT")
                             (Seq (Plus is_space) (Seq D WordB))))
            (MState pv s []))
    with (flat_map
            (fun x => flat_map
                        (fun y => flat_map (exec (Seq D WordB))
                                    (exec (Plus is_space) y))
                        (exec (lits (chars "LIMIT")) x))
            (exec WordB (MState pv s []))).
  change (exec WordB (MState pv s []))
    with (if at_boundary pv s then [MState pv s []] else []).
  unfold lim_match, at_boundary.
  destruct (strip_prefix_ci (chars "LIMIT") s) as [[kw r1]|] eqn:Ek.
  - destruct (limit_prefix_word _ _ _ Ek) as [Hs [Hkne Hkw]]. rewrite Hs.
    destruct (word_before pv) eqn:Eb; [reflexivity|].
    cbn [xorb flat_map]. rewrite List.app_nil_r, exec_lits.
    cbn [prev rest caps]. rewrite Ek. cbn [flat_map].
    rewrite List.app_nil_r, plus_greedy_longest.
    + destruct (span_spec is_space r1) as [H1 [H2 H3]].
      destruct (span is_space r1) as [ws r2]. cbn [fst snd] in *.
      destruct ws as [|w ws]; [reflexivity|].
      rewrite (digits_then_boundary D cap HD).
      destruct (span is_digit r2) as [[|d ds] r3]; [reflexivity|].
      destruct (word_after r3); [reflexivity|].
      now rewrite !prev_after_app.
    + intros st Hst Hh. apply exec_plus_in in Hst.
      destruct Hst as [u [t [_ [_ [_ ->]]]]]. cbn [rest caps] in *.
      rewrite (digits_then_boundary D cap HD).
      rewrite span_head_false; [reflexivity|].
      destruct t as [|c t]; [reflexivity|]. simpl in *.
      destruct (is_digit c) eqn:Ed; [|reflexivity].
      apply digit_not_space in Ed. congruence.
  - destruct (word_before pv); destruct (word_after s);
      cbn [xorb flat_map]; try reflexivity;
      rewrite List.app_nil_r, exec_lits; cbn [rest]; now rewrite Ek.
Qed.

Lemma limit_re_exec pv s :
  exec LIMIT_RE (MState pv s [])
  = match lim_match pv s with
    | Some (kw, ws, ds, r3) =>
        [MState (prev_after pv (kw ++ ws ++ ds)) r3 [(1, ds)]]
    | None => []
    end.
Proof.
  unfold LIMIT_RE.
  apply (limit_shape_exec (Group 1 (Plus is_digit)) (fun ds => [(1, ds)])).
  intros pv' r. cbn [exec]. apply map_ext_in. intros x Hx.
  apply exec_plus_in in Hx. destruct Hx as [u [t [_ [_ [_ ->]]]]].
  reflexivity.
Qed.

Lemma limit_sub_re_exec pv s :
  exec LIMIT_SUB_RE (MState pv s [])
  = match lim_match pv s with
    | Some (kw, ws, ds, r3) => [MState (prev_after pv (kw ++ ws ++ ds)) r3 []]
    | None => []
    end.
Proof.
  unfold LIMIT_SUB_RE.
  apply (limit_shape_exec (Plus is_digit) (fun _ => [])).
  intros pv' r. rewrite <- (map_id (exec (Plus is_digit) (MState pv' r []))) at 1.
  apply map_ext_in. intros x Hx.
  apply exec_plus_in in Hx. destruct Hx as [u [t [_ [_ [_ ->]]]]].
  reflexivity.
Qed.

Lemma lim_match_elim pv s kw ws ds r3 :
  lim_match pv s = Some (kw, ws, ds, r3) ->
  s = kw ++ ws ++ ds ++ r3 /\ ci_match (chars "LIMIT") kw /\
  word_before pv = false /\
  ws <> [] /\ Forall (fun c => is_space c = true) ws /\
  ds <> [] /\ Forall (fun c => is_digit c = true) ds /\
  word_after r3 = false.
Proof.
  unfold lim_match. destruct (word_before pv); [discriminate|].
  destruct (strip_prefix_ci (chars "LIMIT") s) as [[kw' r1]|] eqn:Ek;
    [|discriminate].
  apply strip_prefix_ci_some in Ek. destruct Ek as [-> Hk].
  destruct (span_spec is_space r1) as [H1 [H2 _]].
  destruct (span is_space r1) as [ws' r2]. cbn [fst snd] in *.
  destruct ws' as [|w ws']; [discriminate|].
  destruct (span_spec is_digit r2) as [H3 [H4 _]].
  destruct (span is_digit r2) as [ds' r3']. cbn [fst snd] in *.
  destruct ds' as [|d ds']; [discriminate|].
  destruct (word_after r3') eqn:Ew; [discriminate|].
  intros H. injection H as <- <- <- <-. subst r1 r2.
  repeat split; auto; discriminate.
Qed.

Lemma lim_match_intro pv kw ws ds r3 :
  ci_match (chars "LIMIT") kw -> word_before pv = false ->
  ws <> [] -> Forall (fun c => is_space c = true) ws ->
  ds <> [] -> Forall (fun c => is_digit c = true) ds ->
  word_after r3 = false ->
  lim_match pv (kw ++ ws ++ ds ++ r3) = Some (kw, ws, ds, r3).
Proof.
  intros Hk Hb Hwne Hws Hdne Hds Hr. unfold lim_match. rewrite Hb.
  rewrite (strip_prefix_ci_app _ _ _ Hk).
  rewrite (span_intro is_space ws (ds ++ r3) Hws).
  - destruct ws as [|w ws]; [congruence|].
    rewrite (span_intro is_digit ds r3 Hds).
    + destruct ds as [|d ds]; [congruence|]. now rewrite Hr.
    + destruct r3 as [|c r3]; [reflexivity|]. simpl in *.
      destruct (is_digit c) eqn:E; [|reflexivity].
      apply digit_is_word in E. congruence.
  - destruct ds as [|d ds]; [congruence|]. simpl.
    inversion Hds; subst. now apply digit_not_space.
Qed.

Lemma lim_match_prev pv pv' s :
  word_before pv = word_before pv' -> lim_match pv s = lim_match pv' s.
Proof. unfold lim_match. now intros ->. Qed.

Lemma lim_match_nil pv : lim_match pv [] = None.
Proof. unfold lim_match. now destruct (word_before pv). Qed.

Lemma limit_match_at pv s :
  match_at LIMIT_RE pv s
  = match lim_match pv s with
    | Some (kw, ws, ds, r3) =>
        Some (RMatch (kw ++ ws ++ ds)
                (MState (prev_after pv (kw ++ ws ++ ds)) r3 [(1, ds)]))
    | None => None
    end.
Proof.
  unfold match_at. rewrite limit_re_exec.
  destruct (lim_match pv s) as [[[[kw ws] ds] r3]|] eqn:E; [|reflexivity].
  apply lim_match_elim in E. destruct E as [-> _]. cbn [rest].
  now rewrite !app_assoc, consumed_app.
Qed.

Lemma limit_sub_match_at pv s :
  match_at LIMIT_SUB_RE pv s
  = match lim_match pv s with
    | Some (kw, ws, ds, r3) =>
        Some (RMatch (kw ++ ws ++ ds)
                (MState (prev_after pv (kw ++ ws ++ ds)) r3 []))
    | None => None
    end.
Proof.
  unfold match_at. rewrite limit_sub_re_exec.
  destruct (lim_match pv s) as [[[[kw ws] ds] r3]|] eqn:E; [|reflexivity].
  apply lim_match_elim in E. destruct E as [-> _]. cbn [rest].
  now rewrite !app_assoc, consumed_app.
Qed.

(** ** Scanning: [re.sub] and [re.finditer] step by step *)

Lemma sub_go_skip r repl u : forall pv t,
  sub_go r repl pv (u ++ t) (length u) = sub_go r repl (prev_after pv u) t 0.
Proof.
  induction u as [|c u IH]; intros pv t; [reflexivity|].
  simpl. apply IH.
Qed.

Lemma sub_go_match r repl pv u t m :
  u <> [] -> match_at r pv (u ++ t) = Some m -> m_text m = u ->
  sub_go r repl pv (u ++ t) 0 = repl ++ sub_go r repl (prev_after pv u) t 0.
Proof.
  intros Hne Hm Ht. destruct u as [|c u]; [congruence|].
  simpl. simpl in Hm. rewrite Hm, Ht. simpl. f_equal. apply sub_go_skip.
Qed.

Lemma sub_go_nomatch r repl pv c s :
  match_at r pv (c :: s) = None ->
  sub_go r repl pv (c :: s) 0 = c :: sub_go r repl (Some c) s 0.
Proof. intros H. simpl. now rewrite H. Qed.

Lemma finditer_go_skip r u : forall pv t,
  finditer_go r pv (u ++ t) (length u) = finditer_go r (prev_after pv u) t 0.
Proof.
  induction u as [|c u IH]; intros pv t; [reflexivity|].
  simpl. apply IH.
Qed.

Lemma finditer_go_match r pv u t m :
  u <> [] -> match_at r pv (u ++ t) = Some m -> m_text m = u ->
  finditer_go r pv (u ++ t) 0 = m :: finditer_go r (prev_after pv u) t 0.
Proof.
  intros Hne Hm Ht. destruct u as [|c u]; [congruence|].
  simpl. simpl in Hm. rewrite Hm, Ht. simpl. f_equal. apply finditer_go_skip.
Qed.

Lemma finditer_go_nomatch r pv c s :
  match_at r pv (c :: s) = None ->
  finditer_go r pv (c :: s) 0 = finditer_go r (Some c) s 0.
Proof. intros H. simpl. now rewrite H. Qed.

(** [re.search] returns the first match [re.finditer] yields. *)
Lemma search_is_first r : forall s pv,
  search_from r pv s = hd_error (finditer_go r pv s 0).
Proof.
  induction s as [|c s IH]; intros pv; simpl.
  - destruct (match_at r pv []); reflexivity.
  - destruct (match_at r pv (c :: s)); [reflexivity | apply IH].
Qed.

Lemma limit_of_first s : limit_of s = hd_error (limit_values s).
Proof.
  unfold limit_of, limit_values, re_search, re_finditer.
  rewrite search_is_first.
  destruct (finditer_go LIMIT_RE None s 0); reflexivity.
Qed.

(** ** Rewriting the limit clauses *)

Lemma not_L_of_ci a c :
  ci_eq a c = true -> ci_eq "L"%char a = false -> ci_eq "L"%char c = false.
Proof.
  unfold ci_eq. intros H. apply Ascii.eqb_eq in H. now rewrite H.
Qed.

Lemma space_not_L c : is_space c = true -> ci_eq "L"%char c = false.
Proof. by_chars c. Qed.

Lemma digit_not_L c : is_digit c = true -> ci_eq "L"%char c = false.
Proof. by_chars c. Qed.

Lemma limit_word_split kw :
  ci_match (chars "LIMIT") kw ->
  exists k1 kw', kw = k1 :: kw' /\ ci_eq "L"%char k1 = true /\
                 Forall (fun c => ci_eq "L"%char c = false) kw'.
Proof.
  unfold ci_match. simpl. intros H.
  repeat match goal with
         | H : Forall2 _ (_ :: _) _ |- _ => inversion H; subst; clear H
         | H : Forall2 _ [] _ |- _ => inversion H; subst; clear H
         end.
  eexists. eexists. split; [reflexivity|]. split; [assumption|].
  repeat constructor;
    match goal with
    | H : ci_eq ?a ?c = true |- ci_eq _ ?c = false =>
        apply (not_L_of_ci a c H); reflexivity
    end.
Qed.

Lemma lim_match_head pv c s x :
  lim_match pv (c :: s) = Some x -> ci_eq "L"%char c = true.
Proof.
  destruct x as [[[kw ws] ds] r3]. intros H.
  apply lim_match_elim in H. destruct H as [Hs [Hk _]].
  apply limit_word_split in Hk. destruct Hk as [k1 [kw' [-> [Hk1 _]]]].
  simpl in Hs. injection Hs as -> _. exact Hk1.
Qed.

Section Rewrite.

Variable limit : Z.
Hypothesis limit_nonneg : (0 <= limit)%Z.

Local Abbreviation T := (sub_go LIMIT_SUB_RE (limit_clause limit)).
Local Abbreviation F := (finditer_go LIMIT_RE).

Lemma T_nil pv : T pv [] 0 = [].
Proof.
  simpl. now rewrite limit_sub_match_at, lim_match_nil.
Qed.

Lemma T_match pv s kw ws ds r3 :
  lim_match pv s = Some (kw, ws, ds, r3) ->
  T pv s 0 = limit_clause limit ++ T (prev_after pv (kw ++ ws ++ ds)) r3 0.
Proof.
  intros H. pose proof (limit_sub_match_at pv s) as Hm. rewrite H in Hm.
  apply lim_match_elim in H.
  destruct H as [-> [Hk [_ [_ [_ [Hd _]]]]]].
  rewrite !app_assoc in *.
  apply (sub_go_match _ _ _ _ _ _ ) with (2 := Hm); [|reflexivity].
  intros E. apply app_eq_nil in E. destruct E as [_ E]. congruence.
Qed.

Lemma T_copy pv c s :
  lim_match pv (c :: s) = None -> T pv (c :: s) 0 = c :: T (Some c) s 0.
Proof.
  intros H. apply sub_go_nomatch. now rewrite limit_sub_match_at, H.
Qed.

Lemma F_nil pv : F pv [] 0 = [].
Proof.
  simpl. now rewrite limit_match_at, lim_match_nil.
Qed.

Lemma F_match pv s kw ws ds r3 :
  lim_match pv s = Some (kw, ws, ds, r3) ->
  exists m, m_group 1 m = ds /\
    F pv s 0 = m :: F (prev_after pv (kw ++ ws ++ ds)) r3 0.
Proof.
  intros H. pose proof (limit_match_at pv s) as Hm. rewrite H in Hm.
  apply lim_match_elim in H.
  destruct H as [-> [Hk [_ [_ [_ [Hd _]]]]]].
  rewrite !app_assoc in *.
  eexists. split; [|apply (finditer_go_match _ _ _ _ _) with (2 := Hm);
                    [|reflexivity]].
  - reflexivity.
  - intros E. apply app_eq_nil in E. destruct E as [_ E]. congruence.
Qed.

Lemma F_copy pv c s :
  lim_match pv (c :: s) = None -> F pv (c :: s) 0 = F (Some c) s 0.
Proof.
  intros H. apply finditer_go_nomatch. now rewrite limit_match_at, H.
Qed.

Lemma limit_clause_head :
  exists x, limit_clause limit = "L"%char :: x.
Proof. eexists. reflexivity. Qed.

(** The rewritten text opens with a character of the same kind as the
    original. *)
Lemma T_head (q : ascii -> bool) pv s :
  (forall a c, ci_eq a c = true -> q a = q c) ->
  head_sat q (T pv s 0) = head_sat q s.
Proof.
  intros Hq. destruct s as [|c s]; [now rewrite T_nil|].
  destruct (lim_match pv (c :: s)) as [[[[kw ws] ds] r3]|] eqn:E.
  - rewrite (T_match _ _ _ _ _ _ E).
    destruct limit_clause_head as [x ->]. simpl.
    apply Hq. eapply lim_match_head; eauto.
  - now rewrite (T_copy _ _ _ E).
Qed.

(** Characters that cannot open a limit clause are copied through. *)
Lemma T_copy_run u : forall pv s x,
  Forall (fun c => ci_eq "L"%char c = false) u ->
  T pv s 0 = u ++ x ->
  exists t, s = u ++ t /\ x = T (prev_after pv u) t 0.
Proof.
  induction u as [|c u IH]; intros pv s x Hu H.
  - exists s. now split.
  - inversion Hu as [|? ? Hc Hu']; subst.
    destruct s as [|c0 s]; [rewrite T_nil in H; discriminate|].
    destruct (lim_match pv (c0 :: s)) as [[[[kw ws] ds] r3]|] eqn:E.
    + rewrite (T_match _ _ _ _ _ _ E) in H.
      destruct limit_clause_head as [y Hy]. rewrite Hy in H.
      simpl in H. injection H as <- _. discriminate.
    + rewrite (T_copy _ _ _ E) in H. simpl in H. injection H as -> H.
      destruct (IH _ _ _ Hu' H) as [t [-> Hx]].
      exists t. now split.
Qed.

(** Where the original has no limit clause, the rewritten text has none. *)
Lemma T_stable pv pv' s :
  word_before pv = word_before pv' ->
  lim_match pv s = None -> lim_match pv' (T pv s 0) = None.
Proof.
  intros Hpv Hnone.
  destruct (lim_match pv' (T pv s 0)) as [[[[kw ws] ds] r3]|] eqn:E;
    [|reflexivity].
  exfalso. apply lim_match_elim in E.
  destruct E as [HT [Hk [Hb [Hwne [Hws [Hdne [Hds Hr]]]]]]].
  destruct (limit_word_split kw Hk) as [k1 [kw' [-> [Hk1 Hkw']]]].
  destruct s as [|c s]; [rewrite T_nil in HT; discriminate|].
  rewrite (T_copy _ _ _ Hnone) in HT. simpl in HT. injection HT as -> HT.
  assert (Hrun : Forall (fun c => ci_eq "L"%char c = false) (kw' ++ ws ++ ds)).
  { apply Forall_app. split; [exact Hkw'|]. apply Forall_app. split.
    - eapply Forall_impl; [|exact Hws]. apply space_not_L.
    - eapply Forall_impl; [|exact Hds]. apply digit_not_L. }
  rewrite !app_assoc in HT. rewrite <- (app_assoc kw' ws ds) in HT.
  destruct (T_copy_run _ _ _ _ Hrun HT) as [t [-> Hr3]].
  assert (Hw : word_after t = false).
  { unfold word_after in *. rewrite <- Hr, Hr3. symmetry.
    apply T_head. intros a c Hac. symmetry. now apply ci_eq_word. }
  assert (Hm : lim_match pv ((k1 :: kw') ++ ws ++ ds ++ t)
               = Some (k1 :: kw', ws, ds, t)).
  { apply lim_match_intro; auto. congruence. }
  simpl in Hm. rewrite <- !app_assoc in Hnone. simpl in Hnone. congruence.
Qed.

Lemma T_rewrites pv pv' s kw ws ds r3 :
  word_before pv = word_before pv' ->
  lim_match pv s = Some (kw, ws, ds, r3) ->
  lim_match pv' (T pv s 0)
  = Some (chars "LIMIT", [" "%char], str_of_int limit,
          T (prev_after pv (kw ++ ws ++ ds)) r3 0).
Proof.
  intros Hpv H. rewrite (T_match _ _ _ _ _ _ H).
  apply lim_match_elim in H.
  destruct H as [_ [_ [Hb [_ [_ [_ [_ Hr]]]]]]].
  destruct (str_of_int_digits limit limit_nonneg) as [Hne [Hd _]].
  unfold limit_clause.
  change (chars "LIMIT ") with (chars "LIMIT" ++ [" "%char]).
  rewrite <- !app_assoc.
  apply lim_match_intro.
  - repeat constructor.
  - congruence.
  - discriminate.
  - repeat constructor.
  - exact Hne.
  - exact Hd.
  - unfold word_after in *. rewrite T_head; [exact Hr|].
    intros a c Hac. symmetry. now apply ci_eq_word.
Qed.

Lemma after_digits_word pv a ds :
  ds <> [] -> Forall (fun c => is_digit c = true) ds ->
  word_before (prev_after pv (a ++ ds)) = true.
Proof.
  intros Hne Hd. rewrite prev_after_app.
  apply all_word_last; [exact Hne | now apply digits_all_word].
Qed.

(** Every limit clause of the rewritten text carries the ceiling, and there
    are as many of them as in the original. *)
Lemma F_T n : forall s pv pv',
  length s <= n -> word_before pv = word_before pv' ->
  map (m_group 1) (F pv' (T pv s 0) 0)
  = map (fun _ => str_of_int limit) (F pv s 0).
Proof.
  induction n as [|n IH]; intros s pv pv' Hlen Hpv.
  - destruct s; [|simpl in Hlen; lia]. now rewrite T_nil, !F_nil.
  - destruct s as [|c s]; [now rewrite T_nil, !F_nil|].
    destruct (lim_match pv (c :: s)) as [[[[kw ws] ds] r3]|] eqn:E.
    + pose proof (T_rewrites pv pv' _ _ _ _ _ Hpv E) as E'.
      destruct (F_match _ _ _ _ _ _ E) as [m [Hm ->]].
      destruct (F_match _ _ _ _ _ _ E') as [m' [Hm' ->]].
      destruct (str_of_int_digits limit limit_nonneg) as [Hne [Hd Hint]].
      apply lim_match_elim in E.
      destruct E as [Hs [_ [_ [Hwne [_ [Hdne [Hds _]]]]]]].
      simpl. rewrite Hm'. f_equal.
      apply IH.
      * apply (f_equal (@length ascii)) in Hs.
        rewrite !length_app in Hs.
        destruct ws; [congruence|]. simpl in Hs, Hlen. lia.
      * rewrite (app_assoc kw ws ds), after_digits_word by assumption.
        symmetry. apply all_word_last; [exact Hne | now apply digits_all_word].
    + rewrite (F_copy _ _ _ E).
      pose proof (T_stable pv pv' _ Hpv E) as E'.
      rewrite (T_copy _ _ _ E) in *. rewrite (F_copy _ _ _ E').
      apply IH; [simpl in Hlen; lia | reflexivity].
Qed.

(** A text without limit clause gets none from the appended line but the
    appended one. *)
Lemma lim_match_append pv s x :
  lim_match pv s = None ->
  lim_match pv (s ++ "010"%char :: "L"%char :: x) = None.
Proof.
  intros Hnone.
  destruct (lim_match pv (s ++ "010"%char :: "L"%char :: x))
    as [[[[kw ws] ds] r3]|] eqn:E; [|reflexivity].
  exfalso. apply lim_match_elim in E.
  destruct E as [Hs [Hk [Hb [Hwne [Hws [Hdne [Hds Hr]]]]]]].
  rewrite !app_assoc in Hs. apply app_eq_app in Hs.
  destruct Hs as [l [[H1 H2]|[H1 H2]]].
  - (* the clause lies within [s] *)
    assert (Hl : word_after l = false).
    { destruct l as [|c l]; [reflexivity|]. now rewrite H2 in Hr. }
    rewrite H1, <- !app_assoc in Hnone.
    rewrite lim_match_intro in Hnone; auto. discriminate.
  - destruct l as [|c l].
    + rewrite List.app_nil_r in H1. rewrite <- H1, <- !app_assoc in Hnone.
      rewrite <- (List.app_nil_r ds) in Hnone.
      rewrite lim_match_intro in Hnone; auto. discriminate.
    + simpl in H2. injection H2 as <- H2.
      destruct (limit_word_split kw Hk) as [k1 [kw' [-> [Hk1 Hkw']]]].
      assert (Hrun : Forall (fun c => ci_eq "L"%char c = false)
                       (kw' ++ ws ++ ds)).
      { apply Forall_app. split; [exact Hkw'|]. apply Forall_app. split.
        - eapply Forall_impl; [|exact Hws]. apply space_not_L.
        - eapply Forall_impl; [|exact Hds]. apply digit_not_L. }
      destruct l as [|c' l].
      * (* the clause would end with the line break *)
        destruct ds as [|d ds] using rev_ind; [congruence|].
        rewrite !app_assoc in H1. apply app_inj_tail in H1.
        destruct H1 as [_ ->].
        apply Forall_app in Hds. destruct Hds as [_ Hds].
        inversion Hds; subst. discriminate.
      * simpl in H2. injection H2 as <- H2.
        rewrite <- !app_assoc in H1. simpl in H1.
        rewrite Forall_forall in Hrun.
        destruct s as [|c0 s]; simpl in H1; injection H1 as -> H1.
        -- discriminate.
        -- assert (Hin : In "L"%char (kw' ++ ws ++ ds)).
           { rewrite H1. apply in_or_app. right. right. now left. }
           apply Hrun in Hin. discriminate.
Qed.

Lemma F_append : forall s pv,
  F pv s 0 = [] ->
  map (m_group 1) (F pv (s ++ newline :: limit_clause limit) 0)
  = [str_of_int limit].
Proof.
  destruct (str_of_int_digits limit limit_nonneg) as [Hne [Hd Hint]].
  induction s as [|c s IH]; intros pv H.
  - simpl app. rewrite F_copy.
    + assert (E : lim_match (Some newline)
                    (chars "LIMIT" ++ [" "%char] ++ str_of_int limit ++ [])
                  = Some (chars "LIMIT", [" "%char], str_of_int limit, [])).
      { apply lim_match_intro; auto; try reflexivity; try discriminate;
          repeat constructor. }
      rewrite List.app_nil_r in E.
      destruct (F_match _ _ _ _ _ _ E) as [m [Hm Hf]].
      unfold limit_clause.
      change (chars "LIMIT ") with (chars "LIMIT" ++ [" "%char]).
      rewrite <- app_assoc, Hf, F_nil. simpl. now rewrite Hm.
    + unfold lim_match. destruct (word_before pv); reflexivity.
  - destruct (lim_match pv (c :: s)) as [[[[kw ws] ds] r3]|] eqn:E.
    + destruct (F_match _ _ _ _ _ _ E) as [m [_ Hf]].
      rewrite Hf in H. discriminate.
    + rewrite (F_copy _ _ _ E) in H.
      destruct limit_clause_head as [x Hx].
      pose proof (lim_match_append pv (c :: s) x E) as E'.
      rewrite <- Hx in E'.
      change ((c :: s) ++ newline :: limit_clause limit)
        with (c :: (s ++ newline :: limit_clause limit)).
      rewrite F_copy; [now apply IH | exact E'].
Qed.

End Rewrite.

(** ** The limit clauses of a text and the gaps between them *)

Lemma sub_limit_nil repl pv : sub_go LIMIT_SUB_RE repl pv [] 0 = [].
Proof.
  cbn [sub_go]. now rewrite limit_sub_match_at, lim_match_nil.
Qed.

Lemma sub_limit_match repl pv s kw ws ds r3 :
  lim_match pv s = Some (kw, ws, ds, r3) ->
  sub_go LIMIT_SUB_RE repl pv s 0
  = repl ++ sub_go LIMIT_SUB_RE repl (prev_after pv (kw ++ ws ++ ds)) r3 0.
Proof.
  intros H. pose proof (limit_sub_match_at pv s) as Hm. rewrite H in Hm.
  apply lim_match_elim in H.
  destruct H as [-> [Hk [_ [_ [_ [Hd _]]]]]].
  rewrite !app_assoc in *.
  apply (sub_go_match _ _ _ _ _ _ ) with (2 := Hm); [|reflexivity].
  intros E. apply app_eq_nil in E. destruct E as [_ E]. congruence.
Qed.

Lemma sub_limit_copy repl pv c s :
  lim_match pv (c :: s) = None ->
  sub_go LIMIT_SUB_RE repl pv (c :: s) 0
  = c :: sub_go LIMIT_SUB_RE repl (Some c) s 0.
Proof.
  intros H. apply sub_go_nomatch. now rewrite limit_sub_match_at, H.
Qed.

Lemma find_limit_match pv s kw ws ds r3 :
  lim_match pv s = Some (kw, ws, ds, r3) ->
  exists m, m_text m = kw ++ ws ++ ds /\ m_group 1 m = ds /\
    finditer_go LIMIT_RE pv s 0
    = m :: finditer_go LIMIT_RE (prev_after pv (kw ++ ws ++ ds)) r3 0.
Proof.
  intros H. pose proof (limit_match_at pv s) as Hm. rewrite H in Hm.
  apply lim_match_elim in H.
  destruct H as [-> [Hk [_ [_ [_ [Hd _]]]]]].
  rewrite !app_assoc in *.
  eexists. split; [|split; [|apply (finditer_go_match _ _ _ _ _) with (2 := Hm);
                              [|reflexivity]]].
  - reflexivity.
  - reflexivity.
  - intros E. apply app_eq_nil in E. destruct E as [_ E]. congruence.
Qed.

Lemma lim_match_nonword pv c s : is_word c = false -> lim_match pv (c :: s) = None.
Proof.
  intros Hc. destruct (lim_match pv (c :: s)) as [x|] eqn:E; [|reflexivity].
  apply lim_match_head in E. apply ci_eq_word in E.
  rewrite Hc in E. discriminate.
Qed.

(** A gap that does not open with a word character holds the same clauses
    whatever precedes it. *)
Lemma find_limit_start pv pv' g :
  word_after g = false ->
  finditer_go LIMIT_RE pv g 0 = finditer_go LIMIT_RE pv' g 0.
Proof.
  intros H. destruct g as [|c g]; [now rewrite !F_nil|].
  simpl in H. rewrite !F_copy by now apply lim_match_nonword. reflexivity.
Qed.

(** A clause that ends where the text is cut is a clause of the whole
    text, unless another clause follows at once (which cannot be, after a
    digit). *)
Lemma lim_match_cut pv u rest :
  lim_match pv (u ++ rest) = None ->
  rest = [] \/ word_before (prev_after pv u) = false ->
  lim_match pv u = None.
Proof.
  intros Hnone Hrest.
  destruct (lim_match pv u) as [[[[kw ws] ds] r3]|] eqn:E; [|reflexivity].
  exfalso. apply lim_match_elim in E.
  destruct E as [-> [Hk [Hb [Hwne [Hws [Hdne [Hds Hr]]]]]]].
  destruct r3 as [|c r3].
  - destruct Hrest as [->|Hw].
    + rewrite !List.app_nil_r in Hnone.
      rewrite <- (List.app_nil_r ds) in Hnone.
      rewrite lim_match_intro in Hnone; auto. discriminate.
    + rewrite List.app_nil_r, app_assoc in Hw.
      rewrite after_digits_word in Hw by assumption. discriminate.
  - rewrite <- !app_assoc in Hnone.
    rewrite lim_match_intro in Hnone; auto. discriminate.
Qed.

Lemma gaps_head_tail (l : list str) (d : str) :
  l ++ [d] = hd d l :: tl (l ++ [d]).
Proof. destruct l; reflexivity. Qed.

Lemma limit_pieces_go n : forall s pv,
  length s <= n ->
  exists pieces tail,
    s = with_clauses (fun x => x) pieces tail /\
    map snd pieces = map m_text (finditer_go LIMIT_RE pv s 0) /\
    (forall repl,
       sub_go LIMIT_SUB_RE repl pv s 0
       = with_clauses (fun _ => repl) pieces tail) /\
    finditer_go LIMIT_RE pv (hd tail (map fst pieces)) 0 = [] /\
    Forall (fun g => finditer_go LIMIT_RE None g 0 = [])
      (tl (map fst pieces ++ [tail])) /\
    (pieces <> [] ->
     word_before (prev_after pv (hd tail (map fst pieces))) = false).
Proof.
  induction n as [|n IH]; intros s pv Hlen.
  - destruct s; [|simpl in Hlen; lia].
    exists [], []. split; [|split; [|split; [|split; [|split]]]].
    + reflexivity.
    + now rewrite F_nil.
    + intros repl. now rewrite sub_limit_nil.
    + apply F_nil.
    + constructor.
    + congruence.
  - destruct s as [|c s].
    { exists [], []. split; [|split; [|split; [|split; [|split]]]].
      - reflexivity.
      - now rewrite F_nil.
      - intros repl. now rewrite sub_limit_nil.
      - apply F_nil.
      - constructor.
      - congruence. }
    destruct (lim_match pv (c :: s)) as [[[[kw ws] ds] r3]|] eqn:E.
    + destruct (find_limit_match _ _ _ _ _ _ E) as [m [Hmt [_ HF]]].
      pose proof (lim_match_elim _ _ _ _ _ _ E)
        as [Hs [_ [Hb [Hwne [_ [Hdne [_ Hr]]]]]]].
      assert (Hl : length r3 <= n).
      { apply (f_equal (@length ascii)) in Hs.
        rewrite !length_app in Hs.
        destruct ws; [congruence|]. simpl in Hs, Hlen. lia. }
      destruct (IH r3 (prev_after pv (kw ++ ws ++ ds)) Hl)
        as [pieces [tail [H1 [H2 [H3 [H4 [H5 H6]]]]]]].
      exists (([], kw ++ ws ++ ds) :: pieces), tail.
      split; [|split; [|split; [|split; [|split]]]].
      * unfold with_clauses in *. cbn [flat_map fst snd app].
        rewrite Hs, <- !app_assoc, <- H1. reflexivity.
      * rewrite HF. cbn [map snd]. now rewrite Hmt, H2.
      * intros repl. rewrite (sub_limit_match _ _ _ _ _ _ _ E), H3.
        unfold with_clauses. cbn [flat_map fst snd app].
        now rewrite <- !app_assoc.
      * cbn [map fst hd]. apply F_nil.
      * cbn [map fst app tl]. rewrite gaps_head_tail.
        constructor; [|exact H5].
        rewrite (find_limit_start None (prev_after pv (kw ++ ws ++ ds)));
          [exact H4|].
        unfold word_after in *. rewrite H1 in Hr. unfold with_clauses in Hr.
        destruct pieces as [|[g x] ps]; cbn [map fst hd flat_map app] in *.
        -- exact Hr.
        -- destruct g as [|c0 g]; [reflexivity | exact Hr].
      * intros _. cbn [map fst hd]. exact Hb.
    + assert (Hl : length s <= n) by (simpl in Hlen; lia).
      destruct (IH s (Some c) Hl)
        as [pieces [tail [H1 [H2 [H3 [H4 [H5 H6]]]]]]].
      destruct pieces as [|[g x] ps].
      * exists [], (c :: tail). unfold with_clauses in *.
        cbn [flat_map app map fst hd] in *.
        split; [|split; [|split; [|split; [|split]]]].
        -- now rewrite H1.
        -- now rewrite (F_copy _ _ _ E).
        -- intros repl. now rewrite (sub_limit_copy _ _ _ _ E), H3.
        -- rewrite <- H1. rewrite (F_copy _ _ _ E).
           rewrite H1. exact H4.
        -- constructor.
        -- congruence.
      * exists ((c :: g, x) :: ps), tail. unfold with_clauses in *.
        cbn [flat_map app map fst snd hd tl] in *.
        split; [|split; [|split; [|split; [|split]]]].
        -- now rewrite H1.
        -- now rewrite (F_copy _ _ _ E).
        -- intros repl. now rewrite (sub_limit_copy _ _ _ _ E), H3.
        -- rewrite F_copy; [exact H4|].
           apply (lim_match_cut pv (c :: g)
                    (x ++ flat_map (fun p => fst p ++ snd p) ps ++ tail)).
           ++ rewrite H1 in E. rewrite <- !app_assoc in E. exact E.
           ++ right. apply H6. discriminate.
        -- exact H5.
        -- intros _. apply H6. discriminate.
Qed.

(** Every text is its limit clauses, all of them, set among gaps that hold
    none; [re.sub] puts the replacement in the place of each clause and
    keeps the gaps. *)
Lemma limit_pieces sql :
  exists pieces tail,
    sql = with_clauses (fun x => x) pieces tail /\
    map snd pieces = limit_texts sql /\
    Forall (fun g => limit_texts g = []) (map fst pieces ++ [tail]) /\
    forall repl,
      re_sub LIMIT_SUB_RE repl sql = with_clauses (fun _ => repl) pieces tail.
Proof.
  destruct (limit_pieces_go (length sql) sql None (le_n _))
    as [pieces [tail [H1 [H2 [H3 [H4 [H5 _]]]]]]].
  exists pieces, tail. split; [exact H1|]. split; [exact H2|].
  split; [|exact H3].
  rewrite gaps_head_tail. unfold limit_texts, re_finditer.
  constructor; [now rewrite H4|].
  eapply Forall_impl; [|exact H5]. intros g Hg. now rewrite Hg.
Qed.

(** ** [ensure_limit] *)

Lemma int_of_digits_nonneg ds :
  Forall (fun c => is_digit c = true) ds -> (0 <= int_of_digits ds)%Z.
Proof.
  unfold int_of_digits.
  assert (H : forall acc, (0 <= acc)%Z ->
            Forall (fun c => is_digit c = true) ds ->
            (0 <= fold_left (fun a c => a * 10 + digit_value c) ds acc)%Z).
  { induction ds as [|c ds IH]; intros acc Hacc Hd; simpl; [exact Hacc|].
    inversion Hd as [|? ? Hc Hd']; subst. apply IH; [|exact Hd'].
    assert (0 <= digit_value c)%Z.
    { revert Hc. clear. by_chars c. }
    lia. }
  apply H. lia.
Qed.

Lemma limit_digits_are_digits s ds :
  limit_digits s = Some ds -> Forall (fun c => is_digit c = true) ds.
Proof.
  unfold limit_digits, re_search.
  destruct (search_from LIMIT_RE None s) as [m|] eqn:E; [|discriminate].
  intros H. injection H as <-.
  apply search_from_first in E. destruct E as [pre [t [_ [Hm _]]]].
  rewrite limit_match_at in Hm.
  destruct (lim_match (prev_after None pre) t) as [[[[kw ws] ds] r3]|] eqn:El;
    [|discriminate].
  injection Hm as <-. apply lim_match_elim in El. cbn. tauto.
Qed.

Lemma limit_digits_first s :
  limit_digits s = hd_error (map (m_group 1) (re_finditer LIMIT_RE s)).
Proof.
  unfold limit_digits, re_search, re_finditer. rewrite search_is_first.
  destruct (finditer_go LIMIT_RE None s 0); reflexivity.
Qed.

Lemma limit_of_value s :
  limit_of s = option_map int_of_digits (limit_digits s).
Proof. unfold limit_of, limit_digits. now destruct (re_search LIMIT_RE s). Qed.

Lemma limit_values_digits s :
  limit_values s = map int_of_digits (map (m_group 1) (re_finditer LIMIT_RE s)).
Proof. unfold limit_values. now rewrite map_map. Qed.

Lemma ensure_limit_unfold sql limit :
  ensure_limit sql limit
  = match limit_digits sql with
    | Some ds =>
        if within_digit_limit ds then
          if (int_of_digits ds >? limit)%Z then
            if within_digit_limit (str_of_int (Z.abs limit))
            then Ok (re_sub LIMIT_SUB_RE (limit_clause limit) sql)
            else Raise DigitLimit
          else Ok sql
        else Raise DigitLimit
    | None =>
        if within_digit_limit (str_of_int (Z.abs limit))
        then Ok (sql ++ newline :: limit_clause limit)
        else Raise DigitLimit
    end.
Proof.
  unfold ensure_limit, limit_digits, parse_int, format_int, limit_clause.
  destruct (re_search LIMIT_RE sql) as [m|].
  - destruct (within_digit_limit (m_group 1 m)); [|reflexivity].
    destruct (int_of_digits (m_group 1 m) >? limit)%Z; [|reflexivity].
    now destruct (within_digit_limit (str_of_int (Z.abs limit))).
  - now destruct (within_digit_limit (str_of_int (Z.abs limit))).
Qed.

Lemma limit_digits_sub_all sql limit :
  (0 <= limit)%Z ->
  map (m_group 1)
    (re_finditer LIMIT_RE (re_sub LIMIT_SUB_RE (limit_clause limit) sql))
  = map (fun _ => str_of_int limit) (re_finditer LIMIT_RE sql).
Proof.
  intros H. unfold re_sub, re_finditer.
  now apply (F_T limit H (length sql)).
Qed.

Lemma limit_digits_append_all sql limit :
  (0 <= limit)%Z -> limit_digits sql = None ->
  map (m_group 1) (re_finditer LIMIT_RE (sql ++ newline :: limit_clause limit))
  = [str_of_int limit].
Proof.
  intros H Hn. rewrite limit_digits_first in Hn.
  unfold re_finditer in *. apply (F_append limit H).
  destruct (finditer_go LIMIT_RE None sql 0); [reflexivity | discriminate].
Qed.

Lemma limit_values_sub sql limit :
  (0 <= limit)%Z ->
  limit_values (re_sub LIMIT_SUB_RE (limit_clause limit) sql)
  = map (fun _ => limit) (limit_values sql).
Proof.
  intros H. destruct (str_of_int_digits limit H) as [_ [_ Hint]].
  rewrite !limit_values_digits, limit_digits_sub_all by exact H.
  rewrite !map_map. apply map_ext. intros m. exact Hint.
Qed.

Lemma limit_values_append sql limit :
  (0 <= limit)%Z -> limit_digits sql = None ->
  limit_values (sql ++ newline :: limit_clause limit) = [limit].
Proof.
  intros H Hn. destruct (str_of_int_digits limit H) as [_ [_ Hint]].
  rewrite limit_values_digits, limit_digits_append_all by assumption.
  simpl. now rewrite Hint.
Qed.

Lemma limit_digits_sub sql limit ds :
  (0 <= limit)%Z -> limit_digits sql = Some ds ->
  limit_digits (re_sub LIMIT_SUB_RE (limit_clause limit) sql)
  = Some (str_of_int limit).
Proof.
  intros H Hd. rewrite limit_digits_first in *.
  rewrite limit_digits_sub_all by exact H.
  destruct (re_finditer LIMIT_RE sql); [discriminate | reflexivity].
Qed.

Lemma limit_digits_append sql limit :
  (0 <= limit)%Z -> limit_digits sql = None ->
  limit_digits (sql ++ newline :: limit_clause limit) = Some (str_of_int limit).
Proof.
  intros H Hn. rewrite limit_digits_first.
  now rewrite limit_digits_append_all.
Qed.

Lemma limit_of_sub sql limit L :
  (0 <= limit)%Z -> limit_of sql = Some L ->
  limit_of (re_sub LIMIT_SUB_RE (limit_clause limit) sql) = Some limit.
Proof.
  intros H HL. rewrite limit_of_first in *. rewrite limit_values_sub by exact H.
  destruct (limit_values sql); [discriminate | reflexivity].
Qed.

Lemma limit_of_none s : limit_of s = None <-> limit_digits s = None.
Proof.
  rewrite limit_of_value. destruct (limit_digits s); simpl; split;
    congruence.
Qed.

(** What [ensure_limit] returns, when it returns. *)
Lemma ensure_limit_ok sql limit r :
  ensure_limit sql limit = Ok r ->
  match limit_of sql with
  | None => r = sql ++ newline :: limit_clause limit
  | Some L =>
      if (L >? limit)%Z then r = re_sub LIMIT_SUB_RE (limit_clause limit) sql
      else r = sql
  end.
Proof.
  rewrite ensure_limit_unfold, limit_of_value.
  destruct (limit_digits sql) as [ds|]; simpl.
  - destruct (within_digit_limit ds); [|discriminate].
    destruct (int_of_digits ds >? limit)%Z.
    + destruct (within_digit_limit (str_of_int (Z.abs limit)));
        [|discriminate].
      intros H. now apply Ok_inj in H.
    + intros H. now apply Ok_inj in H.
  - destruct (within_digit_limit (str_of_int (Z.abs limit)));
      [|discriminate].
    intros H. now apply Ok_inj in H.
Qed.

(** When it raises: on a first limit or a ceiling of too many digits. *)
Lemma ensure_limit_raise sql limit e :
  ensure_limit sql limit = Raise e <->
  e = DigitLimit /\
  ((exists ds, limit_digits sql = Some ds /\ within_digit_limit ds = false) \/
   (within_digit_limit (str_of_int (Z.abs limit)) = false /\
    forall L, limit_of sql = Some L -> (L > limit)%Z)).
Proof.
  rewrite ensure_limit_unfold, limit_of_value.
  destruct (limit_digits sql) as [ds|]; simpl.
  - destruct (within_digit_limit ds) eqn:Ed.
    + destruct (Z.gtb_spec (int_of_digits ds) limit) as [Hgt|Hle].
      * destruct (within_digit_limit (str_of_int (Z.abs limit))) eqn:El.
        -- split; [discriminate|].
           intros [_ [[ds' [H1 H2]]|[H _]]]; [|discriminate].
           injection H1 as <-. congruence.
        -- split.
           ++ intros H. injection H as <-. split; [reflexivity|].
              right. split; [reflexivity|].
              intros L HL. injection HL as <-. lia.
           ++ intros [-> _]. reflexivity.
      * split; [discriminate|].
        intros [_ [[ds' [H1 H2]]|[_ H]]].
        -- injection H1 as <-. congruence.
        -- specialize (H _ eq_refl). lia.
    + split.
      * intros H. injection H as <-. split; [reflexivity|].
        left. now exists ds.
      * intros [-> _]. reflexivity.
  - destruct (within_digit_limit (str_of_int (Z.abs limit))) eqn:El.
    + split; [discriminate|].
      intros [_ [[ds' [H1 _]]|[H _]]]; discriminate.
    + split.
      * intros H. injection H as <-. split; [reflexivity|].
        right. split; [reflexivity|]. discriminate.
      * intros [-> _]. reflexivity.
Qed.

(** ** A negative ceiling

    [str] writes a negative ceiling with a sign, and [LIMIT -n] is not a
    text [LIMIT_RE] matches: a statement rewritten or completed with it
    holds no limit clause. *)

Lemma find_limit_run u : forall pv t,
  Forall (fun c => ci_eq "L"%char c = false) u ->
  finditer_go LIMIT_RE pv (u ++ t) 0
  = finditer_go LIMIT_RE (prev_after pv u) t 0.
Proof.
  induction u as [|c u IH]; intros pv t Hu; [reflexivity|].
  inversion Hu as [|? ? Hc Hu']; subst. simpl app.
  rewrite F_copy.
  - rewrite prev_after_cons. now apply IH.
  - destruct (lim_match pv (c :: u ++ t)) as [x|] eqn:E; [|reflexivity].
    apply lim_match_head in E. congruence.
Qed.

Section NegativeCeiling.

Variable limit : Z.
Hypothesis limit_neg : (limit < 0)%Z.

Local Abbreviation T := (sub_go LIMIT_SUB_RE (limit_clause limit)).
Local Abbreviation F := (finditer_go LIMIT_RE).

Lemma signed_clause :
  exists x, limit_clause limit = chars "LIMIT -" ++ x /\
            x <> [] /\ Forall (fun c => is_digit c = true) x.
Proof.
  destruct limit as [|p|p]; try lia.
  exists (chars (NilEmpty.string_of_uint (Pos.to_uint p))).
  split; [reflexivity|]. split; [|apply uint_chars_digits].
  destruct (to_int_nonneg (Z.pos p)) as [d [Hd Hne]]; [lia|].
  simpl in Hd. injection Hd as ->.
  destruct d; simpl; congruence.
Qed.

Lemma signed_clause_unread pv t : lim_match pv (limit_clause limit ++ t) = None.
Proof.
  destruct signed_clause as [x [-> _]].
  unfold lim_match. destruct (word_before pv); reflexivity.
Qed.

(** Reading on from a written clause: nothing is found in it. *)
Lemma F_signed_clause pv t :
  exists pv', word_before pv' = true /\
    F pv (limit_clause limit ++ t) 0 = F pv' t 0.
Proof.
  pose proof (signed_clause_unread pv t) as Hn.
  destruct signed_clause as [x [Hx [Hne Hd]]]. rewrite Hx in *.
  exists (prev_after (Some "L"%char) (chars "IMIT -" ++ x)). split.
  - rewrite prev_after_app. destruct x as [|d x] using rev_ind.
    + congruence.
    + rewrite prev_after_last. apply Forall_app in Hd.
      destruct Hd as [_ Hd]. inversion Hd; subst.
      simpl. now apply digit_is_word.
  - change (chars "LIMIT -" ++ x) with ("L"%char :: (chars "IMIT -" ++ x)) in *.
    simpl app in *. rewrite F_copy by exact Hn.
    change ("I"%char :: "M"%char :: "I"%char :: "T"%char :: " "%char
            :: "-"%char :: x ++ t)
      with ((chars "IMIT -" ++ x) ++ t).
    apply find_limit_run.
    repeat (constructor; [reflexivity|]).
    eapply Forall_impl; [|exact Hd]. apply digit_not_L.
Qed.

Lemma F_T_signed n : forall s pv pv',
  length s <= n -> word_before pv = word_before pv' ->
  F pv' (T pv s 0) 0 = [].
Proof.
  induction n as [|n IH]; intros s pv pv' Hlen Hpv.
  - destruct s; [|simpl in Hlen; lia]. now rewrite T_nil, F_nil.
  - destruct s as [|c s]; [now rewrite T_nil, F_nil|].
    destruct (lim_match pv (c :: s)) as [[[[kw ws] ds] r3]|] eqn:E.
    + rewrite (T_match _ _ _ _ _ _ _ E).
      destruct (F_signed_clause pv'
                  (T (prev_after pv (kw ++ ws ++ ds)) r3 0)) as [pv1 [Hw ->]].
      apply lim_match_elim in E.
      destruct E as [Hs [_ [_ [Hwne [_ [Hdne [Hds _]]]]]]].
      apply IH.
      * apply (f_equal (@length ascii)) in Hs.
        rewrite !length_app in Hs.
        destruct ws; [congruence|]. simpl in Hs, Hlen. lia.
      * rewrite (app_assoc kw ws ds), after_digits_word by assumption.
        now rewrite Hw.
    + pose proof (T_stable limit pv pv' _ Hpv E) as E'.
      rewrite (T_copy _ _ _ _ E) in *. rewrite (F_copy _ _ _ E').
      apply IH; [simpl in Hlen; lia | reflexivity].
Qed.

Lemma F_append_signed : forall s pv,
  F pv s 0 = [] -> F pv (s ++ newline :: limit_clause limit) 0 = [].
Proof.
  induction s as [|c s IH]; intros pv H.
  - simpl app. rewrite F_copy.
    + rewrite <- (List.app_nil_r (limit_clause limit)).
      destruct (F_signed_clause (Some newline) []) as [pv1 [_ ->]].
      apply F_nil.
    + unfold lim_match. destruct (word_before pv); reflexivity.
  - destruct (lim_match pv (c :: s)) as [[[[kw ws] ds] r3]|] eqn:E.
    + destruct (find_limit_match _ _ _ _ _ _ E) as [m [_ [_ Hf]]].
      rewrite Hf in H. discriminate.
    + rewrite (F_copy _ _ _ E) in H.
      destruct (limit_clause_head limit) as [x Hx].
      pose proof (lim_match_append pv (c :: s) x E) as E'.
      rewrite <- Hx in E'.
      change ((c :: s) ++ newline :: limit_clause limit)
        with (c :: (s ++ newline :: limit_clause limit)).
      rewrite F_copy; [now apply IH | exact E'].
Qed.

End NegativeCeiling.

Lemma limit_digits_sub_signed sql limit :
  (limit < 0)%Z ->
  limit_digits (re_sub LIMIT_SUB_RE (limit_clause limit) sql) = None /\
  limit_values (re_sub LIMIT_SUB_RE (limit_clause limit) sql) = [].
Proof.
  intros H.
  assert (E : re_finditer LIMIT_RE (re_sub LIMIT_SUB_RE (limit_clause limit) sql)
              = []).
  { unfold re_finditer, re_sub.
    now apply (F_T_signed limit H (length sql)). }
  rewrite limit_digits_first, limit_values_digits, E. now split.
Qed.

Lemma limit_digits_append_signed sql limit :
  (limit < 0)%Z -> limit_digits sql = None ->
  limit_digits (sql ++ newline :: limit_clause limit) = None /\
  limit_values (sql ++ newline :: limit_clause limit) = [].
Proof.
  intros H Hn. rewrite limit_digits_first in Hn.
  assert (E : re_finditer LIMIT_RE (sql ++ newline :: limit_clause limit) = []).
  { unfold re_finditer in *. apply (F_append_signed limit H).
    destruct (finditer_go LIMIT_RE None sql 0); [reflexivity | discriminate]. }
  rewrite limit_digits_first, limit_values_digits, E. now split.
Qed.

Lemma ensure_limit_rewritten sql limit L r :
  limit_of sql = Some L -> (L > limit)%Z ->
  ensure_limit sql limit = Ok r ->
  (exists pieces tail,
     sql = with_clauses (fun x => x) pieces tail /\
     map snd pieces = limit_texts sql /\
     Forall (fun g => limit_texts g = []) (map fst pieces ++ [tail]) /\
     r = with_clauses (fun _ => limit_clause limit) pieces tail) /\
  ((0 <= limit)%Z ->
   limit_values r = map (fun _ => limit) (limit_values sql) /\
   limit_of r = Some limit) /\
  ((limit < 0)%Z -> limit_values r = [] /\ limit_of r = None).
Proof.
  intros HL Hgt Hok. apply ensure_limit_ok in Hok. rewrite HL in Hok.
  destruct (Z.gtb_spec L limit) as [_|Hle]; [|lia]. subst r.
  split; [|split].
  - destruct (limit_pieces sql) as [pieces [tail [H1 [H2 [H3 H4]]]]].
    exists pieces, tail. repeat split; auto.
  - intros H. split; [now apply limit_values_sub|].
    now apply (limit_of_sub sql limit L).
  - intros H. destruct (limit_digits_sub_signed sql limit H) as [H1 H2].
    split; [exact H2|]. now apply limit_of_none.
Qed.

Lemma ensure_limit_returns sql limit :
  (exists r, ensure_limit sql limit = Ok r) <->
  (forall ds, limit_digits sql = Some ds -> within_digit_limit ds = true) /\
  ((forall L, limit_of sql = Some L -> (L > limit)%Z) ->
   within_digit_limit (str_of_int (Z.abs limit)) = true).
Proof.
  split.
  - intros [r Hr]. split.
    + intros ds Hd. destruct (within_digit_limit ds) eqn:E; [reflexivity|].
      assert (H : ensure_limit sql limit = Raise DigitLimit).
      { apply ensure_limit_raise. split; [reflexivity|]. left. now exists ds. }
      congruence.
    + intros HL.
      destruct (within_digit_limit (str_of_int (Z.abs limit))) eqn:E;
        [reflexivity|].
      assert (H : ensure_limit sql limit = Raise DigitLimit).
      { apply ensure_limit_raise. split; [reflexivity|]. now right. }
      congruence.
  - intros [H1 H2].
    destruct (ensure_limit sql limit) as [r|e] eqn:E; [now exists r|].
    exfalso. apply ensure_limit_raise in E.
    destruct E as [_ [[ds [Hd Hw]]|[Hw HL]]].
    + rewrite (H1 _ Hd) in Hw. discriminate.
    + rewrite (H2 HL) in Hw. discriminate.
Qed.




(** C5. For a ceiling that is a number of rows, bounding twice is bounding
    once: what [ensure_limit] returns it returns again unchanged, and where
    it raises there is nothing to bound again.  For a negative ceiling it
    never is: the second call appends the clause once more to whatever the
    first returned. *)
Theorem ensure_limit_idempotent :
  forall (sql : str) (limit : Z),
    ((0 <= limit)%Z ->
     match ensure_limit sql limit with
     | Ok r => ensure_limit r limit
     | Raise e => Raise e
     end = ensure_limit sql limit) /\
    ((limit < 0)%Z ->
     forall r, ensure_limit sql limit = Ok r ->
               ensure_limit r limit = Ok (r ++ newline :: limit_clause limit)).
Proof.
  intros sql limit. split.
  - intros H.
    destruct (str_of_int_digits limit H) as [_ [_ Hint]].
    assert (Hfix : forall t,
              limit_digits t = Some (str_of_int limit) ->
              within_digit_limit (str_of_int (Z.abs limit)) = true ->
              ensure_limit t limit = Ok t).
    { intros t Ht Hw. rewrite ensure_limit_unfold, Ht.
      rewrite Z.abs_eq in Hw by exact H. rewrite Hw, Hint.
      destruct (Z.gtb_spec limit limit); [lia | reflexivity]. }
    destruct (ensure_limit sql limit) as [r|e] eqn:E; [|reflexivity].
    rewrite ensure_limit_unfold in E.
    destruct (limit_digits sql) as [ds|] eqn:Hd.
    + destruct (within_digit_limit ds) eqn:Hw; [|discriminate].
      destruct (int_of_digits ds >? limit)%Z eqn:Hgt.
      * destruct (within_digit_limit (str_of_int (Z.abs limit))) eqn:Hl;
          [|discriminate].
        apply Ok_inj in E. subst r.
        apply Hfix; [|reflexivity]. now apply (limit_digits_sub sql limit ds).
      * apply Ok_inj in E. subst r.
        now rewrite ensure_limit_unfold, Hd, Hw, Hgt.
    + destruct (within_digit_limit (str_of_int (Z.abs limit))) eqn:Hl;
        [|discriminate].
      apply Ok_inj in E. subst r.
      apply Hfix; [|reflexivity]. now apply limit_digits_append.
  - intros H r E.
    assert (Hagain : forall t,
              limit_digits t = None ->
              within_digit_limit (str_of_int (Z.abs limit)) = true ->
              ensure_limit t limit = Ok (t ++ newline :: limit_clause limit)).
    { intros t Ht Hw. now rewrite ensure_limit_unfold, Ht, Hw. }
    rewrite ensure_limit_unfold in E.
    destruct (limit_digits sql) as [ds|] eqn:Hd.
    + destruct (within_digit_limit ds) eqn:Hw; [|discriminate].
      pose proof (int_of_digits_nonneg ds (limit_digits_are_digits _ _ Hd)) as Hn.
      destruct (Z.gtb_spec (int_of_digits ds) limit) as [Hgt|Hle]; [|lia].
      destruct (within_digit_limit (str_of_int (Z.abs limit))) eqn:Hl;
        [|discriminate].
      apply Ok_inj in E. subst r.
      apply Hagain; [|reflexivity].
      now destruct (limit_digits_sub_signed sql limit H).
    + destruct (within_digit_limit (str_of_int (Z.abs limit))) eqn:Hl;
        [|discriminate].
      apply Ok_inj in E. subst r.
      apply Hagain; [|reflexivity].
      now destruct (limit_digits_append_signed sql limit H Hd).
Qed.

Lemma ensure_limit_idempotent_witness :
  match ensure_limit (chars "SELECT name FROM public.rawg_games") 50 with
  | Ok r => ensure_limit r 50
  | Raise e => Raise e
  end = ensure_limit (chars "SELECT name FROM public.rawg_games") 50 /\
  ensure_limit (chars "SELECT 1 LIMIT -5") (-5)
  = Ok (chars "SELECT 1 LIMIT -5" ++ newline :: limit_clause (-5)).
Proof.
  split.
  - apply (ensure_limit_idempotent (chars "SELECT name FROM public.rawg_games") 50).
    lia.
  - apply (ensure_limit_idempotent (chars "SELECT 1 LIMIT 7") (-5)).
    + lia.
    + vm_compute. reflexivity.
Defined.

(** A negative ceiling is written with a sign, which [LIMIT_RE] does not
    read as a limit: the clause is appended again by the second call. *)
Lemma ensure_limit_twice_negative :
  ensure_limit (chars "SELECT 1") (-5)
  = Ok (chars "SELECT 1" ++ newline :: chars "LIMIT -5") /\
  ensure_limit (chars "SELECT 1" ++ newline :: chars "LIMIT -5") (-5)
  = Ok (chars "SELECT 1" ++ newline :: chars "LIMIT -5"
        ++ newline :: chars "LIMIT -5") /\
  match ensure_limit (chars "SELECT 1") (-5) with
  | Ok r => ensure_limit r (-5)
  | Raise e => Raise e
  end <> ensure_limit (chars "SELECT 1") (-5).
Proof.
  split; [vm_compute; reflexivity|].
  split; [vm_compute; reflexivity|].
  vm_compute. discriminate.
Qed.

(** C10. When the first limit of a statement exceeds the ceiling, whatever
    the ceiling, [ensure_limit] writes [LIMIT N] in the place of every
    limit clause of the text, those of nested subqueries and those below
    the ceiling included, and keeps all the text between them; for a
    ceiling that is a number of rows the result has as many limits as the
    original and each reads [N], and for a negative ceiling, which is
    written with a sign, it has none.  It does so exactly when the first limit
    and the ceiling have no more digits than the interpreter converts, and
    raises otherwise. *)
Theorem ensure_limit_rewrites_all :
  forall (sql : str) (limit L : Z),
    limit_of sql = Some L -> (L > limit)%Z ->
    (forall r, ensure_limit sql limit = Ok r ->
       (exists pieces tail,
          sql = with_clauses (fun x => x) pieces tail /\
          map snd pieces = limit_texts sql /\
          Forall (fun g => limit_texts g = []) (map fst pieces ++ [tail]) /\
          r = with_clauses (fun _ => limit_clause limit) pieces tail) /\
       ((0 <= limit)%Z ->
        limit_values r = map (fun _ => limit) (limit_values sql)) /\
       ((limit < 0)%Z -> limit_values r = [])) /\
    ((exists r, ensure_limit sql limit = Ok r) <->
     (forall ds, limit_digits sql = Some ds -> within_digit_limit ds = true) /\
     within_digit_limit (str_of_int (Z.abs limit)) = true) /\
    (forall e, ensure_limit sql limit = Raise e -> e = DigitLimit).
Proof.
  intros sql limit L HL Hgt. split; [|split].
  - intros r Hok.
    destruct (ensure_limit_rewritten sql limit L r HL Hgt Hok)
      as [H1 [H2 H3]].
    split; [exact H1|]. split; intros H; [now apply H2 | now apply H3].
  - rewrite ensure_limit_returns. split; intros [H1 H2]; (split; [exact H1|]).
    + apply H2. intros L' HL'. congruence.
    + intros _. exact H2.
  - intros e He. apply ensure_limit_raise in He. tauto.
Qed.

Lemma ensure_limit_rewrites_all_witness :
  (forall r,
     ensure_limit
       (chars "SELECT * FROM (SELECT id FROM public.rawg_games LIMIT 500) t LIMIT 3")
       200 = Ok r ->
     (exists pieces tail,
        chars "SELECT * FROM (SELECT id FROM public.rawg_games LIMIT 500) t LIMIT 3"
        = with_clauses (fun x => x) pieces tail /\
        map snd pieces
        = limit_texts
            (chars "SELECT * FROM (SELECT id FROM public.rawg_games LIMIT 500) t LIMIT 3")
        /\
        Forall (fun g => limit_texts g = []) (map fst pieces ++ [tail]) /\
        r = with_clauses (fun _ => limit_clause 200) pieces tail) /\
     ((0 <= 200)%Z ->
      limit_values r
      = map (fun _ => 200%Z)
          (limit_values
             (chars "SELECT * FROM (SELECT id FROM public.rawg_games LIMIT 500) t LIMIT 3"))) /\
     ((200 < 0)%Z -> limit_values r = [])) /\
  ((exists r,
      ensure_limit
        (chars "SELECT * FROM (SELECT id FROM public.rawg_games LIMIT 500) t LIMIT 3")
        200 = Ok r) <->
   (forall ds,
      limit_digits
        (chars "SELECT * FROM (SELECT id FROM public.rawg_games LIMIT 500) t LIMIT 3")
      = Some ds -> within_digit_limit ds = true) /\
   within_digit_limit (str_of_int (Z.abs 200)) = true) /\
  (forall e,
     ensure_limit
       (chars "SELECT * FROM (SELECT id FROM public.rawg_games LIMIT 500) t LIMIT 3")
       200 = Raise e -> e = DigitLimit).
Proof.
  apply (ensure_limit_rewrites_all
           (chars "SELECT * FROM (SELECT id FROM public.rawg_games LIMIT 500) t LIMIT 3")
           200 500).
  - vm_compute. reflexivity.
  - lia.
Defined.

(** A first limit of 4301 digits, above the ceiling: [int] raises and
    nothing is rewritten. *)
Lemma long_limit_not_rewritten :
  let sql := chars "SELECT * FROM (SELECT id FROM public.rawg_games LIMIT "
             ++ repeat "9"%char 4301 ++ chars ") t LIMIT 500" in
  (exists L, limit_of sql = Some L /\ (L > 200)%Z) /\
  limit_values sql <> [] /\
  ensure_limit sql 200 = Raise DigitLimit.
Proof.
  cbv zeta. split; [|split].
  - eexists. split; vm_compute; reflexivity.
  - vm_compute. discriminate.
  - vm_compute. reflexivity.
Qed.

(** * Further properties *)

(** ** [sanitize_sql]: what is accepted *)

Lemma contains_trimmed m sql :
  m <> [] -> head_sat trim_char m = false ->
  head_sat trim_char (rev m) = false ->
  contains m (rstrip_semi (strip sql)) = contains m sql.
Proof.
  intros Hne Hh Hl.
  destruct (trim_decompose sql) as [a [b [Hsql [Ha Hb]]]].
  destruct (contains m sql) eqn:E.
  - apply contains_spec in E. destruct E as [pre [post E]].
    rewrite Hsql in E. symmetry in E.
    destruct (core_inside _ _ _ _ _ _ Ha Hb Hne Hh Hl E)
      as [pre' [post' [_ [_ Hs]]]].
    apply contains_spec. eauto.
  - rewrite Hsql in E. now apply contains_false_app in E.
Qed.

Lemma token_search ws s :
  forallb wordy ws = true ->
  found (re_search (token_re ws) s) = false <-> ~ standalone ws s.
Proof. intros H. apply iff_false. now apply search_token. Qed.

(** The text [sanitize_sql] returns is the trimmed candidate, and it is
    returned exactly when it holds no terminator and no comment marker, no
    forbidden keyword and no catalog name as a whole word, begins with
    [SELECT] or [WITH] as a whole word, names the allowed table after
    [FROM] or [JOIN], and parses. *)
Theorem sanitize_sql_accepts :
  forall (parse_one : str -> bool) (sql s : str),
    sanitize_sql parse_one sql = Ok s <->
    s = rstrip_semi (strip sql) /\
    ~ In ";"%char s /\
    contains (chars "--") s = false /\
    contains (chars "/*") s = false /\
    contains (chars "*/") s = false /\
    ~ standalone FORBIDDEN_WORDS s /\
    ~ standalone CATALOG_WORDS s /\
    token_at READ_WORDS [] s /\
    allowed_ref s /\
    parse_one s = true.
Proof.
  intros parse_one sql s.
  assert (Hsemi : forall t, contains (chars ";") t = false <-> ~ In ";"%char t).
  { intros t. apply iff_false. rewrite contains_spec. split.
    - intros [pre [post ->]]. apply in_or_app. right. now left.
    - intros H. apply in_split in H. destruct H as [pre [post ->]].
      now exists pre, post. }
  rewrite <- (Hsemi s).
  rewrite <- (token_search FORBIDDEN_WORDS s eq_refl).
  rewrite <- (token_search CATALOG_WORDS s eq_refl).
  rewrite <- read_match, <- table_search.
  change (token_re FORBIDDEN_WORDS) with FORBIDDEN.
  change (token_re CATALOG_WORDS) with CATALOG_FORBIDDEN.
  unfold sanitize_sql.
  set (t := rstrip_semi (strip sql)).
  split.
  - destruct (contains (chars ";") t) eqn:E1; [discriminate|].
    destruct (contains (chars "--") t) eqn:E2; [discriminate|].
    destruct (contains (chars "/*") t) eqn:E3; [discriminate|].
    destruct (contains (chars "*/") t) eqn:E4; [discriminate|].
    destruct (found (re_search FORBIDDEN t)) eqn:E5; [discriminate|].
    destruct (found (re_search CATALOG_FORBIDDEN t)) eqn:E6; [discriminate|].
    destruct (found (re_match READ_RE t)) eqn:E7; [|discriminate].
    destruct (found (re_search TABLE_RE t)) eqn:E8; [|discriminate].
    destruct (parse_one t) eqn:E9; [|discriminate].
    simpl. intros H. apply Ok_inj in H. subst s. tauto.
  - intros [-> [E1 [E2 [E3 [E4 [E5 [E6 [E7 [E8 E9]]]]]]]]].
    now rewrite E1, E2, E3, E4, E5, E6, E7, E8, E9.
Qed.

(** A rejection decided by the textual checks does not depend on the
    parser: it is consulted only once they have all passed. *)
Theorem sanitize_sql_parser_last :
  forall (p1 p2 : str -> bool) (sql : str) (e : exn),
    sanitize_sql p1 sql = Raise e -> e <> SyntaxInvalid ->
    sanitize_sql p2 sql = Raise e.
Proof.
  intros p1 p2 sql e. unfold sanitize_sql.
  repeat match goal with
         | |- context [if ?b then _ else _] =>
             lazymatch b with
             | p1 _ => fail
             | p2 _ => fail
             | _ => destruct b; try (intros H _; exact H)
             end
         end.
  destruct (p1 (rstrip_semi (strip sql))); [discriminate|].
  intros H Hne. injection H as <-. congruence.
Qed.

Lemma sanitize_sql_parser_last_witness :
  sanitize_sql (fun _ => false) (chars "DROP TABLE x") = Raise ForbiddenKeyword.
Proof.
  apply (sanitize_sql_parser_last (fun _ => true) (fun _ => false)
           (chars "DROP TABLE x") ForbiddenKeyword).
  - vm_compute. reflexivity.
  - discriminate.
Defined.

(** A candidate that holds a comment marker anywhere is never accepted: it
    is rejected for its terminators or for the marker; the latter exactly
    when no terminator is left after trimming. *)
Theorem sanitize_sql_comments :
  forall (parse_one : str -> bool) (sql : str),
    (sanitize_sql parse_one sql = Raise CommentsPresent <->
     contains (chars ";") (rstrip_semi (strip sql)) = false /\
     (contains (chars "--") sql = true \/ contains (chars "/*") sql = true
      \/ contains (chars "*/") sql = true)) /\
    (contains (chars "--") sql = true \/ contains (chars "/*") sql = true
     \/ contains (chars "*/") sql = true ->
     sanitize_sql parse_one sql = Raise MultipleStatements \/
     sanitize_sql parse_one sql = Raise CommentsPresent).
Proof.
  intros parse_one sql.
  rewrite <- (contains_trimmed (chars "--") sql) by (discriminate || reflexivity).
  rewrite <- (contains_trimmed (chars "/*") sql) by (discriminate || reflexivity).
  rewrite <- (contains_trimmed (chars "*/") sql) by (discriminate || reflexivity).
  unfold sanitize_sql. set (t := rstrip_semi (strip sql)).
  destruct (contains (chars ";") t); [intuition discriminate|].
  destruct (contains (chars "--") t); [simpl; intuition|].
  destruct (contains (chars "/*") t); [simpl; intuition|].
  destruct (contains (chars "*/") t); [simpl; intuition|].
  simpl.
  repeat match goal with
         | |- context [if ?b then _ else _] => destruct b
         end; intuition discriminate.
Qed.

(** A candidate that holds [pg_catalog] or [information_schema] as a whole
    word is never accepted; it is rejected as a forbidden schema exactly
    when the three earlier checks let it through. *)
Theorem sanitize_sql_catalog :
  forall (parse_one : str -> bool) (sql : str),
    (sanitize_sql parse_one sql = Raise ForbiddenSchema <->
     contains (chars ";") (rstrip_semi (strip sql)) = false /\
     contains (chars "--") sql = false /\ contains (chars "/*") sql = false /\
     contains (chars "*/") sql = false /\
     ~ standalone FORBIDDEN_WORDS sql /\ standalone CATALOG_WORDS sql) /\
    (standalone CATALOG_WORDS sql ->
     sanitize_sql parse_one sql = Raise MultipleStatements \/
     sanitize_sql parse_one sql = Raise CommentsPresent \/
     sanitize_sql parse_one sql = Raise ForbiddenKeyword \/
     sanitize_sql parse_one sql = Raise ForbiddenSchema).
Proof.
  intros parse_one sql.
  rewrite <- (contains_trimmed (chars "--") sql) by (discriminate || reflexivity).
  rewrite <- (contains_trimmed (chars "/*") sql) by (discriminate || reflexivity).
  rewrite <- (contains_trimmed (chars "*/") sql) by (discriminate || reflexivity).
  rewrite <- (iff_false _ _ (forbidden_search sql)).
  rewrite <- (catalog_search sql).
  unfold sanitize_sql. set (t := rstrip_semi (strip sql)).
  destruct (contains (chars ";") t); [intuition discriminate|].
  destruct (contains (chars "--") t); [simpl; intuition discriminate|].
  destruct (contains (chars "/*") t); [simpl; intuition discriminate|].
  destruct (contains (chars "*/") t); [simpl; intuition discriminate|].
  simpl.
  destruct (found (re_search FORBIDDEN t)); [intuition discriminate|].
  destruct (found (re_search CATALOG_FORBIDDEN t)); [intuition|].
  repeat match goal with
         | |- context [if ?b then _ else _] => destruct b
         end; intuition discriminate.
Qed.


(** ** [extract_first_select] and what [sanitize_sql] makes of its result *)

(** [extract_first_select] fails exactly when the text it searches holds
    neither [SELECT] nor [WITH] as a whole word. *)
Theorem extract_no_statement :
  forall txt : str,
    extract_first_select txt = Raise NoStatementFound <->
    ~ standalone READ_WORDS (statement_text txt).
Proof.
  intros txt. rewrite extract_unfold, <- select_search_found.
  destruct (re_search SELECT_RE (statement_text txt)); simpl.
  - split; [discriminate | intros H; now elim H].
  - split; [intros _; discriminate | reflexivity].
Qed.

Lemma token_start_trimmed ws body :
  forallb wordy ws = true ->
  token_at ws [] body -> token_at ws [] (rstrip_semi (strip body)).
Proof.
  intros Hws [w [u [post [Hw [Hb [Hm [_ Haft]]]]]]].
  rewrite forallb_forall in Hws.
  pose proof (Hws _ Hw) as Hwc. apply wordy_chars in Hwc.
  destruct Hwc as [Hne Hall].
  pose proof (ci_match_nonempty _ _ Hm Hne) as Hune.
  pose proof (ci_match_word _ _ Hm Hall) as Huw.
  destruct (all_word_not_trim u Hune Huw) as [Hh Hl].
  destruct (trim_decompose body) as [a [b [Hbody [Ha Hb']]]].
  assert (E : [] ++ u ++ post = a ++ rstrip_semi (strip body) ++ b)
    by (simpl; congruence).
  destruct (core_inside _ _ _ _ _ _ Ha Hb' Hune Hh Hl E)
    as [pre' [post' [Hpre [Hpost Hs]]]].
  symmetry in Hpre. apply app_eq_nil in Hpre. destruct Hpre as [_ ->].
  exists w, u, post'. repeat split; auto.
  rewrite Hpost, after_trimmed in Haft; assumption.
Qed.

(** The candidate [extract_first_select] returns begins with [SELECT] or
    [WITH] as a whole word; hence [sanitize_sql] never answers "Only
    SELECT/WITH allowed" to it. *)
Theorem extract_begins_with_keyword :
  forall (parse_one : str -> bool) (txt c : str),
    extract_first_select txt = Ok c ->
    token_at READ_WORDS [] c /\
    sanitize_sql parse_one c <> Raise NotReadStatement.
Proof.
  intros parse_one txt c. rewrite extract_unfold.
  destruct (re_search SELECT_RE (statement_text txt)) as [m|] eqn:E;
    [|discriminate].
  intros H. apply Ok_inj in H. subst c.
  unfold re_search in E. apply search_from_first in E.
  destruct E as [pre [body [Hs [Hm _]]]].
  pose proof (select_match (prev_after None pre) body) as Hsel.
  rewrite Hm in Hsel. destruct Hsel as [-> Htok].
  apply token_at_exec in Htok; [|reflexivity].
  assert (Hstart : token_at READ_WORDS [] body).
  { destruct Htok as [w [u [post [Hw [Hb [Hmu [_ Ha]]]]]]].
    exists w, u, post. repeat split; auto. }
  pose proof (token_start_trimmed READ_WORDS _ eq_refl Hstart) as Hc.
  split; [exact Hc|].
  pose proof (token_start_trimmed READ_WORDS _ eq_refl Hc) as Hc2.
  apply read_match in Hc2. unfold sanitize_sql. rewrite Hc2. cbn [negb].
  repeat match goal with
         | |- context [if ?b then _ else _] => destruct b
         end; discriminate.
Qed.

Lemma extract_begins_with_keyword_witness :
  token_at READ_WORDS [] (chars "with t as (select 1) select * from t") /\
  sanitize_sql (fun _ => true) (chars "with t as (select 1) select * from t")
  <> Raise NotReadStatement.
Proof.
  apply (extract_begins_with_keyword (fun _ => true)
           (chars "Sure: with t as (select 1) select * from t;")).
  vm_compute. reflexivity.
Defined.


(** ** [ensure_limit]: the bound it leaves *)

Lemma limit_of_digits s L :
  limit_of s = Some L ->
  exists ds, Forall (fun c => is_digit c = true) ds /\ L = int_of_digits ds.
Proof.
  unfold limit_of, re_search.
  destruct (search_from LIMIT_RE None s) as [m|] eqn:E; [|discriminate].
  intros H. injection H as <-.
  apply search_from_first in E. destruct E as [pre [t [_ [Hm _]]]].
  rewrite limit_match_at in Hm.
  destruct (lim_match (prev_after None pre) t) as [[[[kw ws] ds] r3]|] eqn:El;
    [|discriminate].
  injection Hm as <-. apply lim_match_elim in El.
  exists ds. split; [tauto | reflexivity].
Qed.

Lemma ensure_limit_range sql limit r :
  (0 <= limit)%Z -> ensure_limit sql limit = Ok r ->
  exists L, limit_of r = Some L /\ (0 <= L <= limit)%Z.
Proof.
  intros H Hok. apply ensure_limit_ok in Hok.
  destruct (limit_of sql) as [L|] eqn:HL.
  - destruct (Z.gtb_spec L limit) as [Hgt|Hle]; subst r.
    + exists limit. split; [|lia]. now apply (limit_of_sub sql limit L).
    + exists L. split; [exact HL|].
      destruct (limit_of_digits _ _ HL) as [ds [Hd ->]].
      pose proof (int_of_digits_nonneg ds Hd). lia.
  - subst r. exists limit. split; [|lia]. apply limit_of_none in HL.
    now rewrite limit_of_first, limit_values_append.
Qed.



(** ** [ensure_limit]: what it leaves alone *)

Lemma clause_chars limit c :
  (0 <= limit)%Z -> In c (newline :: limit_clause limit) ->
  is_word c = true \/ is_space c = true.
Proof.
  intros H Hin. destruct (str_of_int_digits limit H) as [_ [Hd _]].
  unfold limit_clause in Hin. simpl in Hin.
  repeat (destruct Hin as [<-|Hin]; [auto|]).
  rewrite Forall_forall in Hd. left. now apply digit_is_word, Hd.
Qed.

Lemma limit_text_chars pv s kw ws ds r3 c :
  lim_match pv s = Some (kw, ws, ds, r3) -> In c (kw ++ ws ++ ds) ->
  is_word c = true \/ is_space c = true.
Proof.
  intros H Hin. apply lim_match_elim in H.
  destruct H as [_ [Hk [_ [_ [Hws [_ [Hds _]]]]]]].
  apply in_app_or in Hin. destruct Hin as [Hin|Hin].
  - left. assert (Hw : forallb is_word kw = true)
      by (eapply ci_match_word; [exact Hk | reflexivity]).
    rewrite forallb_forall in Hw. now apply Hw.
  - apply in_app_or in Hin. rewrite Forall_forall in Hws, Hds.
    destruct Hin as [Hin|Hin]; [right; now apply Hws|].
    left. now apply digit_is_word, Hds.
Qed.

Lemma sub_limit_keeps limit c :
  (0 <= limit)%Z -> is_word c = false -> is_space c = false ->
  forall n s pv, length s <= n ->
    (In c (sub_go LIMIT_SUB_RE (limit_clause limit) pv s 0) <-> In c s).
Proof.
  intros H Hw Hs. induction n as [|n IH]; intros s pv Hlen.
  - destruct s; [|simpl in Hlen; lia]. now rewrite T_nil.
  - destruct s as [|a s]; [now rewrite T_nil|].
    destruct (lim_match pv (a :: s)) as [[[[kw ws] ds] r3]|] eqn:E.
    + rewrite (T_match _ _ _ _ _ _ _ E).
      pose proof (limit_text_chars _ _ _ _ _ _ c E) as Hm.
      pose proof (clause_chars limit c H) as Hc.
      apply lim_match_elim in E.
      destruct E as [Hsplit [_ [_ [Hwne _]]]].
      rewrite Hsplit, !in_app_iff, IH.
      * rewrite !in_app_iff in Hm. simpl in Hc.
        split; intros [Hin|Hin]; auto.
        -- exfalso. destruct Hc as [Hc|Hc]; [now right | congruence | congruence].
        -- exfalso. destruct Hm as [Hm|Hm]; [now left | congruence | congruence].
        -- destruct Hin as [Hin|[Hin|Hin]]; auto;
             exfalso; (destruct Hm as [Hm|Hm]; [tauto | congruence | congruence]).
      * apply (f_equal (@length ascii)) in Hsplit.
        rewrite !length_app in Hsplit.
        destruct ws; [congruence|]. simpl in Hsplit, Hlen. lia.
    + rewrite (T_copy _ _ _ _ E). simpl. rewrite IH; [tauto|].
      simpl in Hlen. lia.
Qed.

Lemma ensure_limit_other_chars sql limit r c :
  (0 <= limit)%Z -> is_word c = false -> is_space c = false ->
  ensure_limit sql limit = Ok r ->
  (In c r <-> In c sql).
Proof.
  intros H Hw Hs Hok. apply ensure_limit_ok in Hok.
  destruct (limit_of sql) as [L|].
  - destruct (L >? limit)%Z; subst r; [|tauto].
    unfold re_sub. now apply (sub_limit_keeps limit c H Hw Hs (length sql)).
  - subst r. rewrite in_app_iff. split; [|auto].
    intros [Hin|Hin]; [exact Hin|].
    exfalso. destruct (clause_chars limit c H Hin); congruence.
Qed.

(** [ensure_limit] neither adds nor removes a character that is neither a
    word character nor whitespace: terminators, quotes, brackets, operators
    and the characters of comment markers are exactly those of the input. *)
Theorem ensure_limit_keeps_punctuation :
  forall (sql : str) (limit : Z) (r : str) (c : ascii),
    (0 <= limit)%Z -> is_word c = false -> is_space c = false ->
    ensure_limit sql limit = Ok r ->
    (In c r <-> In c sql).
Proof. intros sql limit r c. apply ensure_limit_other_chars. Qed.

Lemma ensure_limit_keeps_punctuation_witness :
  In ";"%char (chars "SELECT 1 LIMIT 50")
  <-> In ";"%char (chars "SELECT 1 LIMIT 900").
Proof.
  apply (ensure_limit_keeps_punctuation (chars "SELECT 1 LIMIT 900") 50
           (chars "SELECT 1 LIMIT 50") ";"%char).
  - lia.
  - reflexivity.
  - reflexivity.
  - vm_compute. reflexivity.
Defined.


(** ** [run_sql]: which rows come back *)

Lemma str_eqb_eq a : forall b, str_eqb a b = true <-> a = b.
Proof.
  induction a as [|x a IH]; intros [|y b]; simpl;
    try (split; [discriminate | congruence]); [tauto|].
  rewrite andb_true_iff, Ascii.eqb_eq, IH. split.
  - intros [-> ->]. reflexivity.
  - intros H. injection H as -> ->. now split.
Qed.

Lemma filter_enumerate_firstn {A : Type} (m : Z) (l : list A) : forall a,
  map snd (filter (fun ir : nat * A => (Z.of_nat (fst ir) <? m)%Z)
             (combine (seq a (length l)) l))
  = firstn (Z.to_nat m - a) l.
Proof.
  induction l as [|x t IH]; intros a; simpl.
  - now rewrite firstn_nil.
  - destruct (Z.ltb_spec (Z.of_nat a) m) as [Hlt|Hge]; simpl; rewrite IH.
    + replace (Z.to_nat m - a) with (S (Z.to_nat m - S a)) by lia. reflexivity.
    + replace (Z.to_nat m - a) with 0 by lia.
      replace (Z.to_nat m - S a) with 0 by lia. reflexivity.
Qed.

Lemma dict_set_fresh {scalar : Type} k (v : scalar) d :
  ~ In k (map fst d) -> dict_set scalar k v d = d ++ [(k, v)].
Proof.
  induction d as [|[k' v'] d IH]; simpl; [reflexivity|].
  intros H. destruct (str_eqb k k') eqn:E.
  - apply str_eqb_eq in E. exfalso. apply H. left. now symmetry.
  - rewrite IH; [reflexivity | tauto].
Qed.

Lemma dict_distinct {scalar : Type} (mapping : list (str * scalar)) :
  NoDup (map fst mapping) -> dict scalar mapping = mapping.
Proof.
  unfold dict.
  assert (H : forall acc,
            NoDup (map fst (acc ++ mapping)) ->
            fold_left (fun d kv => dict_set scalar (fst kv) (snd kv) d)
              mapping acc = acc ++ mapping).
  { induction mapping as [|[k v] l IH]; intros acc Hnd; simpl.
    - now rewrite List.app_nil_r.
    - rewrite dict_set_fresh.
      + rewrite IH; rewrite <- app_assoc; [reflexivity | exact Hnd].
      + rewrite map_app in Hnd. simpl in Hnd.
        apply NoDup_remove_2 in Hnd. intros Hin. apply Hnd.
        apply in_or_app. now left. }
  intros Hnd. now apply (H []).
Qed.

(** [run_sql] hands back the first [max_rows] rows of the cursor, in the
    cursor's order and, their column names being distinct, unchanged; an
    error of the database is passed on. *)
Theorem run_sql_first_rows :
  forall (scalar : Type)
         (db_execute : str -> result (list (list (str * scalar))))
         (sql : str) (max_rows : Z),
    (forall res, db_execute sql = Ok res ->
                 Forall (fun r => NoDup (map fst r)) res) ->
    run_sql scalar db_execute sql max_rows
    = match db_execute sql with
      | Ok res => Ok (firstn (Z.to_nat max_rows) res)
      | Raise e => Raise e
      end.
Proof.
  intros scalar db sql max_rows Hnd. unfold run_sql.
  destruct (db sql) as [res|e]; [|reflexivity].
  specialize (Hnd res eq_refl). f_equal.
  rewrite <- (map_map snd (dict scalar)). unfold enumerate.
  rewrite filter_enumerate_firstn, Nat.sub_0_r.
  rewrite <- (map_id (firstn (Z.to_nat max_rows) res)) at 2.
  apply map_ext_in. intros r Hr. apply dict_distinct.
  rewrite Forall_forall in Hnd. apply Hnd. eapply in_firstn; eauto.
Qed.

Lemma run_sql_first_rows_witness :
  run_sql Z (fun _ => Ok [[(chars "n", 1%Z)]; [(chars "n", 2%Z)];
                          [(chars "n", 3%Z)]])
    (chars "SELECT n FROM public.rawg_games") 2
  = Ok [[(chars "n", 1%Z)]; [(chars "n", 2%Z)]].
Proof.
  apply (run_sql_first_rows Z
           (fun _ => Ok [[(chars "n", 1%Z)]; [(chars "n", 2%Z)];
                         [(chars "n", 3%Z)]])
           (chars "SELECT n FROM public.rawg_games") 2).
  intros res H. injection H as <-.
  repeat constructor; simpl; tauto.
Defined.


(** ** The series of [ask_visual]: columns, failures and the rows kept *)

Lemma index_of_some k : forall ks i,
  index_of k ks = Some i -> nth_error ks i = Some k.
Proof.
  induction ks as [|k' ks IH]; intros i; simpl; [discriminate|].
  destruct (str_eqb k k') eqn:E.
  - intros H. injection H as <-. apply str_eqb_eq in E. now subst.
  - destruct (index_of k ks) as [i'|]; [|discriminate].
    intros H. injection H as <-. simpl. now apply IH.
Qed.

Lemma index_of_none k : forall ks, index_of k ks = None <-> ~ In k ks.
Proof.
  induction ks as [|k' ks IH]; simpl; [tauto|].
  destruct (str_eqb k k') eqn:E.
  - apply str_eqb_eq in E. subst.
    split; [discriminate | intros H; exfalso; apply H; now left].
  - assert (Hne : k' <> k).
    { intros ->. rewrite (proj2 (str_eqb_eq k k) eq_refl) in E. discriminate. }
    destruct (index_of k ks) as [i|].
    + split; [discriminate|]. intros H.
      assert (Hn : ~ In k ks) by tauto. apply IH in Hn. discriminate.
    + split; [|reflexivity]. intros _ [Hk|Hin]; [congruence|].
      now apply (proj1 IH eq_refl).
Qed.

(** The columns plotted are the ones named [label] and [value] when both
    names are present, wherever they stand; otherwise the first two, which
    must exist. *)
Theorem pick_columns_named :
  forall (cols : list str) (i j : nat),
    pick_columns cols = Ok (i, j) ->
    (nth_error cols i = Some label_name /\ nth_error cols j = Some value_name)
    \/ ((~ In label_name cols \/ ~ In value_name cols) /\
        i = 0 /\ j = 1 /\ 2 <= length cols).
Proof.
  intros cols i j. unfold pick_columns.
  destruct (index_of label_name cols) as [i'|] eqn:Ei;
    destruct (index_of value_name cols) as [j'|] eqn:Ej.
  - intros H. injection H as <- <-. left.
    split; now apply index_of_some.
  - destruct (Nat.eqb_spec (length (firstn 2 cols)) 2) as [E|E];
      [|discriminate].
    intros H. injection H as <- <-. right.
    rewrite length_firstn in E. apply index_of_none in Ej.
    repeat split; [tauto | lia].
  - destruct (Nat.eqb_spec (length (firstn 2 cols)) 2) as [E|E];
      [|discriminate].
    intros H. injection H as <- <-. right.
    rewrite length_firstn in E. apply index_of_none in Ei.
    repeat split; [tauto | lia].
  - destruct (Nat.eqb_spec (length (firstn 2 cols)) 2) as [E|E];
      [|discriminate].
    intros H. injection H as <- <-. right.
    rewrite length_firstn in E. apply index_of_none in Ei.
    repeat split; [tauto | lia].
Qed.

Lemma pick_columns_named_witness :
  (nth_error [chars "value"; chars "n"; chars "label"] 2 = Some label_name /\
   nth_error [chars "value"; chars "n"; chars "label"] 0 = Some value_name)
  \/ ((~ In label_name [chars "value"; chars "n"; chars "label"]
       \/ ~ In value_name [chars "value"; chars "n"; chars "label"]) /\
      2 = 0 /\ 0 = 1 /\ 2 <= length [chars "value"; chars "n"; chars "label"]).
Proof.
  apply (pick_columns_named [chars "value"; chars "n"; chars "label"] 2 0).
  reflexivity.
Defined.

Lemma add_keys_nil l : forall ks, fold_left add_key l ks = [] <-> l = [] /\ ks = [].
Proof.
  induction l as [|k l IH]; intros ks; simpl; [tauto|].
  rewrite IH. split; [|intros [H _]; discriminate].
  intros [_ H]. exfalso. unfold add_key in H.
  destruct (existsb (str_eqb k) ks) eqn:E.
  - subst ks. discriminate.
  - now apply app_eq_nil in H.
Qed.

Lemma all_keys_nil {scalar : Type} (rows : list (row scalar)) :
  all_keys scalar rows = [] <-> Forall (fun r => r = []) rows.
Proof.
  unfold all_keys.
  assert (H : forall acc,
            fold_left (fun ks (r : row scalar) => fold_left add_key (map fst r) ks)
              rows acc = [] <-> acc = [] /\ Forall (fun r => r = []) rows).
  { induction rows as [|r rows IH]; intros acc; simpl.
    - split; [intros ->; split; [reflexivity | constructor] | tauto].
    - rewrite IH, add_keys_nil. split.
      + intros [[Hr ->] Hf]. split; [reflexivity|]. constructor; [|exact Hf].
        now destruct r.
      + intros [-> Hf]. inversion Hf; subst. tauto. }
  rewrite H. tauto.
Qed.

Lemma pick_columns_single k : pick_columns [k] = Raise ShapeError.
Proof.
  unfold pick_columns. cbn [index_of].
  destruct (str_eqb label_name k) eqn:E1;
    destruct (str_eqb value_name k) eqn:E2; try reflexivity.
  apply str_eqb_eq in E1, E2. rewrite <- E1 in E2. discriminate E2.
Qed.

Section SeriesMore.

Variable scalar : Type.
Variable null : scalar.
Variable astype_str : scalar -> str.
Variable number : Type.
Variable zero : number.
Variable to_numeric : scalar -> option number.
Variable num_leb : number -> number -> bool.

Local Abbreviation chart :=
  (chart_series scalar null astype_str number zero to_numeric num_leb).

(** [ask_visual] answers "No rows returned" exactly when no row has a
    column (in particular when there is no row), and fails on the column
    names exactly when the rows have a single column; the reshaping has no
    other failure. *)
Theorem chart_series_failures (rows : list (row scalar)) :
  (chart rows = Raise EmptyResult <-> Forall (fun r => r = []) rows) /\
  (chart rows = Raise ShapeError <->
   rows <> [] /\ length (all_keys scalar rows) = 1) /\
  (forall e, chart rows = Raise e -> e = EmptyResult \/ e = ShapeError).
Proof.
  unfold chart_series, df_empty. simpl columns. simpl records.
  rewrite <- all_keys_nil.
  destruct (all_keys scalar rows) as [|k ks] eqn:Ek.
  - repeat split; try tauto; try discriminate.
    + intros [_ H]. discriminate.
    + intros e H. injection H as <-. now left.
  - destruct rows as [|r rows].
    { unfold all_keys in Ek. discriminate. }
    simpl map.
    destruct ks as [|k2 ks].
    + rewrite pick_columns_single.
      repeat split; try discriminate; auto.
      intros e H. injection H as <-. now right.
    + destruct (pick_columns_total (k :: k2 :: ks)) as [i [j Hp]];
        [simpl; lia|].
      rewrite Hp. repeat split; try discriminate.
      * intros [_ H]. simpl in H. lia.
Qed.

Hypothesis num_leb_total : forall x y, num_leb x y = true \/ num_leb y x = true.
Hypothesis num_leb_trans :
  forall x y z, num_leb x y = true -> num_leb y z = true -> num_leb x z = true.

Lemma sorted_firstn_skipn {A : Type} (R : A -> A -> Prop) : forall n l a b,
  StronglySorted R l -> In a (firstn n l) -> In b (skipn n l) -> R a b.
Proof.
  induction n as [|n IH]; intros l a b Hs Ha Hb; [contradiction|].
  destruct Hs as [|x l Hs Hx]; [contradiction|].
  simpl in Ha, Hb. destruct Ha as [<-|Ha].
  - rewrite Forall_forall in Hx. apply Hx.
    rewrite <- (firstn_skipn n l). apply in_or_app. now right.
  - eapply IH; eauto.
Qed.

(** The rows [ask_visual] leaves out of the chart are never above the ones
    it keeps: kept and dropped entries together are one entry per row, and
    every dropped value is at most every kept value. *)
Theorem chart_series_keeps_top (rows : list (row scalar)) :
  forall series,
    chart rows = Ok series ->
    exists i j dropped,
      pick_columns (all_keys scalar rows) = Ok (i, j) /\
      Permutation (series ++ dropped)
        (map (entry scalar null astype_str number zero to_numeric i j)
           (records scalar (DataFrame_of scalar null rows))) /\
      forall a b, In a series -> In b dropped ->
                  num_leb (snd b) (snd a) = true.
Proof.
  intros series. unfold chart_series.
  destruct (df_empty scalar (DataFrame_of scalar null rows)); [discriminate|].
  simpl columns.
  destruct (pick_columns (all_keys scalar rows)) as [[i j]|e] eqn:Hp;
    [|discriminate].
  rewrite series_entries. intros H. apply Ok_inj in H. subst series.
  set (es := map (entry scalar null astype_str number zero to_numeric i j)
               (records scalar (DataFrame_of scalar null rows))).
  exists i, j, (skipn 30 (sort_values_desc number num_leb es)).
  split; [reflexivity|]. split.
  - rewrite firstn_skipn. apply sort_values_desc_perm.
  - intros a b Ha Hb.
    apply (sorted_firstn_skipn (desc number num_leb) 30
             (sort_values_desc number num_leb es) a b); auto.
    now apply sort_values_desc_sorted.
Qed.

End SeriesMore.

Lemma chart_series_keeps_top_witness :
  let rows := [[(chars "name", 7%Z); (chars "n", 3%Z)];
               [(chars "name", 8%Z); (chars "n", 5%Z)]] in
  let astype_str := fun z : Z => str_of_int z in
  let to_numeric := fun z : Z => if (z <? 4)%Z then None else Some z in
  let series := [(chars "8", 5%Z); (chars "7", 0%Z)] in
  exists i j dropped,
    pick_columns (all_keys Z rows) = Ok (i, j) /\
    Permutation (series ++ dropped)
      (map (entry Z 0%Z astype_str Z 0%Z to_numeric i j)
         (records Z (DataFrame_of Z 0%Z rows))) /\
    forall a b, In a series -> In b dropped -> Z.leb (snd b) (snd a) = true.
Proof.
  intros rows astype_str to_numeric series.
  apply (chart_series_keeps_top Z 0%Z astype_str Z 0%Z to_numeric Z.leb).
  - intros x y. destruct (Z.leb_spec x y); [now left | right].
    apply Z.leb_le. lia.
  - intros x y z H1 H2. apply Z.leb_le. apply Z.leb_le in H1, H2. lia.
  - vm_compute. reflexivity.
Defined.

(** ** The series and the rows it comes from *)

Lemma dict_get_find {scalar : Type} (k : str) (r : row scalar) :
  dict_get scalar k r
  = option_map snd (find (fun kv => str_eqb k (fst kv)) r).
Proof.
  induction r as [|[k' v] r IH]; simpl; [reflexivity|].
  now destruct (str_eqb k k').
Qed.

Lemma nth_map_at {A B : Type} (f : A -> B) (d : B) :
  forall (l : list A) (i : nat) (x : A),
    nth_error l i = Some x -> nth i (map f l) d = f x.
Proof.
  induction l as [|a l IH]; intros [|i] x H; simpl in *; try discriminate.
  - now injection H as ->.
  - now apply IH.
Qed.

Lemma pick_columns_keys cols i j :
  pick_columns cols = Ok (i, j) ->
  exists kl kv,
    nth_error cols i = Some kl /\ nth_error cols j = Some kv /\
    ((kl = label_name /\ kv = value_name /\
      In label_name cols /\ In value_name cols) \/
     ((~ In label_name cols \/ ~ In value_name cols) /\
      exists others, cols = kl :: kv :: others)).
Proof.
  unfold pick_columns.
  destruct (index_of label_name cols) as [i'|] eqn:Ei;
    destruct (index_of value_name cols) as [j'|] eqn:Ej.
  - intros H. injection H as <- <-.
    apply index_of_some in Ei, Ej.
    exists label_name, value_name. split; [exact Ei|]. split; [exact Ej|].
    left. repeat split; eapply nth_error_In; eauto.
  - destruct cols as [|kl [|kv others]]; try discriminate.
    intros H. injection H as <- <-. exists kl, kv.
    split; [reflexivity|]. split; [reflexivity|]. right.
    apply index_of_none in Ej. split; [now right | now exists others].
  - destruct cols as [|kl [|kv others]]; try discriminate.
    intros H. injection H as <- <-. exists kl, kv.
    split; [reflexivity|]. split; [reflexivity|]. right.
    apply index_of_none in Ei. split; [now left | now exists others].
  - destruct cols as [|kl [|kv others]]; try discriminate.
    intros H. injection H as <- <-. exists kl, kv.
    split; [reflexivity|]. split; [reflexivity|]. right.
    apply index_of_none in Ei. split; [now left | now exists others].
Qed.

Section SeriesShape.

Variable scalar : Type.
Variable null : scalar.
Variable astype_str : scalar -> str.
Variable number : Type.
Variable zero : number.
Variable to_numeric : scalar -> option number.
Variable num_leb : number -> number -> bool.

Hypothesis num_leb_total : forall x y, num_leb x y = true \/ num_leb y x = true.
Hypothesis num_leb_trans :
  forall x y z, num_leb x y = true -> num_leb y z = true -> num_leb x z = true.

Local Abbreviation chart :=
  (chart_series scalar null astype_str number zero to_numeric num_leb).

(** The cell of a row under a column name, with the rows as they come from
    [run_sql]. *)
Lemma cell_find (r : row scalar) (k : str) :
  cell scalar null r k
  = match find (fun kv => str_eqb k (fst kv)) r with
    | Some kv => snd kv
    | None => null
    end.
Proof.
  unfold cell. rewrite dict_get_find.
  now destruct (find (fun kv => str_eqb k (fst kv)) r).
Qed.

(** C9. When [ask_visual] reshapes a result set, the series it plots has
    at most 30 entries (exactly the smaller of 30 and the number of rows),
    is sorted by value in descending order and carries labels of at most 40
    characters.  Together with the entries the cut to 30 leaves out, it is a
    rearrangement of one entry per row: the text of the row's own value in
    the label column, cut to 40 characters, with the number read from its
    own value in the value column, or zero when that value does not parse
    ([null] standing for a value the row lacks).  The two columns are the
    ones named [label] and [value] when both exist, otherwise the first two.
    A non-empty result set with at least two columns always yields a
    series. *)
Theorem chart_series_shape (rows : list (row scalar)) :
  let value_in := fun (r : row scalar) (k : str) =>
    match find (fun kv => str_eqb k (fst kv)) r with
    | Some kv => snd kv
    | None => null
    end in
  (rows <> [] -> 2 <= length (all_keys scalar rows) ->
   exists series, chart rows = Ok series) /\
  (forall series,
     chart rows = Ok series ->
     length series = Nat.min 30 (length rows) /\
     StronglySorted (desc number num_leb) series /\
     Forall (fun e => length (fst e) <= 40) series /\
     exists kl kv dropped,
       ((kl = label_name /\ kv = value_name /\
         In label_name (all_keys scalar rows) /\
         In value_name (all_keys scalar rows)) \/
        ((~ In label_name (all_keys scalar rows) \/
          ~ In value_name (all_keys scalar rows)) /\
         exists others, all_keys scalar rows = kl :: kv :: others)) /\
       Permutation (series ++ dropped)
         (map (fun r =>
                 (firstn 40 (astype_str (value_in r kl)),
                  match to_numeric (value_in r kv) with
                  | Some x => x
                  | None => zero
                  end)) rows) /\
       length dropped = length rows - 30).
Proof.
  intros value_in. split.
  - intros Hne Hcols. unfold chart_series.
    destruct (df_empty scalar (DataFrame_of scalar null rows)) eqn:E.
    + exfalso. unfold df_empty in E. simpl in E.
      destruct (all_keys scalar rows); [simpl in Hcols; lia|].
      destruct rows; [congruence | discriminate].
    + simpl. destruct (pick_columns_total (all_keys scalar rows) Hcols)
        as [i [j Hp]].
      rewrite Hp. eauto.
  - intros series. unfold chart_series.
    destruct (df_empty scalar (DataFrame_of scalar null rows)); [discriminate|].
    simpl columns.
    destruct (pick_columns (all_keys scalar rows)) as [[i j]|e] eqn:Hp;
      [|discriminate].
    rewrite series_entries. intros H. apply Ok_inj in H. subst series.
    set (es := map (entry scalar null astype_str number zero to_numeric i j)
                 (records scalar (DataFrame_of scalar null rows))).
    assert (Hlen : length es = length rows).
    { unfold es. simpl. now rewrite !length_map. }
    assert (Hperm := sort_values_desc_perm number num_leb es).
    destruct (pick_columns_keys _ _ _ Hp) as [kl [kv [Hi [Hj Hk]]]].
    assert (Hes : es = map (fun r =>
                   (firstn 40 (astype_str (value_in r kl)),
                    match to_numeric (value_in r kv) with
                    | Some x => x
                    | None => zero
                    end)) rows).
    { unfold es. simpl records. rewrite map_map. apply map_ext. intros r.
      unfold entry, fillna0.
      rewrite (nth_map_at (cell scalar null r) null _ _ _ Hi).
      rewrite (nth_map_at (cell scalar null r) null _ _ _ Hj).
      now rewrite !cell_find. }
    split; [|split; [|split]].
    + rewrite length_firstn, (Permutation_length Hperm), Hlen. reflexivity.
    + apply firstn_sorted.
      now apply sort_values_desc_sorted.
    + apply Forall_firstn_of.
      eapply Permutation_Forall; [symmetry; exact Hperm|].
      unfold es. apply Forall_forall. intros e He.
      apply in_map_iff in He. destruct He as [rec [<- _]]. unfold entry. cbn [fst].
      rewrite length_firstn. lia.
    + exists kl, kv, (skipn 30 (sort_values_desc number num_leb es)).
      split; [exact Hk|]. split.
      * rewrite firstn_skipn, <- Hes. exact Hperm.
      * now rewrite length_skipn, (Permutation_length Hperm), Hlen.
Qed.

End SeriesShape.

Lemma chart_series_shape_witness :
  let astype_str := fun o : option Z =>
    match o with Some z => str_of_int z | None => chars "None" end in
  let to_numeric := fun o : option Z => o in
  let rows : list (row (option Z)) :=
    [(chars "title", Some (10 ^ 44)%Z); (chars "votes", Some 100%Z)]
    :: [(chars "title", Some 1%Z); (chars "votes", None)]
    :: map (fun n => [(chars "title", Some n); (chars "votes", Some (n - 3)%Z)])
         (map Z.of_nat (seq 0 31)) in
  let series : list (str * Z) :=
    (chars "1000000000000000000000000000000000000000", 100%Z)
    :: map (fun n => (str_of_int n, (n - 3)%Z))
         (map Z.of_nat (rev (seq 4 27)))
    ++ [(chars "1", 0%Z); (chars "3", 0%Z)] in
  let value_in := fun (r : row (option Z)) (k : str) =>
    match find (fun kv => str_eqb k (fst kv)) r with
    | Some kv => snd kv
    | None => None
    end in
  (exists s,
     chart_series (option Z) None astype_str Z 0%Z to_numeric Z.leb rows
     = Ok s) /\
  length series = Nat.min 30 (length rows) /\
  StronglySorted (desc Z Z.leb) series /\
  Forall (fun e => length (fst e) <= 40) series /\
  exists kl kv dropped,
    ((kl = label_name /\ kv = value_name /\
      In label_name (all_keys (option Z) rows) /\
      In value_name (all_keys (option Z) rows)) \/
     ((~ In label_name (all_keys (option Z) rows) \/
       ~ In value_name (all_keys (option Z) rows)) /\
      exists others, all_keys (option Z) rows = kl :: kv :: others)) /\
    Permutation (series ++ dropped)
      (map (fun r =>
              (firstn 40 (astype_str (value_in r kl)),
               match to_numeric (value_in r kv) with
               | Some x => x
               | None => 0%Z
               end)) rows) /\
    length dropped = length rows - 30.
Proof.
  intros astype_str to_numeric rows series value_in.
  assert (Htotal : forall x y, Z.leb x y = true \/ Z.leb y x = true).
  { intros x y. destruct (Z.leb_spec x y); [now left | right].
    apply Z.leb_le. lia. }
  assert (Htrans : forall x y z,
            Z.leb x y = true -> Z.leb y z = true -> Z.leb x z = true).
  { intros x y z H1 H2. apply Z.leb_le. apply Z.leb_le in H1, H2. lia. }
  destruct (chart_series_shape (option Z) None astype_str Z 0%Z to_numeric
              Z.leb Htotal Htrans rows) as [H1 H2].
  split.
  - apply H1; [discriminate | vm_compute; lia].
  - apply (H2 series). vm_compute. reflexivity.
Defined.



(** ** [safe_header_value] *)

Lemma star_greedy_head p cs : forall s pv,
  exists tl,
    star_greedy p pv s cs
    = MState (prev_after pv (fst (span p s))) (snd (span p s)) cs :: tl.
Proof.
  induction s as [|c s IH]; intros pv; simpl.
  - now exists [].
  - destruct (p c); simpl.
    + destruct (IH (Some c)) as [tl ->]. eexists. reflexivity.
    + now exists [].
Qed.

Lemma spaces_match_at pv s :
  match_at SPACES_RE pv s
  = match fst (span is_space s) with
    | [] => None
    | ws => Some (RMatch ws (MState (prev_after pv ws) (snd (span is_space s)) []))
    end.
Proof.
  unfold match_at, SPACES_RE, Plus.
  change (exec (Seq (Cls is_space) (Star is_space)) (MState pv s []))
    with (flat_map (exec (Star is_space)) (exec (Cls is_space) (MState pv s []))).
  destruct s as [|c t]; [reflexivity|]. cbn [exec rest prev caps span].
  destruct (is_space c); [|reflexivity].
  cbn [flat_map exec rest prev caps fst snd]. rewrite List.app_nil_r.
  destruct (star_greedy_head is_space [] t (Some c)) as [tl ->].
  cbn [rest]. f_equal. f_equal.
  destruct (span_spec is_space t) as [H _]. rewrite H at 1.
  change (c :: fst (span is_space t) ++ snd (span is_space t))
    with ((c :: fst (span is_space t)) ++ snd (span is_space t)).
  apply consumed_app.
Qed.

Section Collapse.

Local Abbreviation C := (sub_go SPACES_RE [" "%char]).

Lemma C_nil pv : C pv [] 0 = [].
Proof. cbn [sub_go]. now rewrite spaces_match_at. Qed.

Lemma C_copy pv c s :
  is_space c = false -> C pv (c :: s) 0 = c :: C (Some c) s 0.
Proof.
  intros H. apply sub_go_nomatch. rewrite spaces_match_at. simpl.
  now rewrite H.
Qed.

Lemma C_run pv c s :
  is_space c = true ->
  exists pv',
    C pv (c :: s) 0 = " "%char :: C pv' (snd (span is_space s)) 0.
Proof.
  intros H. destruct (span_spec is_space s) as [Hs _].
  pose proof (spaces_match_at pv (c :: s)) as Hm.
  cbn [span] in Hm. rewrite H in Hm. cbn [fst snd] in Hm.
  assert (E : c :: s = (c :: fst (span is_space s)) ++ snd (span is_space s))
    by (simpl; now rewrite <- Hs).
  exists (prev_after pv (c :: fst (span is_space s))).
  rewrite E in Hm. rewrite E at 1.
  eapply sub_go_match; [discriminate | exact Hm | reflexivity].
Qed.

Lemma span_length p s : length (snd (span p s)) <= length s.
Proof.
  destruct (span_spec p s) as [H _]. rewrite H at 2. rewrite length_app. lia.
Qed.

Lemma C_head pv s :
  head_sat is_space s = false -> head_sat is_space (C pv s 0) = false.
Proof.
  destruct s as [|c s]; intros H; [now rewrite C_nil|].
  simpl in H. now rewrite C_copy.
Qed.

(** After the substitution the only whitespace left is the space, and no
    two of them are adjacent. *)
Lemma C_clean n : forall s pv,
  length s <= n ->
  Forall (fun c => is_space c = true -> c = " "%char) (C pv s 0) /\
  single_spaced (C pv s 0) = true.
Proof.
  induction n as [|n IH]; intros s pv Hlen.
  - destruct s; [|simpl in Hlen; lia]. rewrite C_nil. split; [constructor | reflexivity].
  - destruct s as [|c s]; [rewrite C_nil; split; [constructor | reflexivity]|].
    simpl in Hlen. destruct (is_space c) eqn:E.
    + destruct (C_run pv c s E) as [pv' ->].
      pose proof (span_length is_space s) as Hl.
      destruct (IH (snd (span is_space s)) pv' ltac:(lia)) as [H1 H2].
      destruct (span_spec is_space s) as [_ [_ Hh]].
      split; [constructor; auto|].
      cbn [single_spaced]. rewrite (C_head _ _ Hh), H2. reflexivity.
    + rewrite (C_copy _ _ _ E).
      destruct (IH s (Some c) ltac:(lia)) as [H1 H2].
      split; [constructor; [congruence | exact H1]|].
      cbn [single_spaced]. now rewrite E, H2.
Qed.

(** A text that is already clean is left as it is. *)
Lemma C_id : forall s pv,
  Forall (fun c => is_space c = true -> c = " "%char) s ->
  single_spaced s = true -> C pv s 0 = s.
Proof.
  induction s as [|c s IH]; intros pv Hf Hs; [apply C_nil|].
  inversion Hf as [|? ? Hc Hf']; subst.
  cbn [single_spaced] in Hs. apply andb_true_iff in Hs. destruct Hs as [Hj Hs].
  destruct (is_space c) eqn:E.
  - destruct (C_run pv c s E) as [pv' ->].
    rewrite (Hc eq_refl). simpl in Hj.
    apply negb_true_iff in Hj.
    rewrite (span_head_false _ _ Hj). simpl. f_equal. now apply IH.
  - rewrite (C_copy _ _ _ E). f_equal. now apply IH.
Qed.

End Collapse.

Lemma single_spaced_app_inv a : forall b,
  single_spaced (a ++ b) = true ->
  single_spaced a = true /\ single_spaced b = true.
Proof.
  induction a as [|x a IH]; intros b H; simpl in *; [now split|].
  apply andb_true_iff in H. destruct H as [Hj H].
  destruct (IH _ H) as [Ha Hb]. split; [|exact Hb].
  rewrite Ha, andb_true_r. destruct (is_space x); [|reflexivity].
  simpl in *. destruct a as [|y a]; [reflexivity | exact Hj].
Qed.

Lemma single_spaced_app a : forall b,
  single_spaced a = true -> single_spaced b = true ->
  head_sat is_space b = false -> single_spaced (a ++ b) = true.
Proof.
  induction a as [|x a IH]; intros b Ha Hb Hh; simpl in *; [exact Hb|].
  apply andb_true_iff in Ha. destruct Ha as [Hj Ha].
  rewrite (IH _ Ha Hb Hh), andb_true_r.
  destruct a as [|y a]; simpl in *; [|exact Hj].
  rewrite Hh. now rewrite andb_false_r.
Qed.

Lemma strip_infix s : exists a b, s = a ++ strip s ++ b.
Proof.
  destruct (lstrip_by_split is_space s) as [a [Ha _]].
  destruct (rstrip_by_split is_space (lstrip_by is_space s)) as [b [Hb _]].
  exists a, b. fold (strip s) in Hb. rewrite <- Hb. exact Ha.
Qed.

Lemma strip_ends s :
  head_sat is_space (strip s) = false /\
  head_sat is_space (rev (strip s)) = false.
Proof.
  split.
  - unfold strip. apply rstrip_by_head, lstrip_by_head_sat.
  - unfold strip. apply rstrip_by_last.
Qed.

Lemma replace_char_absent a b s : ~ In a s -> replace_char a b s = s.
Proof.
  unfold replace_char. induction s as [|c s IH]; intros H; simpl; [reflexivity|].
  simpl in H. destruct (Ascii.eqb_spec c a) as [->|_]; [tauto|].
  rewrite IH; tauto.
Qed.

Lemma slice_to_prefix s n : exists k, slice_to s n = firstn k s.
Proof. unfold slice_to. destruct (n <? 0)%Z; eexists; reflexivity. Qed.

(** The text [safe_header_value] computes before it looks at the length. *)
Lemma header_text_clean s :
  let t := strip (re_sub SPACES_RE [" "%char]
                    (replace_char "010"%char " "%char
                       (replace_char "013"%char " "%char s))) in
  Forall (fun c => is_space c = true -> c = " "%char) t /\
  single_spaced t = true /\
  head_sat is_space t = false /\ head_sat is_space (rev t) = false.
Proof.
  intros t. unfold t.
  set (u := replace_char "010"%char " "%char
              (replace_char "013"%char " "%char s)).
  destruct (C_clean (length u) u None (le_n _)) as [H1 H2].
  fold (re_sub SPACES_RE [" "%char] u) in H1, H2.
  destruct (strip_infix (re_sub SPACES_RE [" "%char] u)) as [a [b E]].
  rewrite E in H1, H2.
  apply Forall_app in H1. destruct H1 as [_ H1].
  apply Forall_app in H1. destruct H1 as [H1 _].
  apply single_spaced_app_inv in H2. destruct H2 as [_ H2].
  apply single_spaced_app_inv in H2. destruct H2 as [H2 _].
  destruct (strip_ends (re_sub SPACES_RE [" "%char] u)) as [H3 H4].
  auto.
Qed.

Lemma safe_header_value_normal s max_len :
  let r := safe_header_value s max_len in
  Forall (fun c => is_space c = true -> c = " "%char) r /\
  single_spaced r = true /\
  head_sat is_space r = false /\ head_sat is_space (rev r) = false.
Proof.
  intros r. unfold r, safe_header_value.
  destruct (header_text_clean s) as [H1 [H2 [H3 H4]]].
  set (t := strip (re_sub SPACES_RE [" "%char]
                     (replace_char "010"%char " "%char
                        (replace_char "013"%char " "%char s)))) in *.
  destruct (Z.of_nat (length t) >? max_len)%Z; [|auto].
  destruct (slice_to_prefix t max_len) as [k ->].
  assert (Hp1 : Forall (fun c => is_space c = true -> c = " "%char)
                  (firstn k t)) by now apply Forall_firstn_of.
  assert (Hp2 : single_spaced (firstn k t) = true).
  { rewrite <- (firstn_skipn k t) in H2.
    now apply single_spaced_app_inv in H2. }
  split; [|split; [|split]].
  - apply Forall_app. split; [exact Hp1|].
    repeat constructor; discriminate.
  - apply single_spaced_app; auto.
  - destruct k as [|k]; [reflexivity|].
    destruct t as [|c t']; [reflexivity | exact H3].
  - rewrite List.rev_app_distr. reflexivity.
Qed.

Lemma safe_header_value_no_break s max_len :
  ~ In "010"%char (safe_header_value s max_len) /\
  ~ In "013"%char (safe_header_value s max_len).
Proof.
  destruct (safe_header_value_normal s max_len) as [H _].
  rewrite Forall_forall in H.
  split; intros Hin; specialize (H _ Hin eq_refl); discriminate.
Qed.

Lemma safe_header_value_bound s max_len :
  (0 <= max_len)%Z ->
  (Z.of_nat (length (safe_header_value s max_len)) <= max_len + 3)%Z.
Proof.
  intros H. unfold safe_header_value.
  set (t := strip (re_sub SPACES_RE [" "%char]
                     (replace_char "010"%char " "%char
                        (replace_char "013"%char " "%char s)))).
  destruct (Z.gtb_spec (Z.of_nat (length t)) max_len) as [Hgt|Hle]; [|lia].
  unfold slice_to. destruct (Z.ltb_spec max_len 0); [lia|].
  rewrite length_app, length_firstn. simpl. lia.
Qed.

(** The value of the header holds no whitespace but single spaces (so no
    line break or tab), none of them adjacent, and neither begins nor ends
    with one. *)
Theorem safe_header_value_clean :
  forall (s : str) (max_len : Z),
    let r := safe_header_value s max_len in
    (forall c, In c r -> is_space c = true -> c = " "%char) /\
    ~ In "010"%char r /\ ~ In "013"%char r /\
    single_spaced r = true /\
    head_sat is_space r = false /\ head_sat is_space (rev r) = false.
Proof.
  intros s max_len r.
  destruct (safe_header_value_normal s max_len) as [H1 [H2 [H3 H4]]].
  destruct (safe_header_value_no_break s max_len) as [H5 H6].
  rewrite Forall_forall in H1.
  repeat split; auto.
Qed.

(** With a non-negative bound the value never exceeds [max_len] characters
    plus the three of the ellipsis. *)
Theorem safe_header_value_length :
  forall (s : str) (max_len : Z),
    (0 <= max_len)%Z ->
    (Z.of_nat (length (safe_header_value s max_len)) <= max_len + 3)%Z.
Proof. intros s max_len H. now apply safe_header_value_bound. Qed.

Lemma safe_header_value_length_witness :
  (Z.of_nat (length (safe_header_value (chars "SELECT  1
FROM t") 8)) <= 8 + 3)%Z.
Proof.
  apply (safe_header_value_length (chars "SELECT  1
FROM t") 8).
  lia.
Defined.

(** Applying [safe_header_value] to its own result changes nothing. *)
Theorem safe_header_value_idempotent :
  forall (s : str) (max_len : Z),
    (0 <= max_len)%Z ->
    safe_header_value (safe_header_value s max_len) max_len
    = safe_header_value s max_len.
Proof.
  intros s max_len H.
  destruct (safe_header_value_normal s max_len) as [Hw [Hs [Hh Hl]]].
  destruct (safe_header_value_no_break s max_len) as [Hn Hr].
  set (r := safe_header_value s max_len) in *.
  unfold safe_header_value at 1.
  rewrite (replace_char_absent "013"%char _ r Hr).
  rewrite (replace_char_absent "010"%char _ r Hn).
  unfold re_sub. rewrite C_id; [| exact Hw | exact Hs].
  rewrite (strip_id r Hh Hl).
  unfold r, safe_header_value.
  set (t := strip (re_sub SPACES_RE [" "%char]
                     (replace_char "010"%char " "%char
                        (replace_char "013"%char " "%char s)))).
  destruct (Z.gtb_spec (Z.of_nat (length t)) max_len) as [Hgt|Hle].
  - unfold slice_to. destruct (Z.ltb_spec max_len 0); [lia|].
    assert (Hlen : length (firstn (Z.to_nat max_len) t) = Z.to_nat max_len).
    { rewrite length_firstn. lia. }
    destruct (Z.gtb_spec
                (Z.of_nat (length (firstn (Z.to_nat max_len) t ++ chars "...")))
                max_len) as [_|Hle].
    + f_equal. rewrite <- Hlen at 1.
      rewrite firstn_app, Nat.sub_diag, firstn_all. simpl.
      apply List.app_nil_r.
    + rewrite length_app, Hlen in Hle. simpl in Hle. lia.
  - destruct (Z.gtb_spec (Z.of_nat (length t)) max_len); [lia | reflexivity].
Qed.

Lemma safe_header_value_idempotent_witness :
  safe_header_value (safe_header_value (chars "SELECT  1
FROM t") 8) 8
  = safe_header_value (chars "SELECT  1
FROM t") 8.
Proof.
  apply (safe_header_value_idempotent (chars "SELECT  1
FROM t") 8).
  lia.
Defined.

(** ** The two question endpoints *)

Lemma sanitize_sql_single parse_one sql s :
  sanitize_sql parse_one sql = Ok s -> ~ In ";"%char s.
Proof.
  unfold sanitize_sql.
  destruct (contains (chars ";") (rstrip_semi (strip sql))) eqn:E;
    [discriminate|].
  repeat match goal with
         | |- context [if ?b then _ else _] =>
             destruct b; try discriminate
         end.
  intros H. apply Ok_inj in H. subst s. intros Hin.
  apply in_split in Hin. destruct Hin as [pre [post Hs]].
  assert (Hc : contains (chars ";") (rstrip_semi (strip sql)) = true)
    by (apply contains_spec; now exists pre, post).
  congruence.
Qed.

Section Endpoints.

Variable parse_one : str -> bool.
Variable completion : str -> option str.
Variable scalar : Type.
Variable null : scalar.
Variable db_execute : str -> result (list (list (str * scalar))).
Variable astype_str : scalar -> str.
Variable number : Type.
Variable zero : number.
Variable to_numeric : scalar -> option number.
Variable num_leb : number -> number -> bool.
Variable image : Type.
Variable render : list (str * number) -> str -> image.
Variable MAX_ROWS_TEXT : Z.
Variable MAX_ROWS_VISUAL : Z.

Local Abbreviation gen := (generate_sql parse_one completion).
Local Abbreviation run := (run_sql scalar db_execute).
Local Abbreviation chart :=
  (chart_series scalar null astype_str number zero to_numeric num_leb).
Local Abbreviation text_endpoint :=
  (ask_text parse_one completion scalar db_execute MAX_ROWS_TEXT).
Local Abbreviation visual_endpoint :=
  (ask_visual parse_one completion scalar null db_execute astype_str number
     zero to_numeric num_leb image render MAX_ROWS_VISUAL).

Lemma generate_sql_return question mode s :
  gen question mode = Return s <->
  exists raw cand,
    completion (prompt_of question mode) = Some raw /\
    extract_first_select (strip raw) = Ok cand /\
    sanitize_sql parse_one cand = Ok s.
Proof.
  unfold generate_sql, hf_generate_text.
  destruct (completion (prompt_of question mode)) as [raw|].
  - destruct (extract_first_select (strip raw)) as [cand|e] eqn:Ex.
    + destruct (sanitize_sql parse_one cand) as [s'|e] eqn:E; simpl.
      * split.
        -- intros H. injection H as <-. now exists raw, cand.
        -- intros [raw' [cand' [H1 [H2 H3]]]].
           injection H1 as <-. rewrite Ex in H2.
           apply Ok_inj in H2. subst cand'. congruence.
      * split; [discriminate|].
        intros [raw' [cand' [H1 [H2 H3]]]].
        injection H1 as <-. rewrite Ex in H2.
        apply Ok_inj in H2. subst cand'. congruence.
    + split; [discriminate|].
      intros [raw' [cand' [H1 [H2 _]]]]. injection H1 as <-.
      rewrite Ex in H2. discriminate.
  - split; [discriminate|]. intros [raw [cand [H _]]]. discriminate.
Qed.

Lemma generate_sql_http question mode st :
  gen question mode = RaiseHTTP st <->
  st = 502%Z /\ completion (prompt_of question mode) = None.
Proof.
  unfold generate_sql, hf_generate_text.
  destruct (completion (prompt_of question mode)) as [raw|].
  - destruct (extract_first_select (strip raw)) as [cand|e];
      [destruct (sanitize_sql parse_one cand)|]; simpl;
      (split; [discriminate | intros [_ H]; discriminate]).
  - split; [intros H; injection H as <-; auto | intros [-> _]; reflexivity].
Qed.

Lemma chart_series_no_rows (rows : list (row scalar)) :
  chart rows = Raise EmptyResult <-> Forall (fun r => r = []) rows.
Proof.
  unfold chart_series, df_empty. simpl columns. simpl records.
  rewrite <- all_keys_nil.
  destruct (all_keys scalar rows) as [|k ks] eqn:Ek; [tauto|].
  destruct rows as [|r rows]; [unfold all_keys in Ek; discriminate|].
  simpl map.
  destruct (pick_columns (k :: ks)) as [[i j]|e] eqn:Hp.
  - split; discriminate.
  - split; [|discriminate]. intros H. exfalso.
    destruct ks as [|k2 ks].
    + rewrite pick_columns_single in Hp. congruence.
    + destruct (pick_columns_total (k :: k2 :: ks)) as [i [j Hp']];
        [simpl; lia | congruence].
Qed.

Lemma ask_text_outcome question :
  text_endpoint question
  = match gen question (chars "text") with
    | Return s =>
        match ensure_limit s MAX_ROWS_TEXT with
        | Ok sql =>
            match run sql MAX_ROWS_TEXT with
            | Ok rows => Served (sql, rows)
            | Raise _ => Failed 400
            end
        | Raise _ => Failed 400
        end
    | RaiseHTTP st => Failed st
    | RaiseOther _ => Failed 400
    end.
Proof.
  unfold ask_text.
  destruct (gen question (chars "text")) as [s|st|e]; try reflexivity.
  destruct (ensure_limit s MAX_ROWS_TEXT) as [sql|e]; [|reflexivity].
  now destruct (run sql MAX_ROWS_TEXT).
Qed.

Lemma ask_visual_outcome question :
  visual_endpoint question
  = match gen question (chars "visual") with
    | Return s =>
        match ensure_limit s MAX_ROWS_VISUAL with
        | Ok sql =>
            match run sql MAX_ROWS_VISUAL with
            | Ok rows =>
                match chart rows with
                | Ok series =>
                    Served (render series question, safe_header_value sql 800)
                | Raise EmptyResult => Failed 404
                | Raise _ => Failed 400
                end
            | Raise _ => Failed 400
            end
        | Raise _ => Failed 400
        end
    | RaiseHTTP st => Failed st
    | RaiseOther _ => Failed 400
    end.
Proof.
  unfold ask_visual.
  destruct (gen question (chars "visual")) as [s|st|e]; try reflexivity.
  destruct (ensure_limit s MAX_ROWS_VISUAL) as [sql|e]; [|reflexivity].
  destruct (run sql MAX_ROWS_VISUAL) as [rows|e]; [|reflexivity].
  destruct (chart rows) as [series|e]; [reflexivity|].
  now destruct e.
Qed.

Lemma generate_sql_completed question mode :
  (exists s, gen question mode = Return s) \/
  (exists e, gen question mode = RaiseOther e) ->
  completion (prompt_of question mode) <> None.
Proof.
  intros H Hc.
  assert (E : gen question mode = RaiseHTTP 502)
    by now apply generate_sql_http.
  destruct H as [[s H]|[e H]]; congruence.
Qed.

(** What [ask_text] serves: the statement it reports is the one it ran, a
    completion that passed [extract_first_select] and [sanitize_sql] and
    then [ensure_limit]; it holds no terminator, carries a limit between
    zero and [MAX_ROWS_TEXT], and at most [MAX_ROWS_TEXT] rows come with
    it. *)
Theorem ask_text_served (question sql : str) (rows : list (row scalar)) :
  (0 <= MAX_ROWS_TEXT)%Z ->
  text_endpoint question = Served (sql, rows) ->
  (exists raw cand s,
     completion (prompt_of question (chars "text")) = Some raw /\
     extract_first_select (strip raw) = Ok cand /\
     sanitize_sql parse_one cand = Ok s /\
     ensure_limit s MAX_ROWS_TEXT = Ok sql /\
     run sql MAX_ROWS_TEXT = Ok rows) /\
  ~ In ";"%char sql /\
  (exists L, limit_of sql = Some L /\ (0 <= L <= MAX_ROWS_TEXT)%Z) /\
  (Z.of_nat (length rows) <= MAX_ROWS_TEXT)%Z.
Proof.
  intros Hpos. rewrite ask_text_outcome.
  destruct (gen question (chars "text")) as [s|st|e] eqn:Eg;
    [|discriminate|discriminate].
  destruct (ensure_limit s MAX_ROWS_TEXT) as [sql'|e] eqn:El; [|discriminate].
  destruct (run sql' MAX_ROWS_TEXT) as [rows'|e] eqn:Er; [|discriminate].
  intros H. injection H as <- <-.
  apply generate_sql_return in Eg. destruct Eg as [raw [cand [H1 [H2 H3]]]].
  split; [|split; [|split]].
  - exists raw, cand, s. auto.
  - rewrite (ensure_limit_other_chars s MAX_ROWS_TEXT sql' ";"%char Hpos
               eq_refl eq_refl El).
    eapply sanitize_sql_single; eauto.
  - now apply (ensure_limit_range s MAX_ROWS_TEXT).
  - revert Er. unfold run_sql.
    destruct (db_execute sql') as [res|e]; [|discriminate].
    intros H. apply Ok_inj in H. subst rows'.
    rewrite length_map. unfold enumerate. rewrite filter_enumerate_length.
    lia.
Qed.

(** [ask_text] fails with status 502 exactly when the completion service
    fails, and with status 400 in every other case: no statement found, a
    statement rejected, a limit or ceiling [ensure_limit] cannot convert,
    or an error of the database. *)
Theorem ask_text_failures (question : str) :
  (forall st, text_endpoint question = Failed st ->
              st = 502%Z \/ st = 400%Z) /\
  (text_endpoint question = Failed 502 <->
   completion (prompt_of question (chars "text")) = None) /\
  (text_endpoint question = Failed 400 <->
   (exists e, gen question (chars "text") = RaiseOther e) \/
   (exists s e, gen question (chars "text") = Return s /\
                ensure_limit s MAX_ROWS_TEXT = Raise e) \/
   (exists s sql e, gen question (chars "text") = Return s /\
                    ensure_limit s MAX_ROWS_TEXT = Ok sql /\
                    run sql MAX_ROWS_TEXT = Raise e)).
Proof.
  rewrite ask_text_outcome.
  pose proof (generate_sql_completed question (chars "text")) as Hc.
  destruct (gen question (chars "text")) as [s|st|e] eqn:Eg.
  - assert (Hc' : completion (prompt_of question (chars "text")) <> None)
      by (apply Hc; left; now exists s).
    destruct (ensure_limit s MAX_ROWS_TEXT) as [sql|e] eqn:El.
    + destruct (run sql MAX_ROWS_TEXT) as [rows|e] eqn:Er.
      * split; [discriminate|]. split; [split; [discriminate | tauto]|].
        split; [discriminate|].
        intros [[e H]|[[s' [e [H1 H2]]]|[s' [sql' [e [H1 [H2 H3]]]]]]];
          [discriminate| |]; injection H1 as <-; congruence.
      * split; [intros st H; injection H as <-; now right|].
        split; [split; [discriminate | tauto]|].
        split; [|reflexivity]. intros _. right. right. now exists s, sql, e.
    + split; [intros st H; injection H as <-; now right|].
      split; [split; [discriminate | tauto]|].
      split; [|reflexivity]. intros _. right. left. now exists s, e.
  - apply generate_sql_http in Eg. destruct Eg as [-> Hn].
    split; [intros st H; injection H as <-; now left|].
    split; [tauto|].
    split; [discriminate|].
    intros [[e H]|[[s [e [H _]]]|[s [sql [e [H _]]]]]]; discriminate.
  - assert (Hc' : completion (prompt_of question (chars "text")) <> None)
      by (apply Hc; right; now exists e).
    split; [intros st H; injection H as <-; now right|].
    split; [split; [discriminate | tauto]|].
    split; [|reflexivity]. intros _. left. now exists e.
Qed.

(** What [ask_visual] serves: the chart of the series reshaped from the
    rows of the limited statement, of at most 30 bars, and a header value
    that is the statement on one line, of 803 characters at most. *)
Theorem ask_visual_served (question : str) (img : image) (header : str) :
  visual_endpoint question = Served (img, header) ->
  exists s sql rows series,
    gen question (chars "visual") = Return s /\
    ensure_limit s MAX_ROWS_VISUAL = Ok sql /\
    run sql MAX_ROWS_VISUAL = Ok rows /\
    chart rows = Ok series /\
    length series <= 30 /\
    img = render series question /\
    header = safe_header_value sql 800 /\
    length header <= 803 /\
    ~ In "010"%char header /\ ~ In "013"%char header.
Proof.
  rewrite ask_visual_outcome.
  destruct (gen question (chars "visual")) as [s|st|e] eqn:Eg;
    [|discriminate|discriminate].
  destruct (ensure_limit s MAX_ROWS_VISUAL) as [sql|e] eqn:El; [|discriminate].
  destruct (run sql MAX_ROWS_VISUAL) as [rows|e] eqn:Er; [|discriminate].
  destruct (chart rows) as [series|e] eqn:Ec; [|destruct e; discriminate].
  intros H. injection H as <- <-.
  exists s, sql, rows, series.
  destruct (safe_header_value_no_break sql 800) as [Hn Hr].
  pose proof (safe_header_value_bound sql 800 ltac:(lia)) as Hb.
  repeat split; auto; [|lia].
  revert Ec. unfold chart_series.
  destruct (df_empty scalar (DataFrame_of scalar null rows)); [discriminate|].
  destruct (pick_columns (columns scalar (DataFrame_of scalar null rows)))
    as [[i j]|e]; [|discriminate].
  intros H. apply Ok_inj in H. subst series.
  rewrite length_firstn. lia.
Qed.

(** [ask_visual] fails with status 502 exactly when the completion service
    fails, with status 404 exactly when the statement ran and no row has a
    column (in particular when there is no row), and with status 400 in
    every other case. *)
Theorem ask_visual_failures (question : str) :
  (forall st, visual_endpoint question = Failed st ->
              st = 502%Z \/ st = 404%Z \/ st = 400%Z) /\
  (visual_endpoint question = Failed 502 <->
   completion (prompt_of question (chars "visual")) = None) /\
  (visual_endpoint question = Failed 404 <->
   exists s sql rows,
     gen question (chars "visual") = Return s /\
     ensure_limit s MAX_ROWS_VISUAL = Ok sql /\
     run sql MAX_ROWS_VISUAL = Ok rows /\
     Forall (fun r => r = []) rows).
Proof.
  rewrite ask_visual_outcome.
  pose proof (generate_sql_completed question (chars "visual")) as Hc.
  destruct (gen question (chars "visual")) as [s|st|e] eqn:Eg.
  - assert (Hc' : completion (prompt_of question (chars "visual")) <> None)
      by (apply Hc; left; now exists s).
    destruct (ensure_limit s MAX_ROWS_VISUAL) as [sql|e] eqn:El.
    + destruct (run sql MAX_ROWS_VISUAL) as [rows|e] eqn:Er.
      * pose proof (chart_series_no_rows rows) as Hempty.
        assert (Hinv : forall s' sql' rows',
                  Return s = Return s' ->
                  ensure_limit s' MAX_ROWS_VISUAL = Ok sql' ->
                  run sql' MAX_ROWS_VISUAL = Ok rows' -> rows' = rows).
        { intros s' sql' rows' H1 H2 H3. injection H1 as <-.
          rewrite El in H2. apply Ok_inj in H2. subst sql'.
          rewrite Er in H3. now apply Ok_inj in H3. }
        destruct (chart rows) as [series|e] eqn:Ec.
        -- split; [discriminate|].
           split; [split; [discriminate | tauto]|].
           split; [discriminate|].
           intros [s' [sql' [rows' [H1 [H2 [H3 H4]]]]]].
           rewrite (Hinv _ _ _ H1 H2 H3) in H4.
           apply Hempty in H4. discriminate.
        -- assert (He : e = EmptyResult \/ e <> EmptyResult)
             by (destruct e; (now left) || (right; discriminate)).
           destruct He as [->|Hne].
           ++ split; [intros st H; injection H as <-; auto|].
              split; [split; [discriminate | tauto]|].
              split; [|reflexivity]. intros _. exists s, sql, rows.
              repeat split; auto. now apply Hempty.
           ++ replace (match e with
                       | EmptyResult => @Failed (image * str) 404
                       | _ => Failed 400
                       end) with (@Failed (image * str) 400)
                by (destruct e; try reflexivity; congruence).
              split; [intros st H; injection H as <-; auto|].
              split; [split; [discriminate | tauto]|].
              split; [discriminate|].
              intros [s' [sql' [rows' [H1 [H2 [H3 H4]]]]]].
              rewrite (Hinv _ _ _ H1 H2 H3) in H4.
              apply Hempty in H4. congruence.
      * split; [intros st H; injection H as <-; auto|].
        split; [split; [discriminate | tauto]|].
        split; [discriminate|].
        intros [s' [sql' [rows' [H1 [H2 [H3 _]]]]]]. injection H1 as <-.
        rewrite El in H2. apply Ok_inj in H2. subst sql'. congruence.
    + split; [intros st H; injection H as <-; auto|].
      split; [split; [discriminate | tauto]|].
      split; [discriminate|].
      intros [s' [sql' [rows' [H1 [H2 _]]]]]. injection H1 as <-. congruence.
  - apply generate_sql_http in Eg. destruct Eg as [-> Hn].
    split; [intros st H; injection H as <-; now left|].
    split; [tauto|].
    split; [discriminate|].
    intros [s [sql [rows [H _]]]]. discriminate.
  - assert (Hc' : completion (prompt_of question (chars "visual")) <> None)
      by (apply Hc; right; now exists e).
    split; [intros st H; injection H as <-; auto|].
    split; [split; [discriminate | tauto]|].
    split; [discriminate|].
    intros [s [sql [rows [H _]]]]. discriminate.
Qed.

End Endpoints.

Lemma ask_text_served_witness :
  let completion := fun _ : str =>
    Some (chars "SELECT name FROM public.rawg_games;") in
  let db_execute := fun _ : str =>
    Ok [[(chars "name", 1%Z)]; [(chars "name", 2%Z)]; [(chars "name", 3%Z)]] in
  let sql := chars "SELECT name FROM public.rawg_games"
             ++ newline :: chars "LIMIT 2" in
  let rows := [[(chars "name", 1%Z)]; [(chars "name", 2%Z)]] in
  (exists raw cand s,
     completion (prompt_of (chars "names?") (chars "text")) = Some raw /\
     extract_first_select (strip raw) = Ok cand /\
     sanitize_sql (fun _ => true) cand = Ok s /\
     ensure_limit s 2 = Ok sql /\
     run_sql Z db_execute sql 2 = Ok rows) /\
  ~ In ";"%char sql /\
  (exists L, limit_of sql = Some L /\ (0 <= L <= 2)%Z) /\
  (Z.of_nat (length rows) <= 2)%Z.
Proof.
  intros completion db_execute sql rows.
  apply (ask_text_served (fun _ => true) completion Z db_execute 2
           (chars "names?") sql rows).
  - lia.
  - vm_compute. reflexivity.
Defined.

Lemma ask_visual_served_witness :
  let completion := fun _ : str =>
    Some (chars "SELECT name, rating FROM public.rawg_games") in
  let db_execute := fun _ : str =>
    Ok [[(chars "name", 7%Z); (chars "rating", 3%Z)];
        [(chars "name", 8%Z); (chars "rating", 5%Z)]] in
  let astype_str := fun z : Z => str_of_int z in
  let render := fun (series : list (str * Z)) (_ : str) => series in
  let img := [(chars "8", 5%Z); (chars "7", 3%Z)] in
  let header := chars "SELECT name, rating FROM public.rawg_games LIMIT 200" in
  exists s sql rows series,
    generate_sql (fun _ => true) completion (chars "ratings?") (chars "visual")
    = Return s /\
    ensure_limit s 200 = Ok sql /\
    run_sql Z db_execute sql 200 = Ok rows /\
    chart_series Z 0%Z astype_str Z 0%Z Some Z.leb rows = Ok series /\
    length series <= 30 /\
    img = render series (chars "ratings?") /\
    header = safe_header_value sql 800 /\
    length header <= 803 /\
    ~ In "010"%char header /\ ~ In "013"%char header.
Proof.
  intros completion db_execute astype_str render img header.
  apply (ask_visual_served (fun _ => true) completion Z 0%Z db_execute
           astype_str Z 0%Z Some Z.leb (list (str * Z)) render 200
           (chars "ratings?") img header).
  vm_compute. reflexivity.
Defined.
